(** * MIDISock: a Rocq model of [server.py]

    The development follows the source file top to bottom: the note map,
    the mojibake healing of port names, the matcher, the configuration
    resolver, the MIDI output handle and the dispatcher, the singleton
    guard and the accept loop of the UNIX socket server.

    Python [str] values are lists of Unicode code points, [bytes] values are
    lists of integers in [0, 255].  What the program obtains from the Python
    runtime (Unicode normalisation, case folding, the [re] engine, [str()] and
    [int()] of arbitrary objects) is an interface, [PyRuntime]; the codecs the
    healing uses (cp1252, mac_roman, latin-1, UTF-8) are written out. *)

From Stdlib Require Import ZArith Lia Bool List.
From Stdlib Require Import Strings.Ascii Strings.String.
From Stdlib Require Import Floats.SpecFloat.
From Stdlib Require Import DecimalString.
From stdpp Require Import base decidable option list gmap.
Import ListNotations.

Local Open Scope Z_scope.
Local Set Warnings "-register-all".

(** ** Python strings and bytes *)

(** A [str]: the sequence of its code points. *)
Abbreviation pystr := (list Z).
(** A [bytes] object. *)
Abbreviation pybytes := (list Z).

(** An ASCII literal of the source as a [str]. *)
Definition lit (s : string) : pystr :=
  List.map (fun a => Z.of_N (N_of_ascii a)) (list_ascii_of_string s).

(** [a in b] on strings: [a] occurs in [b] as a contiguous run. *)
Fixpoint starts_with (a b : pystr) : bool :=
  match a, b with
  | [], _ => true
  | _ :: _, [] => false
  | x :: a', y :: b' => (x =? y) && starts_with a' b'
  end.

Fixpoint str_in (a b : pystr) : bool :=
  starts_with a b ||
  match b with
  | [] => false
  | _ :: b' => str_in a b'
  end.

(** ** Codecs *)

(** The error handler of [bytes.decode]. *)
Inductive errors := Strict | Ignore.

Definition is_cont (b : Z) : bool := (0x80 <=? b) && (b <? 0xC0).

(** What a decoder does at a malformed position: [strict] raises, [ignore]
    drops the rejected bytes and resumes with [k]. *)
Definition on_error (e : errors) (k : option pystr) : option pystr :=
  match e with
  | Strict => None
  | Ignore => k
  end.

(** The input ends inside a sequence: [strict] raises, [ignore] drops the
    incomplete tail. *)
Definition on_truncated (e : errors) : option pystr := on_error e (Some []).

Definition emit (cp : Z) (k : option pystr) : option pystr :=
  match k with
  | Some s => Some (cp :: s)
  | None => None
  end.

Definition cp2 (b0 b1 : Z) : Z :=
  Z.lor (Z.shiftl (Z.land b0 0x1F) 6) (Z.land b1 0x3F).
Definition cp3 (b0 b1 b2 : Z) : Z :=
  Z.lor (Z.shiftl (Z.land b0 0x0F) 12)
        (Z.lor (Z.shiftl (Z.land b1 0x3F) 6) (Z.land b2 0x3F)).
Definition cp4 (b0 b1 b2 b3 : Z) : Z :=
  Z.lor (Z.shiftl (Z.land b0 0x07) 18)
        (Z.lor (Z.shiftl (Z.land b1 0x3F) 12)
               (Z.lor (Z.shiftl (Z.land b2 0x3F) 6) (Z.land b3 0x3F))).

(** The second byte of a three-byte sequence: a continuation byte that
    yields neither an overlong form (lead E0) nor a surrogate (lead ED). *)
Definition ok2_of3 (b0 b1 : Z) : bool :=
  is_cont b1 && negb (if b1 <? 0xA0 then b0 =? 0xE0 else b0 =? 0xED).

(** The second byte of a four-byte sequence: no overlong form (lead F0) and
    nothing above U+10FFFF (lead F4). *)
Definition ok2_of4 (b0 b1 : Z) : bool :=
  is_cont b1 && negb (if b1 <? 0x90 then b0 =? 0xF0 else b0 =? 0xF4).

(** [bytes.decode("utf-8", errors=e)], after CPython's decoder: an invalid
    start byte rejects one byte, an invalid continuation byte rejects the
    bytes before it, and decoding resumes right after the rejected bytes. *)
Fixpoint utf8_decode (e : errors) (bs : pybytes) {struct bs} : option pystr :=
  match bs with
  | [] => Some []
  | b0 :: r0 =>
    if b0 <? 0x80 then emit b0 (utf8_decode e r0)
    else if b0 <? 0xC2 then on_error e (utf8_decode e r0)
    else if b0 <? 0xE0 then
      match r0 with
      | [] => on_truncated e
      | b1 :: r1 =>
        if is_cont b1 then emit (cp2 b0 b1) (utf8_decode e r1)
        else on_error e (utf8_decode e r0)
      end
    else if b0 <? 0xF0 then
      match r0 with
      | [] => on_truncated e
      | b1 :: r1 =>
        if negb (ok2_of3 b0 b1) then on_error e (utf8_decode e r0)
        else
          match r1 with
          | [] => on_truncated e
          | b2 :: r2 =>
            if is_cont b2 then emit (cp3 b0 b1 b2) (utf8_decode e r2)
            else on_error e (utf8_decode e r1)
          end
      end
    else if b0 <? 0xF5 then
      match r0 with
      | [] => on_truncated e
      | b1 :: r1 =>
        if negb (ok2_of4 b0 b1) then on_error e (utf8_decode e r0)
        else
          match r1 with
          | [] => on_truncated e
          | b2 :: r2 =>
            if negb (is_cont b2) then on_error e (utf8_decode e r1)
            else
              match r2 with
              | [] => on_truncated e
              | b3 :: r3 =>
                if is_cont b3 then emit (cp4 b0 b1 b2 b3) (utf8_decode e r3)
                else on_error e (utf8_decode e r2)
              end
          end
      end
    else on_error e (utf8_decode e r0)
  end.

(** The three legacy encodings of [_variants_from_mojibake], in its order. *)
Inductive legacy_enc := Cp1252 | MacRoman | Latin1.

(** cp1252, bytes 0x80..0x9F: (code point, byte); five bytes are unassigned. *)
Definition cp1252_high : list (Z * Z) :=
  [(8364, 128); (8218, 130); (402, 131); (8222, 132); (8230, 133); (8224, 134);
   (8225, 135); (710, 136); (8240, 137); (352, 138); (8249, 139); (338, 140);
   (381, 142); (8216, 145); (8217, 146); (8220, 147); (8221, 148); (8226, 149);
   (8211, 150); (8212, 151); (732, 152); (8482, 153); (353, 154); (8250, 155);
   (339, 156); (382, 158); (376, 159)].

(** mac_roman, bytes 0x80..0xFF: (code point, byte). *)
Definition mac_roman_high : list (Z * Z) :=
  [(196, 128); (197, 129); (199, 130); (201, 131); (209, 132); (214, 133);
   (220, 134); (225, 135); (224, 136); (226, 137); (228, 138); (227, 139);
   (229, 140); (231, 141); (233, 142); (232, 143); (234, 144); (235, 145);
   (237, 146); (236, 147); (238, 148); (239, 149); (241, 150); (243, 151);
   (242, 152); (244, 153); (246, 154); (245, 155); (250, 156); (249, 157);
   (251, 158); (252, 159); (8224, 160); (176, 161); (162, 162); (163, 163);
   (167, 164); (8226, 165); (182, 166); (223, 167); (174, 168); (169, 169);
   (8482, 170); (180, 171); (168, 172); (8800, 173); (198, 174); (216, 175);
   (8734, 176); (177, 177); (8804, 178); (8805, 179); (165, 180); (181, 181);
   (8706, 182); (8721, 183); (8719, 184); (960, 185); (8747, 186); (170, 187);
   (186, 188); (937, 189); (230, 190); (248, 191); (191, 192); (161, 193);
   (172, 194); (8730, 195); (402, 196); (8776, 197); (8710, 198); (171, 199);
   (187, 200); (8230, 201); (160, 202); (192, 203); (195, 204); (213, 205);
   (338, 206); (339, 207); (8211, 208); (8212, 209); (8220, 210); (8221, 211);
   (8216, 212); (8217, 213); (247, 214); (9674, 215); (255, 216); (376, 217);
   (8260, 218); (8364, 219); (8249, 220); (8250, 221); (64257, 222); (64258, 223);
   (8225, 224); (183, 225); (8218, 226); (8222, 227); (8240, 228); (194, 229);
   (202, 230); (193, 231); (203, 232); (200, 233); (205, 234); (206, 235);
   (207, 236); (204, 237); (211, 238); (212, 239); (63743, 240); (210, 241);
   (218, 242); (219, 243); (217, 244); (305, 245); (710, 246); (732, 247);
   (175, 248); (728, 249); (729, 250); (730, 251); (184, 252); (733, 253);
   (731, 254); (711, 255)].

Fixpoint assoc (k : Z) (t : list (Z * Z)) : option Z :=
  match t with
  | [] => None
  | (k', v) :: t' => if k =? k' then Some v else assoc k t'
  end.

(** The byte of one code point under a legacy encoding, when it has one. *)
Definition encode_char (enc : legacy_enc) (c : Z) : option Z :=
  match enc with
  | Latin1 => if (0 <=? c) && (c <? 256) then Some c else None
  | Cp1252 =>
    if (0 <=? c) && (c <? 0x80) then Some c
    else if (0xA0 <=? c) && (c <? 256) then Some c
    else assoc c cp1252_high
  | MacRoman =>
    if (0 <=? c) && (c <? 0x80) then Some c else assoc c mac_roman_high
  end.

(** [s.encode(enc, errors="strict")]: [None] when a character has no byte. *)
Fixpoint encode (enc : legacy_enc) (s : pystr) : option pybytes :=
  match s with
  | [] => Some []
  | c :: s' =>
    match encode_char enc c, encode enc s' with
    | Some b, Some bs => Some (b :: bs)
    | _, _ => None
    end
  end.

(** ** Python objects, exceptions *)

(** The objects a decoded configuration document is made of.  (YAML's
    timestamps, binary scalars and sets are left out; the program treats
    them like the other objects that are not mappings.) *)
Inductive pyval :=
| PyNone
| PyBool (b : bool)
| PyInt (n : Z)
| PyFloat (x : spec_float)
| PyStr (s : pystr)
| PyList (l : list pyval)
| PyDict (d : list (pyval * pyval)).

(** The exception classes the program meets that derive from [Exception]. *)
Inductive exception :=
| AttributeError
| TypeError
| ValueError
| OverflowError
| KeyError
| IndexError
| ReError            (* re.error *)
| OSError
| SocketTimeout      (* socket.timeout *)
| RtMidiError.       (* what the rtmidi binding raises *)

(** What a statement can raise.  [SystemExit] is what [sys.exit] raises; it
    derives from [BaseException], so [except Exception] lets it through. *)
Inductive exn :=
| Exception (e : exception)
| SystemExit (code : Z).
Coercion Exception : exception >-> exn.

(** A computation that returns or raises. *)
Inductive result (A : Type) :=
| Ok (a : A)
| Raise (e : exn).
Arguments Ok {A} a.
Arguments Raise {A} e.

#[global] Instance result_ret : MRet result := fun A a => Ok a.
#[global] Instance result_bind : MBind result := fun A B f m =>
  match m with
  | Ok a => f a
  | Raise e => Raise e
  end.

(** [bool(v)] *)
Definition truthy (v : pyval) : bool :=
  match v with
  | PyNone => false
  | PyBool b => b
  | PyInt n => negb (n =? 0)
  | PyFloat (S754_zero _) => false
  | PyFloat _ => true
  | PyStr s => negb (bool_decide (s = []))
  | PyList l => negb (bool_decide (l = []))
  | PyDict d => negb (bool_decide (d = []))
  end.

(** [a or b] *)
Definition py_or (a b : pyval) : pyval := if truthy a then a else b.

Definition key_is (k : pystr) (v : pyval) : bool :=
  match v with
  | PyStr s => bool_decide (s = k)
  | _ => false
  end.

(** The entry of a string key in a [dict]. *)
Fixpoint dict_lookup (k : pystr) (d : list (pyval * pyval)) : option pyval :=
  match d with
  | [] => None
  | (k', v) :: d' => if key_is k k' then Some v else dict_lookup k d'
  end.

(** [v.get(k, dflt)]: only a [dict] has the method. *)
Definition py_get (v : pyval) (k : pystr) (dflt : pyval) : result pyval :=
  match v with
  | PyDict d => Ok (default dflt (dict_lookup k d))
  | _ => Raise AttributeError
  end.

(** [isinstance(v, dict)] *)
Definition isinstance_dict (v : pyval) : bool :=
  match v with
  | PyDict _ => true
  | _ => false
  end.

(** [v[k]] for a string key. *)
Definition py_getitem (v : pyval) (k : pystr) : result pyval :=
  match v with
  | PyDict d =>
    match dict_lookup k d with
    | Some x => Ok x
    | None => Raise KeyError
    end
  | _ => Raise TypeError
  end.

(** ** The Python runtime *)

(** What the program takes from the interpreter and its standard library. *)
Class PyRuntime := {
  (** [unicodedata.normalize("NFKC", s)] *)
  nfkc : pystr -> pystr;
  (** [s.casefold()] *)
  casefold : pystr -> pystr;
  (** compiled patterns, [re.Pattern] *)
  regex : Type;
  (** [re.compile(p, re.IGNORECASE)]; [None] when it raises [re.error] *)
  re_compile_ignorecase : pystr -> option regex;
  (** [rx.search(s)] found a match *)
  re_search : regex -> pystr -> bool;
  (** [str(v)] of an object that is not a [str] *)
  str_of : pyval -> pystr;
  (** [int(s)] of a [str]; [None] when it raises [ValueError] *)
  int_of_str : pystr -> option Z;
}.

(** ** Note map (C-1 .. G9, sharps only) *)

Definition _NOTE_NAMES : list pystr :=
  [lit "C"; lit "C#"; lit "D"; lit "D#"; lit "E"; lit "F";
   lit "F#"; lit "G"; lit "G#"; lit "A"; lit "A#"; lit "B"].

(** [str(n)] of an [int]: its decimal numeral. *)
Definition str_of_int (n : Z) : pystr :=
  lit (NilZero.string_of_int (Z.to_int n)).

(** The key of note [n]: [f"{_NOTE_NAMES[n % 12]}{(n // 12) - 1}"]. *)
Definition note_key (n : Z) : pystr :=
  nth (Z.to_nat (n mod 12)) _NOTE_NAMES [] ++ str_of_int (n / 12 - 1).

(** The dict comprehension over [range(128)]: a later key would replace an
    earlier equal one. *)
Definition NOTE_TO_NUM : gmap pystr Z :=
  foldl (fun m n => <[note_key n := n]> m) ∅ (seqZ 0 128).

(** ** Mojibake healing (display only) *)

Definition _BAD_HINTS : gset pystr :=
  list_to_set
    [[0xC2]; [0xC3]; [0xC4]; [0xC5]; [0xE6]; [0xF0]; [0xF8]; [0xFE];
     [0xFFFD]; [0x201E]; [0xC9]; [0xEA]; [0xC7]; [0x3C0]].

(** [any(f(x) for x in X)] over a set. *)
Definition set_any {A} `{Countable A} (f : A -> bool) (X : gset A) : bool :=
  existsb f (elements X).

(** One round of the loop over the encodings: the [try] body appends the
    re-decoded name when both steps succeed and it differs from [s]. *)
Definition variants_step (s : pystr) (out : list pystr) (enc : legacy_enc)
  : list pystr :=
  match encode enc s with
  | None => out
  | Some b =>
    match utf8_decode Strict b with
    | None => out
    | Some cand => if bool_decide (cand ≠ s) then out ++ [cand] else out
    end
  end.

(** One round of the deduplication loop. *)
Definition dedup_step (st : gset pystr * list pystr) (v : pystr)
  : gset pystr * list pystr :=
  if bool_decide (v ∉ st.1) then ({[v]} ∪ st.1, st.2 ++ [v]) else st.

Definition _variants_from_mojibake (s : pystr) : list pystr :=
  let out := foldl (variants_step s) [] [Cp1252; MacRoman; Latin1] in
  (foldl dedup_step (∅, []) out).2.

Definition _looks_mojibake (s : pystr) : bool :=
  set_any (fun ch => str_in ch s) _BAD_HINTS.

Definition is_kana_or_cjk (ch : Z) : bool :=
  ((0x3040 <=? ch) && (ch <=? 0x30ff)) || ((0x4e00 <=? ch) && (ch <=? 0x9fff)).

(** [for f in fixes: if any(...): return f]; [None] when the loop ends. *)
Fixpoint first_kana_or_cjk (fixes : list pystr) : option pystr :=
  match fixes with
  | [] => None
  | f :: fixes' =>
    if existsb is_kana_or_cjk f then Some f else first_kana_or_cjk fixes'
  end.

Definition _port_display (orig : pystr) : pystr :=
  if _looks_mojibake orig then
    let fixes := _variants_from_mojibake orig in
    match first_kana_or_cjk fixes with
    | Some f => f
    | None =>
      match fixes with
      | f0 :: _ => f0
      | [] => orig
      end
    end
  else orig.

(** ** Records and matching *)

Record port_record := {
  orig : pystr;         (* exact name, the one that opens the port *)
  alts : list pystr;    (* plausible fixed forms *)
  nrms : gset pystr;    (* normalized strings, for matching *)
  disp : pystr          (* healed display *)
}.

Section Matcher.
Context {R : PyRuntime}.

(** NFKC + casefold for language-agnostic matching. *)
Definition _norm (s : pystr) : pystr := casefold (nfkc s).

Definition _record_for_port (o : pystr) : port_record :=
  let a := if _looks_mojibake o then _variants_from_mojibake o else [] in
  let n := foldl (fun acc x => {[_norm x]} ∪ acc) {[_norm o]} a in
  {| orig := o; alts := a; nrms := n; disp := _port_display o |}.

Definition _compile_regex (pat : pystr) : result regex :=
  let pat_n := nfkc pat in
  match re_compile_ignorecase pat_n with
  | Some rx => Ok rx
  | None => Raise ReError
  end.

Definition _filter_by_name (recs : list port_record) (needle : pystr)
  : list port_record :=
  if bool_decide (needle = []) then recs
  else
    let nd := _norm needle in
    List.filter (fun r => set_any (fun n => str_in nd n) (nrms r)) recs.

Definition _filter_by_regex (recs : list port_record) (pattern : pystr)
  : result (list port_record) :=
  if bool_decide (pattern = []) then Ok recs
  else
    rx ← _compile_regex pattern;
    Ok (List.filter (fun r => set_any (fun n => re_search rx n) (nrms r)) recs).

End Matcher.

(** ** Config *)

(** [try: body except Exception: handler] *)
Definition try_except {A} (body : result A) (handler : exception -> result A)
  : result A :=
  match body with
  | Raise (Exception e) => handler e
  | r => r
  end.

(** [int(x)] of a float: truncation towards zero; NaN and the infinities
    raise. *)
Definition int_of_float (x : spec_float) : result Z :=
  match x with
  | S754_zero _ => Ok 0
  | S754_infinity _ => Raise OverflowError
  | S754_nan => Raise ValueError
  | S754_finite s m e =>
    let mag := Z.shiftl (Z.pos m) e in
    Ok (if s then - mag else mag)
  end.

Section Config.
Context {R : PyRuntime}.

(** [str(v)] *)
Definition py_str (v : pyval) : pystr :=
  match v with
  | PyStr s => s
  | _ => str_of v
  end.

(** [int(v)] *)
Definition py_int (v : pyval) : result Z :=
  match v with
  | PyNone => Raise TypeError
  | PyBool b => Ok (if b then 1 else 0)
  | PyInt n => Ok n
  | PyFloat x => int_of_float x
  | PyStr s =>
    match int_of_str s with
    | Some n => Ok n
    | None => Raise ValueError
    end
  | PyList _ => Raise TypeError
  | PyDict _ => Raise TypeError
  end.

(** The result of [_resolve_port]:
    (resolved_raw_name or None, matched_display_lines, all_display_lines). *)
Definition resolution : Type := option pystr * list pystr * list pystr.

(** [ports] is what [_list_ports()] returns when the function calls it. *)
Definition _resolve_port (ports : list pystr) (cfg : pyval) : result resolution :=
  let recs := List.map _record_for_port ports in
  m ← py_get cfg (lit "midi") PyNone;
  let midi_cfg := py_or m (PyDict []) in
  d ← py_get midi_cfg (lit "device") PyNone;
  let dev_cfg := py_or d (PyDict []) in
  p ← py_get midi_cfg (lit "port") PyNone;
  let por_cfg := py_or p (PyDict []) in
  (* Optional device filter *)
  let recs2 := recs in
  recs2 ←
    (if isinstance_dict dev_cfg then
       nm ← py_get dev_cfg (lit "name") PyNone;
       if truthy nm then
         v ← py_getitem dev_cfg (lit "name");
         Ok (_filter_by_name recs2 (py_str v))
       else
         rg ← py_get dev_cfg (lit "regex") PyNone;
         if truthy rg then
           v ← py_getitem dev_cfg (lit "regex");
           _filter_by_regex recs2 (py_str v)
         else Ok recs2
     else Ok recs2);
  (* Port filter *)
  recs2 ←
    (if isinstance_dict por_cfg then
       nm ← py_get por_cfg (lit "name") PyNone;
       if truthy nm then
         v ← py_getitem por_cfg (lit "name");
         Ok (_filter_by_name recs2 (py_str v))
       else
         rg ← py_get por_cfg (lit "regex") PyNone;
         if truthy rg then
           v ← py_getitem por_cfg (lit "regex");
           _filter_by_regex recs2 (py_str v)
         else Ok recs2
     else Ok recs2);
  let matched := recs2 in
  match matched with
  | [r] => Ok (Some (orig r), [disp r], List.map disp recs)
  | _ => Ok (None, List.map disp matched, List.map disp recs)
  end.

Definition _channel_from_config (cfg : pyval) : result Z :=
  m ← py_get cfg (lit "midi") PyNone;
  let midi_cfg := py_or m (PyDict []) in
  ch ← try_except
         (c ← py_get midi_cfg (lit "channel") (PyInt 1); py_int c)
         (fun _ => Ok 1);
  Ok (if ch <? 1 then 1 else if ch >? 16 then 16 else ch).

End Config.

(** ** The process and its surroundings *)

Inductive level := INFO | WARN | ERROR | DEBUG.

(** The lines the program writes, by their template. *)
Inductive message :=
| MsgIgnoredToken (note_name : pystr)
| MsgSendFailed (note_name : pystr) (e : exception)
| MsgOpened (idx : nat)
| MsgOpenException (e : exception)
| MsgOpenFailed (display : pystr)
| MsgSockSymlink
| MsgSockCheckFailed (e : exception)
| MsgBindFailed (e : exception)
| MsgSetTimeoutFailed (e : exception)
| MsgNoMatch
| MsgAmbiguous (n : nat)
| MsgMatchedHeader
| MsgMatched (display : pystr)
| MsgHint
| MsgAvailableHeader
| MsgAvailable (i : nat) (display : pystr)
| MsgPort (display : pystr)
| MsgCheckOk (display : pystr) (channel : Z).

(** What the process does that the outside can see, in order.  Durations are
    in milliseconds. *)
Inductive event :=
| EvLog (l : level) (m : message)       (* a line on STDERR *)
| EvPrint (m : message)                 (* a line on STDOUT *)
| EvOpenPort (idx : nat)                (* m.open_port(idx) *)
| EvSend (msg : list Z)                 (* _MIDIOUT.send_message(msg) *)
| EvClosePort                           (* close_port() *)
| EvSleep (ms : Z)                      (* time.sleep *)
| EvProbe                               (* test.connect(SOCK_PATH) *)
| EvRemove                              (* os.remove(SOCK_PATH) *)
| EvBind                                (* s.bind(SOCK_PATH) *)
| EvChmod (mode : Z)                    (* os.chmod(SOCK_PATH, mode) *)
| EvListen (backlog : Z)                (* s.listen(backlog) *)
| EvAccept                              (* s.accept() *)
| EvSetTimeout (ms : Z)                 (* conn.settimeout *)
| EvRecv (bufsize : Z)                  (* conn.recv(bufsize) *)
| EvCloseConn                           (* leaving [with conn:] *)
| EvStartServerThread                   (* threading.Thread(...).start() *)
| EvRunApp.                             (* MIDISockApp().run() *)

(** What the file system holds at [SOCK_PATH]. *)
Inductive entry :=
| NoEntry
| Symlink (target_exists : bool)
| SocketFile (listening : bool)   (* a socket; a live server listens on it *)
| OtherFile.

(** An opened [rtmidi.MidiOut], by the index of its port. *)
Record handle := { port_index : nat }.

(** The module's globals, the entry at [SOCK_PATH], and what happened so far. *)
Record world := {
  _MIDIOUT : option handle;
  _STATUS_ON : Z;
  _STATUS_OFF : Z;
  _DEBUG : bool;
  sock_entry : entry;
  trace : list event
}.

Definition set_MIDIOUT (h : option handle) (w : world) : world :=
  {| _MIDIOUT := h; _STATUS_ON := _STATUS_ON w; _STATUS_OFF := _STATUS_OFF w;
     _DEBUG := _DEBUG w; sock_entry := sock_entry w; trace := trace w |}.
Definition set_STATUS (on off : Z) (w : world) : world :=
  {| _MIDIOUT := _MIDIOUT w; _STATUS_ON := on; _STATUS_OFF := off;
     _DEBUG := _DEBUG w; sock_entry := sock_entry w; trace := trace w |}.
Definition set_sock_entry (e : entry) (w : world) : world :=
  {| _MIDIOUT := _MIDIOUT w; _STATUS_ON := _STATUS_ON w;
     _STATUS_OFF := _STATUS_OFF w; _DEBUG := _DEBUG w; sock_entry := e;
     trace := trace w |}.
Definition record_event (e : event) (w : world) : world :=
  {| _MIDIOUT := _MIDIOUT w; _STATUS_ON := _STATUS_ON w;
     _STATUS_OFF := _STATUS_OFF w; _DEBUG := _DEBUG w;
     sock_entry := sock_entry w; trace := trace w ++ [e] |}.

(** The module as loaded: no port, channel 1, nothing done yet. *)
Definition initial_world (debug : bool) (e : entry) : world :=
  {| _MIDIOUT := None; _STATUS_ON := 0x90; _STATUS_OFF := 0x80;
     _DEBUG := debug; sock_entry := e; trace := [] |}.

(** How the surroundings answer, given what happened so far: [None] is a
    call that returns, [Some e] one that raises [e], an exception of a class
    derived from [Exception]. *)
Class Surroundings := {
  (** [rtmidi.MidiOut()] *)
  midiout_raises : list event -> option exception;
  (** [m.get_ports()]: it raises ([inl]) or returns the port names *)
  list_ports : list event -> exception + list pystr;
  open_port_raises : list event -> nat -> option exception;
  send_raises : list event -> list Z -> option exception;
  close_port_raises : list event -> option exception;
  remove_raises : list event -> option exception;
  bind_raises : list event -> option exception;
  chmod_raises : list event -> option exception
}.

(** What writing a log line does, given what happened so far: [None] when
    the line reaches STDERR, through the stream or, the stream failing,
    through [os.write(2, ...)]; [Some e] when that last call raises [e],
    which [_log] does not catch. *)
Class Stderr := {
  stderr_raises : list event -> level -> message -> option exception
}.

(** A statement: it runs in a world and returns or raises. *)
Definition prog (A : Type) : Type := world -> result A * world.

#[global] Instance prog_ret : MRet prog := fun A a w => (Ok a, w).
#[global] Instance prog_bind : MBind prog := fun A B f m w =>
  match m w with
  | (Ok a, w') => f a w'
  | (Raise e, w') => (Raise e, w')
  end.

Definition raise {A} (e : exn) : prog A := fun w => (Raise e, w).
Definition sys_exit {A} (code : Z) : prog A := raise (SystemExit code).
Definition lift {A} (r : result A) : prog A := fun w => (r, w).
Definition get_world : prog world := fun w => (Ok w, w).
Definition modify (f : world -> world) : prog unit := fun w => (Ok tt, f w).
Definition event_ (e : event) : prog unit := modify (record_event e).

(** [try: body except Exception as e: handler] *)
Definition try_catch {A} (body : prog A) (handler : exception -> prog A)
  : prog A := fun w =>
  match body w with
  | (Raise (Exception e), w') => handler e w'
  | r => r
  end.

(** A call into the surroundings: it is recorded, then returns or raises. *)
Definition call (e : event) (outcome : list event -> option exception)
  : prog unit := fun w =>
  match outcome (trace w) with
  | None => (Ok tt, record_event e w)
  | Some x => (Raise (Exception x), record_event e w)
  end.

(** [for x in l: body(x)] *)
Fixpoint for_each {A} (l : list A) (body : A -> prog unit) : prog unit :=
  match l with
  | [] => mret tt
  | x :: l' => body x;; for_each l' body
  end.

(** [for i, x in enumerate(l): body(i, x)], counting from [i]. *)
Fixpoint for_each_i {A} (i : nat) (l : list A) (body : nat -> A -> prog unit)
  : prog unit :=
  match l with
  | [] => mret tt
  | x :: l' => body i x;; for_each_i (S i) l' body
  end.

(** *** Unified logging *)

Section Logging.
Context {Err : Stderr}.

(** Write a single log line to STDERR with a unified prefix: through
    [sys.stderr] and, when that raises, with [os.write(2, ...)], outside any
    [try].  The line is recorded when it was written. *)
Definition _log (l : level) (m : message) : prog unit := fun w =>
  match stderr_raises (trace w) l m with
  | None => (Ok tt, record_event (EvLog l m) w)
  | Some e => (Raise (Exception e), w)
  end.
Definition _info (m : message) : prog unit := _log INFO m.
Definition _warn (m : message) : prog unit := _log WARN m.
Definition _error (m : message) : prog unit := _log ERROR m.
Definition _debug (m : message) : prog unit :=
  w ← get_world;
  if _DEBUG w then _log DEBUG m else mret tt.

End Logging.

Definition print (m : message) : prog unit := event_ (EvPrint m).

(** [time.sleep(ms / 1000)] *)
Definition sleep (ms : Z) : prog unit := event_ (EvSleep ms).

Section Process.
Context {Sur : Surroundings} {R : PyRuntime} {Err : Stderr}.

(** [m = rtmidi.MidiOut()] *)
Definition new_midiout : prog unit := fun w =>
  match midiout_raises (trace w) with
  | None => (Ok tt, w)
  | Some e => (Raise (Exception e), w)
  end.

(** [m.get_ports()] *)
Definition get_ports : prog (list pystr) := fun w =>
  match list_ports (trace w) with
  | inl e => (Raise (Exception e), w)
  | inr ports => (Ok ports, w)
  end.

Definition _list_ports : prog (list pystr) :=
  new_midiout;;
  get_ports.

(** *** MIDI open/close *)

(** [next((i for i, p in enumerate(ports) if p == port_name), None)] *)
Fixpoint index_of (port_name : pystr) (ports : list pystr) (i : nat)
  : option nat :=
  match ports with
  | [] => None
  | p :: ports' =>
    if bool_decide (p = port_name) then Some i
    else index_of port_name ports' (S i)
  end.

Definition close_port : prog unit := call EvClosePort close_port_raises.

(** The [except] block of [_open_midi_out]; [m_assigned] tells whether
    [m] is still [None].  An exception raised in it leaves the function. *)
Definition open_failed (m_assigned : bool) (e : exception) : prog bool :=
  _error (MsgOpenException e);;
  (if m_assigned then try_catch close_port (fun _ => mret tt) else mret tt);;
  modify (set_MIDIOUT None);;
  mret false.

(** One [try] in the source; its [except] block is entered with [m] still
    [None] when [rtmidi.MidiOut()] raised, with [m] assigned afterwards. *)
Definition _open_midi_out (port_name : pystr) : prog bool :=
  m ← try_catch (new_midiout;; mret None) (fun e => mret (Some e));
  match m with
  | Some e => open_failed false e
  | None =>
    try_catch
      (ports ← get_ports;
       match index_of port_name ports 0 with
       | None => mret false
       | Some idx =>
         call (EvOpenPort idx) (fun t => open_port_raises t idx);;
         modify (set_MIDIOUT (Some {| port_index := idx |}));;
         _debug (MsgOpened idx);;
         mret true
       end)
      (open_failed true)
  end.

Definition _close_midi_out : prog unit :=
  w ← get_world;
  match _MIDIOUT w with
  | Some _ =>
    try_catch close_port (fun _ => mret tt);;
    modify (set_MIDIOUT None)
  | None => mret tt
  end.

(** *** Sending *)

Definition send_message (msg : list Z) : prog unit :=
  call (EvSend msg) (fun t => send_raises t msg).

(** Send a short Note On/Off pulse for a single note name (strict map). *)
Definition _send_note (note_name : pystr) : prog unit :=
  let n := NOTE_TO_NUM !! note_name in
  w ← get_world;
  match n, _MIDIOUT w with
  | Some n, Some _ =>
    try_catch
      (w ← get_world;
       send_message [_STATUS_ON w; n; 127];;
       sleep 50;;
       w ← get_world;
       send_message [_STATUS_OFF w; n; 0])
      (fun e =>
         _warn (MsgSendFailed note_name e);;
         _close_midi_out)
  | _, _ =>
    match n with
    | None => _debug (MsgIgnoredToken note_name)
    | Some _ => mret tt
    end
  end.

(** *** Socket hardening and the singleton guard *)

Definition os_path_islink (e : entry) : bool :=
  match e with
  | Symlink _ => true
  | _ => false
  end.

(** [os.path.exists] follows a symbolic link. *)
Definition os_path_exists (e : entry) : bool :=
  match e with
  | NoEntry => false
  | Symlink target_exists => target_exists
  | SocketFile _ => true
  | OtherFile => true
  end.

(** Refuse to use a symlink at SOCK_PATH (hardening). *)
Definition _abort_if_sock_symlink : prog unit :=
  try_catch
    (w ← get_world;
     if os_path_islink (sock_entry w) then
       _error MsgSockSymlink;;
       sys_exit 1
     else mret tt)
    (fun e =>
       _error (MsgSockCheckFailed e);;
       sys_exit 1).

(** [test.connect(SOCK_PATH)] within the 0.2 s timeout: it returns when a
    server listens on the socket and raises otherwise. *)
Definition connect_probe : prog unit := fun w =>
  match sock_entry w with
  | SocketFile true => (Ok tt, record_event EvProbe w)
  | _ => (Raise (Exception OSError), record_event EvProbe w)
  end.

(** [os.remove(SOCK_PATH)] *)
Definition os_remove : prog unit := fun w =>
  match remove_raises (trace w) with
  | None => (Ok tt, set_sock_entry NoEntry (record_event EvRemove w))
  | Some e => (Raise (Exception e), record_event EvRemove w)
  end.

(** Remove stale socket; exit if another instance is alive. *)
Definition _ensure_singleton_sock_or_exit : prog unit :=
  _abort_if_sock_symlink;;
  w ← get_world;
  if os_path_exists (sock_entry w) then
    try_catch
      (connect_probe;;       (* alive -> another instance *)
       sys_exit 0)
      (fun _ =>
         try_catch os_remove (* stale -> remove *) (fun _ => mret tt))
  else mret tt.

End Process.

(** ** The UNIX socket server *)

(** The characters [str.isspace] accepts; [str.strip()] removes them and
    [\s] matches them in a [str] pattern. *)
Definition is_space (c : Z) : bool :=
  ((0x09 <=? c) && (c <=? 0x0D)) || ((0x1C <=? c) && (c <=? 0x20))
  || (c =? 0x85) || (c =? 0xA0) || (c =? 0x1680)
  || ((0x2000 <=? c) && (c <=? 0x200A))
  || (c =? 0x2028) || (c =? 0x2029) || (c =? 0x202F) || (c =? 0x205F)
  || (c =? 0x3000).

Fixpoint lstrip (s : pystr) : pystr :=
  match s with
  | [] => []
  | c :: s' => if is_space c then lstrip s' else s
  end.

(** [s.strip()] *)
Definition strip (s : pystr) : pystr := rev (lstrip (rev (lstrip s))).

(** A character of the class [[,\s]]. *)
Definition is_sep (c : Z) : bool := (c =? 44) || is_space c.

(** [re.split(r"[,\s]+", s)], with [cur] the piece being read and [in_sep]
    set inside a run of separators: every run ends one piece, also an empty
    one at either end of the string. *)
Fixpoint split_from (cur : pystr) (in_sep : bool) (s : pystr) : list pystr :=
  match s with
  | [] => [cur]
  | c :: s' =>
    if is_sep c then
      if in_sep then split_from [] true s' else cur :: split_from [] true s'
    else split_from (cur ++ [c]) false s'
  end.

Definition re_split_commas_spaces (s : pystr) : list pystr :=
  split_from [] false s.

(** What [conn.recv(1024)] does: it raises ([socket.timeout] when nothing
    arrives within the deadline) or returns the bytes read, none at end of
    stream. *)
Inductive recv_outcome :=
| RecvRaises (e : exception)
| RecvData (data : pybytes).

(** The failures of [socket.settimeout]. *)
Inductive settimeout_error := StOSError | StValueError | StTypeError.

Definition settimeout_exception (e : settimeout_error) : exception :=
  match e with
  | StOSError => OSError
  | StValueError => ValueError
  | StTypeError => TypeError
  end.

(** An accepted connection, by what its calls will do. *)
Record connection := {
  settimeout_raises : option settimeout_error;
  recv : recv_outcome
}.

(** What one call of [s.accept()] does. *)
Inductive accept_outcome :=
| AcceptRaises (e : exception)
| Accepted (conn : connection).

(** [except (OSError, ValueError, TypeError)]; [socket.timeout] is an
    [OSError]. *)
Definition is_OSError_ValueError_TypeError (e : exception) : bool :=
  match e with
  | OSError | SocketTimeout | ValueError | TypeError => true
  | _ => false
  end.

(** [try: body except classes as e: handler] *)
Definition try_catch_of {A} (classes : exception -> bool) (body : prog A)
  (handler : exception -> prog A) : prog A := fun w =>
  match body w with
  | (Raise (Exception e), w') =>
    if classes e then handler e w' else (Raise (Exception e), w')
  | r => r
  end.

(** [with conn: body]: the connection is closed however the body ends. *)
Definition with_conn {A} (body : prog A) : prog A := fun w =>
  let '(r, w') := body w in (r, record_event EvCloseConn w').

Section Server.
Context {Sur : Surroundings} {R : PyRuntime} {Err : Stderr}.

Definition conn_settimeout (conn : connection) (ms : Z) : prog unit :=
  call (EvSetTimeout ms)
       (fun _ => settimeout_exception <$> settimeout_raises conn).

Definition conn_recv (conn : connection) (bufsize : Z) : prog pybytes :=
  event_ (EvRecv bufsize);;
  match recv conn with
  | RecvRaises e => raise e
  | RecvData data => mret data
  end.

(** [data.decode("utf-8", errors="ignore")] *)
Definition decode_ignore (data : pybytes) : prog pystr :=
  match utf8_decode Ignore data with
  | Some text => mret text
  | None => raise ValueError
  end.

(** [l[0]] *)
Definition first {A} (l : list A) : prog A :=
  match l with
  | x :: _ => mret x
  | [] => raise IndexError
  end.

(** The body of [with conn:]; a [continue] ends it. *)
Definition handle_conn (conn : connection) : prog unit :=
  (* Drop half-open clients quickly (no data sent). *)
  try_catch_of is_OSError_ValueError_TypeError
    (conn_settimeout conn 1000)
    (fun e => _debug (MsgSetTimeoutFailed e));;
  r ← try_catch
        (data ← conn_recv conn 1024; mret (Some data))
        (fun _ => mret None);
  match r with
  | None => mret tt                             (* continue *)
  | Some data =>
    if bool_decide (data = []) then mret tt     (* continue *)
    else
      try_catch
        (decoded ← decode_ignore data;
         let text := strip decoded in
         (* Single note only: first token (whitespace/commas) *)
         token ← (if bool_decide (text = []) then mret []
                  else first (re_split_commas_spaces text));
         if bool_decide (token = []) then mret tt else _send_note token)
        (fun _ => mret tt)                      (* Ignore malformed inputs *)
  end.

(** One round of [while True]. *)
Definition serve_one (a : accept_outcome) : prog unit :=
  r ← try_catch
        (event_ EvAccept;;
         match a with
         | AcceptRaises e => raise e
         | Accepted conn => mret (Some conn)
         end)
        (fun _ =>
           (* Do NOT exit the loop; transient errors can happen. *)
           sleep 50;;
           mret None);
  match r with
  | None => mret tt                             (* continue *)
  | Some conn => with_conn (handle_conn conn)
  end.

(** The [while True] loop over the accepts still to come; when they are
    used up the loop is where it always returns to, blocked in [accept]. *)
Fixpoint accept_loop (incoming : list accept_outcome) : prog unit :=
  match incoming with
  | [] => mret tt
  | a :: rest => serve_one a;; accept_loop rest
  end.

(** [s.bind(SOCK_PATH)]: the path must be free. *)
Definition sock_bind : prog unit := fun w =>
  match sock_entry w, bind_raises (trace w) with
  | NoEntry, None => (Ok tt, set_sock_entry (SocketFile false) (record_event EvBind w))
  | NoEntry, Some e => (Raise (Exception e), record_event EvBind w)
  | _, _ => (Raise (Exception OSError), record_event EvBind w)
  end.

Definition os_chmod (mode : Z) : prog unit := call (EvChmod mode) chmod_raises.

Definition sock_listen (backlog : Z) : prog unit :=
  event_ (EvListen backlog);;
  modify (fun w => match sock_entry w with
                   | SocketFile _ => set_sock_entry (SocketFile true) w
                   | _ => w
                   end).

(** UNIX socket server: single-line note name per connection. *)
Definition _socket_server (incoming : list accept_outcome) : prog unit :=
  _ensure_singleton_sock_or_exit;;
  try_catch
    (_abort_if_sock_symlink;;       (* double-check just before bind *)
     sock_bind;;
     os_chmod 384)            (* 0o600: owner-only *)
    (fun e =>
       _error (MsgBindFailed e);;
       sys_exit 1);;
  sock_listen 8;;
  accept_loop incoming.

(** *** Selection error (detailed) *)

Definition _exit_with_selection_error {A} (matched_disps all_disps : list pystr)
  (check_mode : bool) : prog A :=
  (if bool_decide (length matched_disps = 0%nat) then _error MsgNoMatch
   else
     _error (MsgAmbiguous (length matched_disps));;
     _info MsgMatchedHeader;;
     for_each matched_disps (fun m => _info (MsgMatched m)));;
  _info MsgHint;;
  _info MsgAvailableHeader;;
  for_each_i 0 all_disps (fun i p => _info (MsgAvailable i p));;
  sys_exit 2.

(** *** Main *)

(** [argv] is [sys.argv] and [cfg] what [_load_config()] returns. *)
Definition main (argv : list pystr) (cfg : pyval) : prog unit :=
  (* Utility: list healed port names then exit *)
  (if bool_decide (lit "--list" ∈ argv) then
     ports ← _list_ports;
     for_each ports (fun p => print (MsgPort (_port_display p)));;
     sys_exit 0
   else mret tt);;
  let check_mode := bool_decide (lit "--check" ∈ argv) in
  (* Early singleton guard (skip for utility modes) *)
  (if negb check_mode then _ensure_singleton_sock_or_exit else mret tt);;
  ports ← _list_ports;
  res ← lift (_resolve_port ports cfg);
  let '(port_name, matched_disps, all_disps) := res in
  match port_name with
  | None => _exit_with_selection_error matched_disps all_disps check_mode
  | Some port_name =>
    (* Set channel & status bytes *)
    ch ← lift (_channel_from_config cfg);
    modify (set_STATUS (0x90 + (ch - 1)) (0x80 + (ch - 1)));;
    if check_mode then
      print (MsgCheckOk (_port_display port_name) ch);;
      sys_exit 0
    else
      (* Open MIDI OUT now (fail early) *)
      ok ← _open_midi_out port_name;
      if negb ok then
        _error (MsgOpenFailed (_port_display port_name));;
        sys_exit 1
      else
        (* Start socket server, run menubar app *)
        event_ EvStartServerThread;;
        event_ EvRunApp
  end.

End Server.

(** ** The menu bar application: Quit *)

Section Quit.
Context {Sur : Surroundings}.

(** [MIDISockApp._quit], up to its last statement: [rumps.quit_application()]
    then ends the process and changes nothing of the world. *)
Definition _quit : prog unit :=
  try_catch
    (w ← get_world;
     if os_path_exists (sock_entry w) then os_remove else mret tt)
    (fun _ => mret tt);;
  _close_midi_out.

End Quit.

(** ** The client, [send_note.py] *)

(** [s.encode("utf-8", "strict")] of one character: a surrogate has no
    encoding. *)
Definition utf8_encode_char (c : Z) : option pybytes :=
  if c <? 0 then None
  else if c <? 0x80 then Some [c]
  else if c <? 0x800 then
    Some [Z.lor 0xC0 (Z.shiftr c 6); Z.lor 0x80 (Z.land c 0x3F)]
  else if c <? 0x10000 then
    if (0xD800 <=? c) && (c <=? 0xDFFF) then None
    else Some [Z.lor 0xE0 (Z.shiftr c 12);
               Z.lor 0x80 (Z.land (Z.shiftr c 6) 0x3F);
               Z.lor 0x80 (Z.land c 0x3F)]
  else if c <? 0x110000 then
    Some [Z.lor 0xF0 (Z.shiftr c 18);
          Z.lor 0x80 (Z.land (Z.shiftr c 12) 0x3F);
          Z.lor 0x80 (Z.land (Z.shiftr c 6) 0x3F);
          Z.lor 0x80 (Z.land c 0x3F)]
  else None.

(** [s.encode("utf-8", "strict")]; [None] when it raises. *)
Fixpoint utf8_encode (s : pystr) : option pybytes :=
  match s with
  | [] => Some []
  | c :: s' =>
    match utf8_encode_char c, utf8_encode s' with
    | Some b, Some bs => Some (b ++ bs)
    | _, _ => None
    end
  end.

Module send_note.

(** What the client's socket calls will do.  Setting a timeout on the
    socket just created does not fail, and STDOUT takes what is printed. *)
Record surroundings := {
  socket_raises : option exception;            (* socket.socket(...) *)
  connect_raises : option exception;           (* s.connect(SOCK_PATH) *)
  sendall_raises : pybytes -> option exception;  (* s.sendall(payload) *)
  shutdown_raises : option exception;          (* s.shutdown(SHUT_WR) *)
  reply : recv_outcome                         (* s.recv(256) *)
}.

(** The line the client prints on STDOUT. *)
Inductive line :=
| Usage                              (* ERR: usage: send_note.py "C#4" *)
| ConnectFailed (e : exception)      (* ERR: connect failed (<class>) *)
| EncodeFailed                       (* ERR: send failed (UnicodeEncodeError) *)
| SendFailed (e : exception)         (* ERR: send failed (<class>) *)
| RecvFailed (e : exception)         (* ERR: recv failed (<class>) *)
| Sent                               (* SENT *)
| OK                                 (* OK *)
| Reply (text : pystr)               (* the server's line, as it is *)
| Traceback (e : exception).         (* nothing: an uncaught exception, its
                                        traceback goes to STDERR *)

(** A run of the client: what it handed to [sendall], if it got there, the
    line it printed, and its exit status. *)
Record run := {
  payload : option pybytes;
  printed : line;
  status : Z
}.

Section Client.
(** [str.lower] *)
Context (lower : pystr -> pystr).

(** What the client makes of the bytes it read. *)
Definition read_reply (sent : option pybytes) (data : pybytes) : run :=
  let text := strip (default [] (utf8_decode Ignore data)) in
  if bool_decide (text = []) then
    (* No content: behave like no-ACK *)
    {| payload := sent; printed := Sent; status := 0 |}
  else
    let low := lower text in
    if starts_with (lit "ok") low then
      {| payload := sent; printed := OK; status := 0 |}
    else if starts_with (lit "err") low then
      (* Pass through server error message *)
      {| payload := sent; printed := Reply text; status := 5 |}
    else
      (* Unknown reply: surface as-is but succeed *)
      {| payload := sent; printed := Reply text; status := 0 |}.

(** [argv] is [sys.argv]. *)
Definition main (argv : list pystr) (env : surroundings) : run :=
  match argv with
  | [] | [_] => {| payload := None; printed := Usage; status := 1 |}
  | _ :: note :: _ =>
    (* Create and connect *)
    match socket_raises env with
    | Some e => {| payload := None; printed := Traceback e; status := 1 |}
    | None =>
      match connect_raises env with
      | Some e => {| payload := None; printed := ConnectFailed e; status := 2 |}
      | None =>
        (* Send note (one line) and half-close write side; encoding comes
           first and may raise, a failure of [shutdown] is passed over *)
        match utf8_encode (note ++ [10]) with
        | None => {| payload := None; printed := EncodeFailed; status := 3 |}
        | Some bytes =>
          match sendall_raises env bytes with
          | Some e =>
            {| payload := Some bytes; printed := SendFailed e; status := 3 |}
          | None =>
            (* Try to read one-line reply (OK/ERR) *)
            match reply env with
            | RecvRaises SocketTimeout =>
              (* No ACK from server: treat as best-effort success *)
              {| payload := Some bytes; printed := Sent; status := 0 |}
            | RecvRaises e =>
              {| payload := Some bytes; printed := RecvFailed e; status := 4 |}
            | RecvData data => read_reply (Some bytes) data
            end
          end
        end
      end
    end
  end.

End Client.

End send_note.

(** ** A small runtime and quiet surroundings, for concrete runs

    [ascii_runtime] agrees with CPython on ASCII text: NFKC leaves it
    unchanged and case folding lowers A-Z.  Its patterns are the literal
    ones with an optional leading [^]; it rejects every other pattern, so a
    run with it says nothing about those.  [str()] is given for [None],
    [bool] and [int] only, [int()] for an optionally signed run of ASCII
    digits. *)

Definition ascii_lower (c : Z) : Z :=
  if (65 <=? c) && (c <=? 90) then c + 32 else c.

Definition is_regex_special (c : Z) : bool :=
  existsb (Z.eqb c) (lit "\.[](){}*+?|^$").

Definition ascii_compile (p : pystr) : option (bool * pystr) :=
  let '(anchored, body) :=
    match p with
    | 94 :: p' => (true, p')
    | _ => (false, p)
    end in
  if existsb is_regex_special body then None
  else Some (anchored, List.map ascii_lower body).

Definition ascii_search (rx : bool * pystr) (s : pystr) : bool :=
  let s' := List.map ascii_lower s in
  if rx.1 then starts_with rx.2 s' else str_in rx.2 s'.

Definition ascii_str_of (v : pyval) : pystr :=
  match v with
  | PyNone => lit "None"
  | PyBool true => lit "True"
  | PyBool false => lit "False"
  | PyInt n => str_of_int n
  | PyStr s => s
  | _ => lit "?"
  end.

Fixpoint digits_value (acc : Z) (s : pystr) : option Z :=
  match s with
  | [] => Some acc
  | c :: s' =>
    if (48 <=? c) && (c <=? 57) then digits_value (10 * acc + (c - 48)) s'
    else None
  end.

Definition ascii_int_of_str (s : pystr) : option Z :=
  match strip s with
  | [] => None
  | 45 :: (_ :: _) as ds => Z.opp <$> digits_value 0 (tail ds)
  | 43 :: (_ :: _) as ds => digits_value 0 (tail ds)
  | ds => digits_value 0 ds
  end.

Definition ascii_runtime : PyRuntime := {|
  nfkc := fun s => s;
  casefold := List.map ascii_lower;
  regex := bool * pystr;
  re_compile_ignorecase := ascii_compile;
  re_search := ascii_search;
  str_of := ascii_str_of;
  int_of_str := ascii_int_of_str
|}.

(** Surroundings in which no call fails and the MIDI system offers [ports]. *)
Definition quiet (ports : list pystr) : Surroundings := {|
  midiout_raises := fun _ => None;
  list_ports := fun _ => inr ports;
  open_port_raises := fun _ _ => None;
  send_raises := fun _ _ => None;
  close_port_raises := fun _ => None;
  remove_raises := fun _ => None;
  bind_raises := fun _ => None;
  chmod_raises := fun _ => None
|}.

(** Surroundings whose MIDI output fails on every send. *)
Definition broken_output : Surroundings := {|
  midiout_raises := fun _ => None;
  list_ports := fun _ => inr [];
  open_port_raises := fun _ _ => None;
  send_raises := fun _ _ => Some RtMidiError;
  close_port_raises := fun _ => None;
  remove_raises := fun _ => None;
  bind_raises := fun _ => None;
  chmod_raises := fun _ => None
|}.

(** A process whose STDERR takes every line.  Wherever a statement below
    names no other [Stderr], it is about such a process. *)
#[global] Instance usable_stderr : Stderr :=
  {| stderr_raises := fun _ _ _ => None |}.

(** A process whose STDERR is gone: the stream and [os.write] both fail. *)
Definition broken_stderr : Stderr :=
  {| stderr_raises := fun _ _ _ => Some OSError |}.

(** Every log line can be written. *)
Definition stderr_usable (Err : Stderr) : Prop :=
  forall t l m, @stderr_raises Err t l m = None.

(** ** Healing, by the words of the specification *)

(** The characters of the mojibake-hint set. *)
Definition hint_chars : list Z :=
  [0xC2; 0xC3; 0xC4; 0xC5; 0xE6; 0xF0; 0xF8; 0xFE; 0xFFFD; 0x201E; 0xC9;
   0xEA; 0xC7; 0x3C0].

(** A name is suspect if it contains a character of the hint set. *)
Definition suspect (s : pystr) : bool :=
  existsb (fun c => bool_decide (c ∈ hint_chars)) s.

(** Re-encode under one legacy encoding and re-decode as UTF-8: a candidate
    when both succeed and the outcome differs from the input. *)
Definition candidate (s : pystr) (enc : legacy_enc) : option pystr :=
  b ← encode enc s;
  c ← utf8_decode Strict b;
  if bool_decide (c = s) then None else Some c.

(** Deduplication that keeps the first occurrence of each element. *)
Fixpoint first_seen (l : list pystr) : list pystr :=
  match l with
  | [] => []
  | x :: l' =>
    x :: List.filter (fun y => negb (bool_decide (y = x))) (first_seen l')
  end.

Definition candidates (s : pystr) : list pystr :=
  first_seen (omap (candidate s) [Cp1252; MacRoman; Latin1]).

(** Prefer the first candidate with a Hiragana/Katakana or CJK character,
    otherwise the first candidate, otherwise the original. *)
Definition healed (s : pystr) : pystr :=
  if suspect s then
    match List.find (existsb is_kana_or_cjk) (candidates s) with
    | Some c => c
    | None => hd s (candidates s)
    end
  else s.

(** ** Resolution, by the words of the specification *)

(** A filter of the specification: absent, a literal, or a regex. *)
Inductive filter_spec :=
| NoFilter
| Literal (value : pystr)
| Regex (value : pystr).

Section Resolution.
Context {R : PyRuntime}.

(** The [midi] mapping of a configuration tree, the empty one when the
    entry is absent or falsy; [None] when the tree is not a mapping or its
    [midi] entry is something else. *)
Definition midi_section (cfg : pyval) : option (list (pyval * pyval)) :=
  match cfg with
  | PyDict d =>
    match dict_lookup (lit "midi") d with
    | None => Some []
    | Some (PyDict md) => Some md
    | Some m => if truthy m then None else Some []
    end
  | _ => None
  end.

(** The [device] or [port] section of the [midi] mapping. *)
Definition sub_section (k : string) (md : list (pyval * pyval)) : pyval :=
  py_or (default PyNone (dict_lookup (lit k) md)) (PyDict []).

(** The entry of a section when it is there and truthy. *)
Definition setting (k : string) (sec : pyval) : option pyval :=
  match sec with
  | PyDict d =>
    match dict_lookup (lit k) d with
    | Some v => if truthy v then Some v else None
    | None => None
    end
  | _ => None
  end.

(** The filter a section asks for. *)
Definition section_filter (sec : pyval) : filter_spec :=
  match setting "name" sec, setting "regex" sec with
  | Some v, _ => Literal (py_str v)
  | None, Some v => Regex (py_str v)
  | None, None => NoFilter
  end.

Definition apply_filter (f : filter_spec) (recs : list port_record)
  : result (list port_record) :=
  match f with
  | NoFilter => Ok recs
  | Literal v => Ok (_filter_by_name recs v)
  | Regex v => _filter_by_regex recs v
  end.

(** The device filter, then the port filter, on the records of [ports]. *)
Definition select (ports : list pystr) (md : list (pyval * pyval))
  : result (list port_record) :=
  r1 ← apply_filter (section_filter (sub_section "device" md))
                    (List.map _record_for_port ports);
  apply_filter (section_filter (sub_section "port" md)) r1.

(** What resolution reports for the records that remain: success exactly
    when there is one. *)
Definition outcome_of (matched : list port_record) (all_disps : list pystr)
  : resolution :=
  match matched with
  | [r] => (Some (orig r), [disp r], all_disps)
  | _ => (None, List.map disp matched, all_disps)
  end.

(** The [if]/[elif] block [_resolve_port] runs at each of the two levels. *)
Definition level_filter (sec : pyval) (recs2 : list port_record)
  : result (list port_record) :=
  if isinstance_dict sec then
    nm ← py_get sec (lit "name") PyNone;
    if truthy nm then
      v ← py_getitem sec (lit "name");
      Ok (_filter_by_name recs2 (py_str v))
    else
      rg ← py_get sec (lit "regex") PyNone;
      if truthy rg then
        v ← py_getitem sec (lit "regex");
        _filter_by_regex recs2 (py_str v)
      else Ok recs2
  else Ok recs2.

(** The invariant of a record: its normalized forms hold that of [orig]. *)
Definition record_ok (r : port_record) : Prop := _norm (orig r) ∈ nrms r.

End Resolution.

(** ** Notions the statements use *)

(** The value configured as [midi.channel], when there is one. *)
Definition configured_channel (d : list (pyval * pyval)) : option pyval :=
  match dict_lookup (lit "midi") d with
  | Some (PyDict md) => dict_lookup (lit "channel") md
  | _ => None
  end.

(** The clamp to the inclusive range [1, 16]. *)
Definition clamp_channel (n : Z) : Z := Z.max 1 (Z.min 16 n).

(** The integer part, toward zero, of the finite float
    [(-1)^s * m * 2^e]. *)
Definition truncated (s : bool) (m : positive) (e : Z) : Z :=
  let mag := if 0 <=? e then Z.pos m * 2 ^ e else Z.pos m / 2 ^ (- e) in
  if s then - mag else mag.

(** The channel a configured value stands for: an integer, a finite float
    cut to its integer part and a string that is an integer numeral are
    clamped; everything else ([None], a truth value, NaN, an infinity, a
    list, a mapping, any other string) gives the default 1. *)
Definition channel_of_value {R : PyRuntime} (v : pyval) : Z :=
  match v with
  | PyInt n => clamp_channel n
  | PyFloat (S754_finite s m e) => clamp_channel (truncated s m e)
  | PyStr s =>
    match int_of_str s with
    | Some n => clamp_channel n
    | None => 1
    end
  | _ => 1
  end.

(** [midi: {channel: .inf}], [midi: {channel: 5.5}] and a tree that is a
    list. *)
Definition channel_inf_cfg : pyval :=
  PyDict [(PyStr (lit "midi"),
           PyDict [(PyStr (lit "channel"), PyFloat (S754_infinity false))])].
Definition channel_5_5_cfg : pyval :=
  PyDict [(PyStr (lit "midi"),
           PyDict [(PyStr (lit "channel"),
                    PyFloat (S754_finite false 6192449487634432 (-50)))])].
Definition list_cfg : pyval := PyList [PyStr (lit "midi")].

(** *** Events by kind, and the worlds the statements name *)

(** Whether an event is a message handed to the MIDI output. *)
Definition is_send (e : event) : bool :=
  match e with
  | EvSend _ => true
  | _ => false
  end.

(** The on and off messages of note [n] in world [w]. *)
Definition note_on (w : world) (n : Z) : list Z := [_STATUS_ON w; n; 127].
Definition note_off (w : world) (n : Z) : list Z := [_STATUS_OFF w; n; 0].

(** The trace when the on message has gone out and the hold is over. *)
Definition after_on (w : world) (n : Z) : list event :=
  trace w ++ [EvSend (note_on w n); EvSleep 50].

(** A call of [accept]. *)
Definition is_accept (e : event) : bool :=
  match e with
  | EvAccept => true
  | _ => false
  end.

(** The closing of an accepted connection. *)
Definition is_close_conn (e : event) : bool :=
  match e with
  | EvCloseConn => true
  | _ => false
  end.


(** An accept that handed out a connection. *)
Definition is_accepted (a : accept_outcome) : bool :=
  match a with
  | Accepted _ => true
  | AcceptRaises _ => false
  end.

(** What happens inside the handling of one connection: neither an accept
    nor the closing of the connection. *)
Definition in_conn (e : event) : bool := negb (is_accept e) && negb (is_close_conn e).

(** The world after the [settimeout] block of a connection. *)
Definition after_settimeout (conn : connection) (w : world) : world :=
  match settimeout_raises conn with
  | None => record_event (EvSetTimeout 1000) w
  | Some se =>
    if _DEBUG w then
      record_event (EvLog DEBUG (MsgSetTimeoutFailed (settimeout_exception se)))
                   (record_event (EvSetTimeout 1000) w)
    else record_event (EvSetTimeout 1000) w
  end.

(** The world when [recv] has been called. *)
Definition after_recv (conn : connection) (w : world) : world :=
  record_event (EvRecv 1024) (after_settimeout conn w).

(** The token of a payload: [None] when the connection dispatches nothing. *)
Definition token_of (data : pybytes) : option pystr :=
  match utf8_decode Ignore data with
  | None => None
  | Some decoded =>
    match re_split_commas_spaces (strip decoded) with
    | [] => None
    | token :: _ => if bool_decide (token = []) then None else Some token
    end
  end.

(** The number of events of a kind. *)
Definition count (p : event -> bool) (evs : list event) : nat :=
  length (List.filter p evs).

(** The world after the handler of a failed send: warning logged, port
    closed, handle cleared. *)
Definition torn_down (note_name : pystr) (e : exception) (w : world) : world :=
  set_MIDIOUT None
    (record_event EvClosePort
       (record_event (EvLog WARN (MsgSendFailed note_name e)) w)).

Section Stale.
Context {Sur : Surroundings}.

(** The world after a stale entry was found: probed, removal attempted. *)
Definition after_stale (w : world) : world :=
  match remove_raises (trace w ++ [EvProbe]) with
  | None => set_sock_entry NoEntry (record_event EvRemove (record_event EvProbe w))
  | Some _ => record_event EvRemove (record_event EvProbe w)
  end.

End Stale.

(** *** Concrete inputs *)

(** A configuration whose [midi] entry is a string, not a mapping. *)
Definition scalar_midi_cfg : pyval :=
  PyDict [(PyStr (lit "midi"), PyStr (lit "IAC"))].

(** The catalog of scenarios 1 and 3. *)
Definition two_loops : list pystr := [lit "Loop A"; lit "Loop B"].

(** [midi: {port: {name: "loop a", regex: "("}}] *)
Definition port_name_cfg : pyval :=
  PyDict [(PyStr (lit "midi"),
           PyDict [(PyStr (lit "port"),
                    PyDict [(PyStr (lit "name"), PyStr (lit "loop a"));
                            (PyStr (lit "regex"), PyStr (lit "("))])])].

(** Its [midi] mapping. *)
Definition port_name_midi : list (pyval * pyval) :=
  [(PyStr (lit "port"),
    PyDict [(PyStr (lit "name"), PyStr (lit "loop a"));
            (PyStr (lit "regex"), PyStr (lit "("))])].

(** [midi: {port: {name: "Loop A"}, channel: 3}] *)
Definition channel3_cfg : pyval :=
  PyDict [(PyStr (lit "midi"),
           PyDict [(PyStr (lit "port"),
                    PyDict [(PyStr (lit "name"), PyStr (lit "Loop A"))]);
                   (PyStr (lit "channel"), PyInt 3)])].

(** The world when startup is over, in quiet surroundings. *)
Definition started_world : world :=
  {| _MIDIOUT := Some {| port_index := 0 |};
     _STATUS_ON := 0x92; _STATUS_OFF := 0x82; _DEBUG := false;
     sock_entry := NoEntry;
     trace := [EvOpenPort 0; EvStartServerThread; EvRunApp] |}.

(** A world whose entry at [SOCK_PATH] is a symbolic link to a live socket. *)
Definition symlink_world : world := initial_world false (Symlink true).

(** A client that sends [",C4\n"]: nothing is dispatched, though ["C4"] is
    a note. *)
Definition comma_conn : connection :=
  {| settimeout_raises := None; recv := RecvData [44; 67; 52; 10] |}.

(** ** Notions for the rest of the program *)

Section FilterTest.
Context {R : PyRuntime}.

(** The test a filter applies to a record, when its pattern compiles. *)
Definition filter_test (f : filter_spec) : result (port_record -> bool) :=
  match f with
  | NoFilter => Ok (fun _ => true)
  | Literal v =>
    Ok (fun r => bool_decide (v = []) ||
                 set_any (fun n => str_in (_norm v) n) (nrms r))
  | Regex v =>
    if bool_decide (v = []) then Ok (fun _ => true)
    else rx ← _compile_regex v;
         Ok (fun r => set_any (fun n => re_search rx n) (nrms r))
  end.

End FilterTest.

(** [midi: {device: {name: "loop"}, port: {name: "a"}}], and the same with
    the two sections exchanged. *)
Definition device_port_cfg : pyval :=
  PyDict [(PyStr (lit "midi"),
           PyDict [(PyStr (lit "device"),
                    PyDict [(PyStr (lit "name"), PyStr (lit "loop"))]);
                   (PyStr (lit "port"),
                    PyDict [(PyStr (lit "name"), PyStr (lit "a"))])])].

Definition port_device_cfg : pyval :=
  PyDict [(PyStr (lit "midi"),
           PyDict [(PyStr (lit "device"),
                    PyDict [(PyStr (lit "name"), PyStr (lit "a"))]);
                   (PyStr (lit "port"),
                    PyDict [(PyStr (lit "name"), PyStr (lit "loop"))])])].

(** A note-on or note-off message with the status bytes [on] and [off]. *)
Definition note_message (on off : Z) (msg : list Z) : Prop :=
  exists n, 0 <= n < 128 /\ (msg = [on; n; 127] \/ msg = [off; n; 0]).

(** What a step leaves of a world and adds to its trace: the status bytes
    stay, at most [k] messages go out, each a note message. *)
Definition sends_within (k : nat) (w w' : world) : Prop :=
  _STATUS_ON w' = _STATUS_ON w /\ _STATUS_OFF w' = _STATUS_OFF w /\
  exists evs, trace w' = trace w ++ evs /\
    (count is_send evs <= k)%nat /\
    forall msg, In (EvSend msg) evs ->
      note_message (_STATUS_ON w) (_STATUS_OFF w) msg.

(** The world when [_open_midi_out] has opened port [idx]. *)
Definition opened (idx : nat) (w : world) : world :=
  let w1 := set_MIDIOUT (Some {| port_index := idx |})
                        (record_event (EvOpenPort idx) w) in
  if _DEBUG w then record_event (EvLog DEBUG (MsgOpened idx)) w1 else w1.

(** The world after its [except] block. *)
Definition open_aborted (m_assigned : bool) (e : exception) (w : world) : world :=
  let w1 := record_event (EvLog ERROR (MsgOpenException e)) w in
  set_MIDIOUT None (if m_assigned then record_event EvClosePort w1 else w1).

(** The world when the server has bound, restricted and opened its socket. *)
Definition listening (w : world) : world :=
  set_sock_entry (SocketFile true)
    (record_event (EvListen 8)
       (record_event (EvChmod 384)
          (set_sock_entry (SocketFile false) (record_event EvBind w)))).

(** The world when binding failed with [e]. *)
Definition bind_failed (e : exception) (w : world) : world :=
  record_event (EvLog ERROR (MsgBindFailed e)) w.

Section Removal.
Context {Sur : Surroundings}.

(** The world after [os.remove] was tried on the socket path. *)
Definition removal_tried (w : world) : world :=
  match remove_raises (trace w) with
  | None => set_sock_entry NoEntry (record_event EvRemove w)
  | Some _ => record_event EvRemove w
  end.

End Removal.

(** The world after [_close_midi_out]. *)
Definition closed (w : world) : world :=
  match _MIDIOUT w with
  | Some _ => set_MIDIOUT None (record_event EvClosePort w)
  | None => w
  end.

(** The client got through sending: it had an argument, whose line it
    encoded as [bytes], a socket and a connection, and [sendall] took the
    bytes. *)
Definition delivered (argv : list pystr) (env : send_note.surroundings)
    (bytes : pybytes) : Prop :=
  (exists note, argv !! 1%nat = Some note /\
                utf8_encode (note ++ [10]) = Some bytes) /\
  send_note.socket_raises env = None /\
  send_note.connect_raises env = None /\
  send_note.sendall_raises env bytes = None.

(** The reply as the client reads it. *)
Definition reply_text (data : pybytes) : pystr :=
  strip (default [] (utf8_decode Ignore data)).

(** Client surroundings in which every call succeeds and the server sends
    no reply. *)
Definition answering : send_note.surroundings :=
  {| send_note.socket_raises := None;
     send_note.connect_raises := None;
     send_note.sendall_raises := fun _ => None;
     send_note.shutdown_raises := None;
     send_note.reply := RecvRaises SocketTimeout |}.

(** The world after a run of events. *)
Definition record_events (evs : list event) (w : world) : world :=
  foldl (fun w e => record_event e w) w evs.

(** What goes to STDOUT or STDERR. *)
Definition is_output (e : event) : bool :=
  match e with
  | EvLog _ _ | EvPrint _ => true
  | _ => false
  end.

(** The lines of [_exit_with_selection_error]. *)
Definition selection_error_lines (matched_disps all_disps : list pystr)
  : list event :=
  (if bool_decide (length matched_disps = 0%nat) then [EvLog ERROR MsgNoMatch]
   else EvLog ERROR (MsgAmbiguous (length matched_disps))
        :: EvLog INFO MsgMatchedHeader
        :: List.map (fun m => EvLog INFO (MsgMatched m)) matched_disps)
  ++ EvLog INFO MsgHint :: EvLog INFO MsgAvailableHeader
  :: imap (fun i p => EvLog INFO (MsgAvailable i p)) all_disps.

(** ** Decoding with [errors="ignore"] never fails *)

Lemma emit_some (cp : Z) (k : option pystr) : is_Some k -> is_Some (emit cp k).
Proof. intros [s ->]. eexists. reflexivity. Qed.

Lemma on_error_ignore_some (k : option pystr) :
  is_Some k -> is_Some (on_error Ignore k).
Proof. auto. Qed.

Lemma utf8_decode_ignore_upto (n : nat) (bs : pybytes) :
  (length bs <= n)%nat -> is_Some (utf8_decode Ignore bs).
Proof.
  revert bs. induction n as [|n IH]; intros bs Hlen.
  - destruct bs; [eexists; reflexivity|simpl in Hlen; lia].
  - destruct bs as [|b0 r0]; [eexists; reflexivity|].
    simpl in Hlen.
    assert (Ht : is_Some (on_truncated Ignore)) by (eexists; reflexivity).
    assert (Hsub : forall r, (length r <= length r0)%nat ->
                     is_Some (utf8_decode Ignore r)) by (intros; apply IH; lia).
    cbn [utf8_decode].
    repeat match goal with
      | |- is_Some (emit _ _) => apply emit_some
      | |- is_Some (on_error Ignore _) => apply on_error_ignore_some
      | |- is_Some (on_truncated Ignore) => exact Ht
      | |- is_Some (utf8_decode Ignore _) => apply Hsub; subst; simpl; lia
      | |- is_Some (if ?c then _ else _) => destruct c
      | |- is_Some (match ?l with [] => _ | _ :: _ => _ end) =>
        let E := fresh "E" in destruct l eqn:E
      end.
Qed.

Lemma utf8_decode_ignore_total (bs : pybytes) : is_Some (utf8_decode Ignore bs).
Proof. apply (utf8_decode_ignore_upto (length bs)). lia. Qed.

(** ** Facts on Python objects *)

Lemma py_get_dict (d : list (pyval * pyval)) (k : pystr) (dflt : pyval) :
  py_get (PyDict d) k dflt = Ok (default dflt (dict_lookup k d)).
Proof. reflexivity. Qed.

Lemma py_get_not_dict (v : pyval) (k : pystr) (dflt : pyval) :
  (forall d, v <> PyDict d) -> py_get v k dflt = Raise AttributeError.
Proof. destruct v; try reflexivity. intros H. destruct (H d eq_refl). Qed.

Lemma py_or_dict (md : list (pyval * pyval)) :
  py_or (PyDict md) (PyDict []) = PyDict md.
Proof. destruct md; reflexivity. Qed.

(** [m or {}] is [m] when [m] is a mapping, [m] again when it is another
    truthy object, and the empty mapping otherwise. *)
Lemma or_empty_dict (m : pyval) :
  (exists md, m = PyDict md /\ py_or m (PyDict []) = PyDict md) \/
  ((forall md, m <> PyDict md) /\
   (py_or m (PyDict []) = m \/ py_or m (PyDict []) = PyDict [])).
Proof.
  destruct m as [|b|n|x|s|l|md];
    try (right; split; [discriminate|]; unfold py_or;
         destruct (truthy _); auto; fail).
  left. exists md. split; [reflexivity|apply py_or_dict].
Qed.

(** ** Channel *)

Section ChannelFacts.
Context {R : PyRuntime}.

Lemma py_int_raises (v : pyval) (e : exn) :
  py_int v = Raise e -> exists x : exception, e = Exception x.
Proof.
  destruct v as [| | |x|s| |]; simpl; try (inversion 1; eauto; fail).
  - destruct x; simpl; inversion 1; eauto.
  - destruct (int_of_str s); inversion 1; eauto.
Qed.

Lemma channel_of_midi (d : list (pyval * pyval)) :
  _channel_from_config (PyDict d) =
  match configured_channel d with
  | None => Ok 1
  | Some v =>
    match py_int v with
    | Ok n => Ok (if n <? 1 then 1 else if n >? 16 then 16 else n)
    | Raise _ => Ok 1
    end
  end.
Proof.
  unfold _channel_from_config, configured_channel.
  rewrite py_get_dict. cbn [mbind result_bind].
  destruct (dict_lookup (lit "midi") d) as [m|]; cbn [default from_option id].
  - destruct (or_empty_dict m) as [[md [-> ->]] | [Hm [-> | ->]]].
    + rewrite py_get_dict.
      destruct (dict_lookup (lit "channel") md) as [v|]; cbn [default from_option id mbind result_bind]; [|reflexivity].
      destruct (py_int v) as [n|e] eqn:E; cbn; [reflexivity|].
      destruct (py_int_raises _ _ E) as [x ->]. reflexivity.
    + rewrite py_get_not_dict by exact Hm.
      destruct m; try reflexivity. destruct (Hm _ eq_refl).
    + destruct m; try reflexivity. destruct (Hm _ eq_refl).
  - reflexivity.
Qed.


Lemma clamp_channel_code (n : Z) :
  (if n <? 1 then 1 else if n >? 16 then 16 else n) = clamp_channel n.
Proof.
  unfold clamp_channel.
  destruct (Z.ltb_spec n 1); [lia|]. destruct (Z.gtb_spec n 16); lia.
Qed.

Lemma int_of_float_finite (s : bool) (m : positive) (e : Z) :
  int_of_float (S754_finite s m e) = Ok (truncated s m e).
Proof.
  unfold int_of_float, truncated. cbv zeta.
  assert (H : Z.shiftl (Z.pos m) e =
              if 0 <=? e then Z.pos m * 2 ^ e else Z.pos m / 2 ^ (- e)).
  { destruct (Z.leb_spec 0 e).
    - apply Z.shiftl_mul_pow2. assumption.
    - apply Z.shiftl_div_pow2. lia. }
  rewrite H. reflexivity.
Qed.

(** C8. For a configuration tree that is a mapping, the resolved channel is
    an integer of [1, 16]: it is 1 when no channel is configured; an
    integer, the integer part of a finite float and the number a numeral
    string denotes are clamped to the range; every other value gives the
    default 1.  A tree that is not a mapping raises [AttributeError]. *)
Theorem channel_from_config_clamped (cfg : pyval) :
  match cfg with
  | PyDict d =>
    exists ch : Z,
      _channel_from_config cfg = Ok ch /\
      1 <= ch <= 16 /\
      ch = match configured_channel d with
           | None => 1
           | Some v => channel_of_value v
           end
  | _ => _channel_from_config cfg = Raise (Exception AttributeError)
  end.
Proof.
  destruct cfg as [|b|n|x|s|l|d]; try reflexivity.
  rewrite channel_of_midi.
  destruct (configured_channel d) as [v|];
    [|exists 1; split; [reflexivity|split; [lia|reflexivity]]].
  assert (Hone : exists ch : Z, Ok 1 = Ok ch /\ 1 <= ch <= 16 /\ ch = 1)
    by (exists 1; split; [reflexivity|split; [lia|reflexivity]]).
  assert (Hclamp : forall n : Z,
            exists ch : Z,
              Ok (if n <? 1 then 1 else if n >? 16 then 16 else n) = Ok ch /\
              1 <= ch <= 16 /\ ch = clamp_channel n).
  { intros n. rewrite clamp_channel_code. eexists. split; [reflexivity|].
    unfold clamp_channel. split; [lia|reflexivity]. }
  destruct v as [|b|n|x|s|l|d']; cbn [py_int channel_of_value];
    try exact Hone; try apply Hclamp.
  - destruct b; exact Hone.
  - destruct x as [sg|sg| |sg m e]; try exact Hone.
    rewrite int_of_float_finite. apply Hclamp.
  - destruct (int_of_str s); [apply Hclamp|exact Hone].
Qed.

(** The claim as worded fails on these trees: an infinity is a number above
    16 and gives 1, 5.5 lies within the range and gives 5, and a tree that
    is not a mapping gives no channel at all. *)
Lemma channel_not_as_given :
  @_channel_from_config ascii_runtime channel_inf_cfg = Ok 1 /\
  @_channel_from_config ascii_runtime channel_5_5_cfg = Ok 5 /\
  @_channel_from_config ascii_runtime list_cfg = Raise (Exception AttributeError).
Proof. repeat split; vm_compute; reflexivity. Qed.

End ChannelFacts.

(** ** Healing *)

Lemma str_in_singleton (c : Z) (s : pystr) : str_in [c] s = true <-> c ∈ s.
Proof.
  induction s as [|y s IH]; simpl.
  - split; [discriminate|]. intros H. inversion H.
  - rewrite orb_true_iff, andb_true_r, Z.eqb_eq, IH, elem_of_cons. reflexivity.
Qed.

Lemma set_any_true {A} `{Countable A} (f : A -> bool) (X : gset A) :
  set_any f X = true <-> exists x, x ∈ X /\ f x = true.
Proof.
  unfold set_any. rewrite existsb_exists.
  split; intros [x [Hx Hf]]; exists x; split; auto.
  - apply elem_of_elements, list_elem_of_In, Hx.
  - apply list_elem_of_In, elem_of_elements, Hx.
Qed.

Lemma looks_mojibake_suspect (s : pystr) : _looks_mojibake s = suspect s.
Proof.
  apply eq_true_iff_eq. unfold _looks_mojibake, suspect.
  rewrite set_any_true, existsb_exists. unfold _BAD_HINTS.
  change (list_to_set _) with
    (list_to_set (C:=gset pystr) ((fun c => [c]) <$> hint_chars)).
  split.
  - intros [ch [Hch Hin]]. apply elem_of_list_to_set, list_elem_of_fmap in Hch.
    destruct Hch as [c [-> Hc]]. exists c. split.
    + apply list_elem_of_In, str_in_singleton, Hin.
    + apply bool_decide_eq_true, Hc.
  - intros [c [Hin Hc]]. exists [c]. split.
    + apply elem_of_list_to_set, list_elem_of_fmap. exists c.
      split; [reflexivity|]. apply bool_decide_eq_true in Hc. exact Hc.
    + apply str_in_singleton, list_elem_of_In, Hin.
Qed.

Lemma variants_step_candidate (s : pystr) (out : list pystr) (enc : legacy_enc) :
  variants_step s out enc = out ++ option_list (candidate s enc).
Proof.
  unfold variants_step, candidate.
  destruct (encode enc s) as [b|]; simpl; [|symmetry; apply app_nil_r].
  destruct (utf8_decode Strict b) as [c|]; simpl; [|symmetry; apply app_nil_r].
  rewrite bool_decide_not.
  destruct (bool_decide (c = s)); simpl; [symmetry; apply app_nil_r|reflexivity].
Qed.

Lemma variants_loop (s : pystr) (encs : list legacy_enc) (out : list pystr) :
  foldl (variants_step s) out encs = out ++ omap (candidate s) encs.
Proof.
  revert out. induction encs as [|enc encs IH]; intros out; simpl.
  - symmetry; apply app_nil_r.
  - rewrite IH, variants_step_candidate, <- app_assoc. f_equal.
    destruct (candidate s enc); reflexivity.
Qed.

Lemma filter_filter_comm {A} (f g : A -> bool) (l : list A) :
  List.filter f (List.filter g l) = List.filter g (List.filter f l).
Proof.
  induction l as [|x l IH]; simpl; [reflexivity|].
  destruct (f x) eqn:Ef, (g x) eqn:Eg; simpl; rewrite ?Ef, ?Eg, IH; reflexivity.
Qed.

Lemma filter_absorb {A} (f g : A -> bool) (l : list A) :
  (forall x, f x = true -> g x = true) ->
  List.filter f (List.filter g l) = List.filter f l.
Proof.
  intros Hfg. induction l as [|x l IH]; simpl; [reflexivity|].
  destruct (g x) eqn:Eg; simpl.
  - destruct (f x); rewrite IH; reflexivity.
  - destruct (f x) eqn:Ef; [|exact IH].
    apply Hfg in Ef. congruence.
Qed.

Lemma filter_all {A} (f : A -> bool) (l : list A) :
  (forall x, f x = true) -> List.filter f l = l.
Proof.
  intros Hf. induction l as [|x l IH]; simpl; [reflexivity|].
  rewrite Hf, IH. reflexivity.
Qed.

(** Keeping first occurrences commutes with filtering. *)
Lemma first_seen_filter (f : pystr -> bool) (l : list pystr) :
  first_seen (List.filter f l) = List.filter f (first_seen l).
Proof.
  induction l as [|x l IH]; simpl; [reflexivity|].
  destruct (f x) eqn:Ef; simpl.
  - rewrite IH. f_equal. apply filter_filter_comm.
  - rewrite IH. symmetry. apply filter_absorb.
    intros y Hy. apply negb_true_iff, bool_decide_eq_false. congruence.
Qed.

Lemma dedup_loop (l : list pystr) (seen : gset pystr) (uniq : list pystr) :
  (foldl dedup_step (seen, uniq) l).2 =
  uniq ++ first_seen (List.filter (fun v => bool_decide (v ∉ seen)) l).
Proof.
  revert seen uniq. induction l as [|x l IH]; intros seen uniq; simpl.
  - symmetry; apply app_nil_r.
  - unfold dedup_step at 2. simpl.
    destruct (bool_decide (x ∉ seen)) eqn:Ex; simpl.
    + rewrite IH, <- app_assoc. simpl. do 2 f_equal.
      rewrite <- first_seen_filter. f_equal.
      clear. induction l as [|y l IH]; simpl; [reflexivity|].
      replace (bool_decide (y ∉ {[x]} ∪ seen))
        with (negb (bool_decide (y = x)) && bool_decide (y ∉ seen)).
      { destruct (bool_decide (y ∉ seen)); simpl;
          destruct (negb (bool_decide (y = x))); simpl; rewrite IH; reflexivity. }
      apply eq_true_iff_eq.
      rewrite andb_true_iff, negb_true_iff, bool_decide_eq_false,
        !bool_decide_eq_true.
      rewrite not_elem_of_union, not_elem_of_singleton. reflexivity.
    + apply IH.
Qed.

Lemma variants_candidates (s : pystr) : _variants_from_mojibake s = candidates s.
Proof.
  unfold _variants_from_mojibake, candidates.
  rewrite dedup_loop, variants_loop. cbn [app]. f_equal.
  apply filter_all. intros v. apply bool_decide_eq_true. set_solver.
Qed.

Lemma first_kana_or_cjk_find (fixes : list pystr) :
  first_kana_or_cjk fixes = List.find (existsb is_kana_or_cjk) fixes.
Proof.
  induction fixes as [|f fixes IH]; simpl; [reflexivity|].
  rewrite IH. reflexivity.
Qed.

(** C6. Healing is the identity on every name with no mojibake-hint
    character.  On a suspect name the candidates are the re-decodings under
    cp1252, mac_roman and latin-1, in that order, that succeed and differ
    from the input, each kept once at its first place; the healed name is
    the first candidate with a character of U+3040..U+30FF or
    U+4E00..U+9FFF, otherwise the first candidate, otherwise the name. *)
Theorem port_display_healed (s : pystr) :
  ((forall c, c ∈ s -> c ∉ hint_chars) -> _port_display s = s) /\
  _variants_from_mojibake s =
    first_seen (omap (candidate s) [Cp1252; MacRoman; Latin1]) /\
  _port_display s = healed s.
Proof.
  assert (Hh : _port_display s = healed s).
  { unfold _port_display, healed.
    rewrite looks_mojibake_suspect, variants_candidates, first_kana_or_cjk_find.
    destruct (suspect s); [|reflexivity].
    destruct (List.find _ _); [reflexivity|].
    destruct (candidates s); reflexivity. }
  split; [|split; [apply variants_candidates|exact Hh]].
  intros Hs. rewrite Hh. unfold healed.
  destruct (suspect s) eqn:E; [|reflexivity].
  apply existsb_exists in E. destruct E as [c [Hc Hb]].
  apply bool_decide_eq_true in Hb. apply list_elem_of_In in Hc.
  destruct (Hs c Hc Hb).
Qed.

(** Scenario 2 of the specification: a name whose latin-1 round trip holds
    Katakana is displayed healed; so is one read as cp1252; a suspect name
    with no candidate is displayed as it is. *)
Example port_display_examples :
  _port_display [0xE6; 0x97; 0xA5; 0xE3; 0x82; 0xAB] = [0x65E5; 0x30AB] /\
  _port_display [0xE6; 0x2014; 0xA5; 0xE6; 0x153; 0xAC] = [0x65E5; 0x672C] /\
  _port_display [0xC3] = [0xC3].
Proof. vm_compute. auto. Qed.

(** ** Matching and resolution *)

Section ResolutionFacts.
Context {R : PyRuntime}.

Lemma record_for_port_ok (o : pystr) : record_ok (_record_for_port o).
Proof.
  unfold record_ok, _record_for_port. cbn [orig nrms].
  generalize (if _looks_mojibake o then _variants_from_mojibake o else []).
  intros a.
  assert (G : forall acc : gset pystr, _norm o ∈ acc ->
            _norm o ∈ foldl (fun acc x => {[_norm x]} ∪ acc) acc a).
  { induction a as [|x a IH]; intros acc Hacc; simpl; [exact Hacc|].
    apply IH, elem_of_union_r, Hacc. }
  apply G, elem_of_singleton. reflexivity.
Qed.

(** C7. Literal matching sees the query only through its NFKC-then-casefold
    form: on every record list, two queries with the same normal form select
    the same records.  (The runtime's normalisation maps the empty string,
    and nothing else, to the empty string.) *)
Theorem filter_by_name_norm_invariant
  (Hnorm : forall s : pystr, _norm s = [] <-> s = [])
  (recs : list port_record) (q q' : pystr) :
  _norm q = _norm q' ->
  _filter_by_name recs q = _filter_by_name recs q'.
Proof.
  intros Hq. unfold _filter_by_name.
  destruct (decide (q = [])) as [E|E], (decide (q' = [])) as [E'|E'].
  - rewrite !bool_decide_eq_true_2 by assumption. reflexivity.
  - exfalso. apply E', Hnorm. rewrite <- Hq. apply Hnorm, E.
  - exfalso. apply E, Hnorm. rewrite Hq. apply Hnorm, E'.
  - rewrite !bool_decide_eq_false_2 by assumption. cbv zeta.
    rewrite Hq. reflexivity.
Qed.

Lemma level_filter_spec (sec : pyval) (recs : list port_record) :
  level_filter sec recs = apply_filter (section_filter sec) recs.
Proof.
  unfold level_filter, section_filter, setting.
  destruct sec as [| | | | | |d]; try reflexivity.
  cbn [isinstance_dict]. rewrite !py_get_dict. cbn [mbind result_bind py_getitem].
  destruct (dict_lookup (lit "name") d) as [v|]; cbn [default from_option id].
  - destruct (truthy v) eqn:Tv; [reflexivity|].
    destruct (dict_lookup (lit "regex") d) as [rg|]; cbn [default from_option id].
    + destruct (truthy rg); reflexivity.
    + reflexivity.
  - cbn [truthy].
    destruct (dict_lookup (lit "regex") d) as [rg|]; cbn [default from_option id].
    + destruct (truthy rg); reflexivity.
    + reflexivity.
Qed.

(** With the [midi] mapping in hand, [_resolve_port] runs its filter block
    on the device section, then on the port section, and reports. *)
Lemma resolve_port_levels (ports : list pystr) (cfg : pyval)
  (md : list (pyval * pyval)) :
  midi_section cfg = Some md ->
  _resolve_port ports cfg =
  (r1 ← level_filter (sub_section "device" md) (List.map _record_for_port ports);
   r2 ← level_filter (sub_section "port" md) r1;
   Ok (outcome_of r2 (List.map disp (List.map _record_for_port ports)))).
Proof.
  intros Hmd.
  assert (Hm : exists m, py_get cfg (lit "midi") PyNone = Ok m /\
                         py_or m (PyDict []) = PyDict md).
  { destruct cfg as [| | | | | |d]; try discriminate.
    rewrite py_get_dict. eexists; split; [reflexivity|].
    unfold midi_section in Hmd.
    destruct (dict_lookup (lit "midi") d) as [m|]; cbn [default from_option id].
    - destruct m; unfold py_or;
        try (destruct (truthy _); [discriminate|congruence]).
      injection Hmd as <-. apply py_or_dict.
    - injection Hmd as <-. reflexivity. }
  destruct Hm as [m [Hget Hor]].
  unfold _resolve_port. rewrite Hget. cbn [mbind result_bind]. rewrite Hor.
  rewrite !py_get_dict. cbn [mbind result_bind].
  fold (sub_section "device" md). fold (sub_section "port" md).
  fold (level_filter (sub_section "device" md) (List.map _record_for_port ports)).
  destruct (level_filter (sub_section "device" md) _) as [r1|e];
    cbn [mbind result_bind]; [|reflexivity].
  fold (level_filter (sub_section "port" md) r1).
  destruct (level_filter (sub_section "port" md) r1) as [r2|e];
    cbn [mbind result_bind]; [|reflexivity].
  unfold outcome_of. destruct r2 as [|r [|r' r2]]; reflexivity.
Qed.

Lemma apply_filter_sub (f : filter_spec) (recs m : list port_record) :
  apply_filter f recs = Ok m -> forall r, In r m -> In r recs.
Proof.
  destruct f as [|v|v]; cbn [apply_filter].
  - intros [= <-]. auto.
  - intros [= <-] r. unfold _filter_by_name.
    destruct (bool_decide (v = [])); [auto|]. intros Hr.
    apply filter_In in Hr. tauto.
  - unfold _filter_by_regex.
    destruct (bool_decide (v = [])); [intros [= <-]; auto|].
    destruct (_compile_regex v) as [rx|e]; cbn [mbind result_bind];
      [|discriminate].
    intros [= <-] r Hr. apply filter_In in Hr. tauto.
Qed.

Lemma select_sub (ports : list pystr) (md : list (pyval * pyval))
  (matched : list port_record) :
  select ports md = Ok matched ->
  forall r, In r matched -> exists o, In o ports /\ r = _record_for_port o.
Proof.
  unfold select.
  destruct (apply_filter (section_filter (sub_section "device" md)) _)
    as [r1|e] eqn:E1; cbn [mbind result_bind]; [|discriminate].
  intros E2 r Hr.
  apply (apply_filter_sub _ _ _ E2), (apply_filter_sub _ _ _ E1), in_map_iff in Hr.
  destruct Hr as [o [<- Ho]]. eauto.
Qed.

(** C1, amended. For every configuration tree whose [midi] entry is absent,
    falsy or a mapping, and every enumerated device list: resolution
    applies the device-level filter, then the port-level filter; when these
    leave [matched] (every regex they use compiles), it succeeds exactly
    when one record remains and then returns that record's original name
    with its healed display name; when none or several remain it returns no
    name, the healed display names of the matched records, and in both cases
    the full unfiltered healed display list. *)
Theorem resolve_port_outcome (ports : list pystr) (cfg : pyval)
  (md : list (pyval * pyval)) (matched : list port_record) :
  midi_section cfg = Some md ->
  select ports md = Ok matched ->
  (length matched = 1%nat ->
     exists o, In o ports /\ matched = [_record_for_port o] /\
       _resolve_port ports cfg =
         Ok (Some o, [_port_display o], List.map _port_display ports)) /\
  (length matched <> 1%nat ->
     _resolve_port ports cfg =
       Ok (None, List.map disp matched, List.map _port_display ports)).
Proof.
  intros Hmd Hsel.
  assert (Hres : _resolve_port ports cfg =
                 Ok (outcome_of matched (List.map _port_display ports))).
  { rewrite (resolve_port_levels _ _ _ Hmd), !level_filter_spec.
    unfold select in Hsel.
    destruct (apply_filter (section_filter (sub_section "device" md)) _)
      as [r1|e]; cbn [mbind result_bind] in *; [|discriminate].
    rewrite level_filter_spec, Hsel. cbn [mbind result_bind].
    rewrite map_map. reflexivity. }
  split.
  - intros Hlen. destruct matched as [|r [|r' matched]]; try discriminate.
    destruct (select_sub _ _ _ Hsel r (or_introl eq_refl)) as [o [Ho ->]].
    exists o. split; [exact Ho|]. split; [reflexivity|]. exact Hres.
  - intros Hlen. rewrite Hres.
    destruct matched as [|r [|r' matched]]; try reflexivity.
    destruct Hlen. reflexivity.
Qed.

(** C9. At either level [_resolve_port] runs the same block; in it a truthy
    [name] selects the literal filter whatever the section's [regex] entry
    is, and the regex filter is used only when [name] is absent or falsy
    (and [regex] is truthy). *)
Theorem name_shadows_regex (ports : list pystr) (cfg : pyval)
  (md : list (pyval * pyval)) :
  midi_section cfg = Some md ->
  _resolve_port ports cfg =
    (r1 ← level_filter (sub_section "device" md) (List.map _record_for_port ports);
     r2 ← level_filter (sub_section "port" md) r1;
     Ok (outcome_of r2 (List.map _port_display ports))) /\
  forall (d : list (pyval * pyval)) (recs : list port_record),
    (forall v, dict_lookup (lit "name") d = Some v -> truthy v = true ->
       level_filter (PyDict d) recs = Ok (_filter_by_name recs (py_str v))) /\
    (forall rg, setting "name" (PyDict d) = None ->
       dict_lookup (lit "regex") d = Some rg -> truthy rg = true ->
       level_filter (PyDict d) recs = _filter_by_regex recs (py_str rg)) /\
    (setting "name" (PyDict d) = None -> setting "regex" (PyDict d) = None ->
       level_filter (PyDict d) recs = Ok recs).
Proof.
  intros Hmd. split.
  - rewrite (resolve_port_levels _ _ _ Hmd), map_map. reflexivity.
  - intros d recs. rewrite level_filter_spec. unfold section_filter, setting.
    split; [|split].
    + intros v -> ->. reflexivity.
    + intros rg Hn -> ->. cbn [setting] in Hn.
      destruct (dict_lookup (lit "name") d) as [v|]; [|reflexivity].
      destruct (truthy v); [discriminate|reflexivity].
    + intros Hn Hr.
      destruct (dict_lookup (lit "name") d) as [v|].
      * destruct (truthy v); [discriminate|].
        destruct (dict_lookup (lit "regex") d) as [rg|]; [|reflexivity].
        destruct (truthy rg); [discriminate|reflexivity].
      * destruct (dict_lookup (lit "regex") d) as [rg|]; [|reflexivity].
        destruct (truthy rg); [discriminate|reflexivity].
Qed.

End ResolutionFacts.

(** On a configuration whose [midi] entry is a string, resolution raises
    [AttributeError] whatever the runtime and the device list. *)
Lemma resolve_port_scalar_midi :
  midi_section scalar_midi_cfg = None /\
  (forall (R : PyRuntime) (ports : list pystr),
     _resolve_port ports scalar_midi_cfg = Raise (Exception AttributeError)).
Proof. split; reflexivity. Qed.

Lemma ascii_norm_empty (s : pystr) : @_norm ascii_runtime s = [] <-> s = [].
Proof. destruct s; split; (reflexivity || discriminate). Qed.

Lemma filter_by_name_norm_invariant_witness :
  @_norm ascii_runtime (lit "LOOP a") = @_norm ascii_runtime (lit "loop A") /\
  @_filter_by_name ascii_runtime
    (List.map (@_record_for_port ascii_runtime) two_loops) (lit "LOOP a") =
  @_filter_by_name ascii_runtime
    (List.map (@_record_for_port ascii_runtime) two_loops) (lit "loop A").
Proof.
  split; [vm_compute; reflexivity|].
  apply (@filter_by_name_norm_invariant ascii_runtime ascii_norm_empty).
  vm_compute. reflexivity.
Defined.

Lemma resolve_port_outcome_witness :
  midi_section port_name_cfg = Some port_name_midi /\
  @select ascii_runtime two_loops port_name_midi =
    Ok [@_record_for_port ascii_runtime (lit "Loop A")] /\
  exists o, In o two_loops /\
    [@_record_for_port ascii_runtime (lit "Loop A")] =
      [@_record_for_port ascii_runtime o] /\
    @_resolve_port ascii_runtime two_loops port_name_cfg =
      Ok (Some o, [_port_display o], List.map _port_display two_loops).
Proof.
  assert (H1 : midi_section port_name_cfg = Some port_name_midi)
    by (vm_compute; reflexivity).
  assert (H2 : @select ascii_runtime two_loops port_name_midi =
               Ok [@_record_for_port ascii_runtime (lit "Loop A")])
    by (vm_compute; reflexivity).
  split; [exact H1|]. split; [exact H2|].
  exact (proj1 (@resolve_port_outcome ascii_runtime two_loops port_name_cfg
                  port_name_midi _ H1 H2) eq_refl).
Defined.

Lemma name_shadows_regex_witness :
  midi_section port_name_cfg = Some port_name_midi /\
  @level_filter ascii_runtime (sub_section "port" port_name_midi)
    (List.map (@_record_for_port ascii_runtime) two_loops) =
  Ok (@_filter_by_name ascii_runtime
        (List.map (@_record_for_port ascii_runtime) two_loops) (lit "loop a")).
Proof.
  split; [vm_compute; reflexivity|].
  destruct (@name_shadows_regex ascii_runtime two_loops port_name_cfg
              port_name_midi eq_refl) as [_ H].
  destruct (H [(PyStr (lit "name"), PyStr (lit "loop a"));
               (PyStr (lit "regex"), PyStr (lit "("))]
              (List.map (@_record_for_port ascii_runtime) two_loops))
    as [Hname _].
  exact (Hname (PyStr (lit "loop a")) eq_refl eq_refl).
Defined.

(** Scenarios 1 and 3 of the specification, and a pattern that does not
    compile. *)
Example resolve_port_examples :
  @_resolve_port ascii_runtime two_loops
    (PyDict [(PyStr (lit "midi"),
              PyDict [(PyStr (lit "port"),
                       PyDict [(PyStr (lit "name"), PyStr (lit "Loop A"))])])])
  = Ok (Some (lit "Loop A"), [lit "Loop A"], two_loops) /\
  @_resolve_port ascii_runtime two_loops
    (PyDict [(PyStr (lit "midi"),
              PyDict [(PyStr (lit "port"),
                       PyDict [(PyStr (lit "regex"), PyStr (lit "^Loop"))])])])
  = Ok (None, two_loops, two_loops) /\
  @_resolve_port ascii_runtime two_loops
    (PyDict [(PyStr (lit "midi"),
              PyDict [(PyStr (lit "port"),
                       PyDict [(PyStr (lit "regex"), PyStr (lit "("))])])])
  = Raise (Exception ReError).
Proof. vm_compute. auto. Qed.

(** ** The dispatcher *)

Section DispatchFacts.
Context {Sur : Surroundings}.

Lemma send_note_unknown (note_name : pystr) (w : world) :
  NOTE_TO_NUM !! note_name = None ->
  _send_note note_name w =
  (Ok tt, if _DEBUG w then record_event (EvLog DEBUG (MsgIgnoredToken note_name)) w
          else w).
Proof.
  intros Hn. unfold _send_note. rewrite Hn.
  destruct w as [out on off dbg en tr]. destruct dbg; reflexivity.
Qed.

Lemma send_note_no_handle (note_name : pystr) (n : Z) (w : world) :
  NOTE_TO_NUM !! note_name = Some n -> _MIDIOUT w = None ->
  _send_note note_name w = (Ok tt, w).
Proof.
  intros Hn Hout. unfold _send_note. rewrite Hn.
  destruct w as [out on off dbg en tr]. simpl in Hout. subst out. reflexivity.
Qed.

Lemma send_note_sent (note_name : pystr) (n : Z) (h : handle) (w : world) :
  NOTE_TO_NUM !! note_name = Some n -> _MIDIOUT w = Some h ->
  send_raises (trace w) (note_on w n) = None ->
  send_raises (after_on w n) (note_off w n) = None ->
  _send_note note_name w =
  (Ok tt, record_event (EvSend (note_off w n))
            (record_event (EvSleep 50) (record_event (EvSend (note_on w n)) w))).
Proof.
  intros Hn Hout H1 H2. unfold _send_note. rewrite Hn.
  destruct w as [out on off dbg en tr].
  unfold after_on, note_on, note_off in *. simpl in *. subst out.
  unfold try_catch, send_message, call, mbind, prog_bind, get_world, sleep,
    event_, modify. simpl.
  rewrite H1. simpl. rewrite <- app_assoc. simpl. rewrite H2. reflexivity.
Qed.

Lemma send_note_on_fails (note_name : pystr) (n : Z) (h : handle) (w : world)
  (e : exception) :
  NOTE_TO_NUM !! note_name = Some n -> _MIDIOUT w = Some h ->
  send_raises (trace w) (note_on w n) = Some e ->
  _send_note note_name w =
  (Ok tt, torn_down note_name e (record_event (EvSend (note_on w n)) w)).
Proof.
  intros Hn Hout H1. unfold _send_note. rewrite Hn.
  destruct w as [out on off dbg en tr].
  unfold note_on in *. simpl in *. subst out.
  unfold try_catch, send_message, call, mbind, prog_bind, get_world. simpl.
  rewrite H1. simpl.
  unfold _close_midi_out, close_port, try_catch, call, mbind, prog_bind,
    get_world. simpl.
  destruct (close_port_raises _); reflexivity.
Qed.

Lemma send_note_off_fails (note_name : pystr) (n : Z) (h : handle) (w : world)
  (e : exception) :
  NOTE_TO_NUM !! note_name = Some n -> _MIDIOUT w = Some h ->
  send_raises (trace w) (note_on w n) = None ->
  send_raises (after_on w n) (note_off w n) = Some e ->
  _send_note note_name w =
  (Ok tt, torn_down note_name e
            (record_event (EvSend (note_off w n))
               (record_event (EvSleep 50)
                  (record_event (EvSend (note_on w n)) w)))).
Proof.
  intros Hn Hout H1 H2. unfold _send_note. rewrite Hn.
  destruct w as [out on off dbg en tr].
  unfold after_on, note_on, note_off in *. simpl in *. subst out.
  unfold try_catch, send_message, call, mbind, prog_bind, get_world, sleep,
    event_, modify. simpl.
  rewrite H1. simpl. rewrite <- app_assoc. simpl. rewrite H2. simpl.
  unfold _close_midi_out, close_port, try_catch, call, mbind, prog_bind,
    get_world. simpl.
  destruct (close_port_raises _); reflexivity.
Qed.

(** A call of [_send_note] returns, whatever the token, the world and the
    surroundings. *)
Lemma send_note_returns (note_name : pystr) (w : world) :
  (_send_note note_name w).1 = Ok tt.
Proof.
  destruct (NOTE_TO_NUM !! note_name) as [n|] eqn:Hn;
    [|rewrite send_note_unknown by exact Hn; reflexivity].
  destruct (_MIDIOUT w) as [h|] eqn:Hout;
    [|rewrite (send_note_no_handle _ n) by assumption; reflexivity].
  destruct (send_raises (trace w) (note_on w n)) as [e|] eqn:H1;
    [rewrite (send_note_on_fails _ n h _ e) by assumption; reflexivity|].
  destruct (send_raises (after_on w n) (note_off w n)) as [e|] eqn:H2;
    [rewrite (send_note_off_fails _ n h _ e) by assumption; reflexivity|].
  rewrite (send_note_sent _ n h) by assumption. reflexivity.
Qed.

(** With no handle, a call sends nothing and leaves the handle absent. *)
Lemma send_note_dropped (note_name : pystr) (w : world) :
  _MIDIOUT w = None ->
  exists evs, (_send_note note_name w).2 =
                {| _MIDIOUT := None; _STATUS_ON := _STATUS_ON w;
                   _STATUS_OFF := _STATUS_OFF w; _DEBUG := _DEBUG w;
                   sock_entry := sock_entry w; trace := trace w ++ evs |} /\
              forallb (fun e => negb (is_send e)) evs = true.
Proof.
  intros Hout. destruct (NOTE_TO_NUM !! note_name) as [n|] eqn:Hn.
  - rewrite (send_note_no_handle _ n) by assumption. exists [].
    destruct w; simpl in *; subst. rewrite app_nil_r. auto.
  - rewrite send_note_unknown by exact Hn.
    destruct w as [out on off dbg en tr]; simpl in *; subst. destruct dbg.
    + eexists [_]. split; reflexivity.
    + exists []. rewrite app_nil_r. auto.
Qed.

Lemma for_each_send_note_dropped (tokens : list pystr) (w : world) :
  _MIDIOUT w = None ->
  (for_each tokens _send_note w).1 = Ok tt /\
  _MIDIOUT (for_each tokens _send_note w).2 = None /\
  exists evs, trace (for_each tokens _send_note w).2 = trace w ++ evs /\
              forallb (fun e => negb (is_send e)) evs = true.
Proof.
  revert w. induction tokens as [|t tokens IH]; intros w Hout.
  - simpl. split; [reflexivity|]. split; [exact Hout|].
    exists []. rewrite app_nil_r. auto.
  - cbn [for_each]. unfold mbind, prog_bind.
    pose proof (send_note_returns t w) as Hr.
    destruct (send_note_dropped t w Hout) as [evs [Hw Hevs]].
    destruct (_send_note t w) as [r w']. simpl in Hr, Hw. subst r w'.
    match goal with |- context [for_each tokens _send_note ?w1] =>
      destruct (IH w1 eq_refl) as [H1 [H2 [evs' [H3 H4]]]] end.
    split; [exact H1|]. split; [exact H2|].
    exists (evs ++ evs'). rewrite H3. simpl. rewrite <- app_assoc.
    split; [reflexivity|]. rewrite forallb_app, Hevs, H4. reflexivity.
Qed.

End DispatchFacts.

(** With a usable STDERR. *)
Lemma send_note_dispatch {Sur : Surroundings} (note_name : pystr) (w : world) :
  (_send_note note_name w).1 = Ok tt /\
  (NOTE_TO_NUM !! note_name = None \/ _MIDIOUT w = None ->
     _MIDIOUT (_send_note note_name w).2 = _MIDIOUT w /\
     exists evs, trace (_send_note note_name w).2 = trace w ++ evs /\
       (evs = [] \/
        _DEBUG w = true /\ evs = [EvLog DEBUG (MsgIgnoredToken note_name)])) /\
  (forall n h e, NOTE_TO_NUM !! note_name = Some n -> _MIDIOUT w = Some h ->
     (send_raises (trace w) (note_on w n) = Some e ->
        _MIDIOUT (_send_note note_name w).2 = None /\
        trace (_send_note note_name w).2 =
          trace w ++ [EvSend (note_on w n);
                      EvLog WARN (MsgSendFailed note_name e); EvClosePort]) /\
     (send_raises (trace w) (note_on w n) = None ->
      send_raises (after_on w n) (note_off w n) = Some e ->
        _MIDIOUT (_send_note note_name w).2 = None /\
        trace (_send_note note_name w).2 =
          trace w ++ [EvSend (note_on w n); EvSleep 50; EvSend (note_off w n);
                      EvLog WARN (MsgSendFailed note_name e); EvClosePort])) /\
  (forall w0 tokens, _MIDIOUT w0 = None ->
     (for_each tokens _send_note w0).1 = Ok tt /\
     _MIDIOUT (for_each tokens _send_note w0).2 = None /\
     exists evs, trace (for_each tokens _send_note w0).2 = trace w0 ++ evs /\
                 forallb (fun e => negb (is_send e)) evs = true).
Proof.
  split; [apply send_note_returns|]. split; [|split].
  - intros [Hn | Hout].
    + rewrite send_note_unknown by exact Hn.
      destruct w as [out on off dbg en tr]. simpl. destruct dbg; simpl.
      * split; [reflexivity|]. eexists. split; [reflexivity|]. auto.
      * split; [reflexivity|]. exists []. rewrite app_nil_r. auto.
    + destruct (NOTE_TO_NUM !! note_name) as [n|] eqn:Hn.
      * rewrite (send_note_no_handle _ n) by assumption.
        split; [reflexivity|]. exists []. rewrite app_nil_r. auto.
      * rewrite send_note_unknown by exact Hn.
        destruct w as [out on off dbg en tr]. simpl. destruct dbg; simpl.
        -- split; [reflexivity|]. eexists. split; [reflexivity|]. auto.
        -- split; [reflexivity|]. exists []. rewrite app_nil_r. auto.
  - intros n h e Hn Hout. split.
    + intros H1. rewrite (send_note_on_fails _ n h _ e) by assumption.
      split; [reflexivity|]. simpl. rewrite <- !app_assoc. reflexivity.
    + intros H1 H2. rewrite (send_note_off_fails _ n h _ e) by assumption.
      split; [reflexivity|]. simpl. rewrite <- !app_assoc. reflexivity.
  - intros w0 tokens. apply for_each_send_note_dropped.
Qed.

Lemma bind_ext {A B} (m : prog A) (f g : A -> prog B) (w : world) :
  (forall a w', f a w' = g a w') -> (m ≫= f) w = (m ≫= g) w.
Proof.
  intros H. unfold mbind, prog_bind. destruct (m w) as [[a|e] w']; auto.
Qed.

Lemma try_catch_ext {A} (body : prog A) (h1 h2 : exception -> prog A)
    (w : world) :
  (forall e w', h1 e w' = h2 e w') ->
  try_catch body h1 w = try_catch body h2 w.
Proof.
  intros H. unfold try_catch. destruct (body w) as [[a|[e|c]] w']; auto.
Qed.

Lemma for_each_ext {A} (l : list A) (f g : A -> prog unit) :
  (forall x w, f x w = g x w) ->
  forall w, for_each l f w = for_each l g w.
Proof.
  intros H. induction l as [|x l IH]; intros w; [reflexivity|].
  cbn [for_each]. unfold mbind, prog_bind. rewrite H.
  destruct (g x w) as [[[]|e] w']; [apply IH|reflexivity].
Qed.

Lemma log_usable (Err : Stderr) (l : level) (m : message) (w : world) :
  stderr_usable Err -> @_log Err l m w = @_log usable_stderr l m w.
Proof. intros H. unfold _log. rewrite H. reflexivity. Qed.

(** With a usable STDERR, dispatch is the dispatch described above. *)
Lemma send_note_usable {Sur : Surroundings} (Err : Stderr)
    (note_name : pystr) (w : world) :
  stderr_usable Err ->
  @_send_note Sur Err note_name w = @_send_note Sur usable_stderr note_name w.
Proof.
  intros H. unfold _send_note. cbv zeta. apply bind_ext. intros w0 w'.
  destruct (NOTE_TO_NUM !! note_name) as [n|], (_MIDIOUT w0) as [h|];
    try reflexivity.
  - apply try_catch_ext. intros e w1. unfold _warn, mbind, prog_bind.
    rewrite (log_usable Err) by exact H. reflexivity.
  - unfold _debug. apply bind_ext. intros w1 w2.
    destruct (_DEBUG w1); [apply log_usable, H|reflexivity].
  - unfold _debug. apply bind_ext. intros w1 w2.
    destruct (_DEBUG w1); [apply log_usable, H|reflexivity].
Qed.

(** C4. As long as every log line can be written, dispatch never
    propagates an exception.  For a token outside the note table, and
    whenever the output handle is absent, it sends nothing and leaves the
    handle as it was, writing at most a debug line (none unless debugging
    is on).  If a send raises, a warning is written, the port is closed and
    the handle cleared; from a world with no handle, every further dispatch
    returns, sends nothing and leaves the handle absent. *)
Theorem send_note_contained {Sur : Surroundings} (Err : Stderr)
    (note_name : pystr) (w : world) :
  stderr_usable Err ->
  (@_send_note Sur Err note_name w).1 = Ok tt /\
  (NOTE_TO_NUM !! note_name = None \/ _MIDIOUT w = None ->
     _MIDIOUT (@_send_note Sur Err note_name w).2 = _MIDIOUT w /\
     exists evs, trace (@_send_note Sur Err note_name w).2 = trace w ++ evs /\
       (evs = [] \/
        _DEBUG w = true /\ evs = [EvLog DEBUG (MsgIgnoredToken note_name)])) /\
  (forall n h e, NOTE_TO_NUM !! note_name = Some n -> _MIDIOUT w = Some h ->
     (send_raises (trace w) (note_on w n) = Some e ->
        _MIDIOUT (@_send_note Sur Err note_name w).2 = None /\
        trace (@_send_note Sur Err note_name w).2 =
          trace w ++ [EvSend (note_on w n);
                      EvLog WARN (MsgSendFailed note_name e); EvClosePort]) /\
     (send_raises (trace w) (note_on w n) = None ->
      send_raises (after_on w n) (note_off w n) = Some e ->
        _MIDIOUT (@_send_note Sur Err note_name w).2 = None /\
        trace (@_send_note Sur Err note_name w).2 =
          trace w ++ [EvSend (note_on w n); EvSleep 50; EvSend (note_off w n);
                      EvLog WARN (MsgSendFailed note_name e); EvClosePort])) /\
  (forall w0 tokens, _MIDIOUT w0 = None ->
     (for_each tokens (@_send_note Sur Err) w0).1 = Ok tt /\
     _MIDIOUT (for_each tokens (@_send_note Sur Err) w0).2 = None /\
     exists evs, trace (for_each tokens (@_send_note Sur Err) w0).2 = trace w0 ++ evs /\
                 forallb (fun e => negb (is_send e)) evs = true).
Proof.
  intros Hu. rewrite (send_note_usable Err note_name w Hu).
  destruct (send_note_dispatch note_name w) as (H1 & H2 & H3 & H4).
  split; [exact H1|]. split; [exact H2|]. split; [exact H3|].
  intros w0 tokens Hw0.
  rewrite (for_each_ext tokens (@_send_note Sur Err)
             (@_send_note Sur usable_stderr)
             (fun x w1 => send_note_usable Err x w1 Hu)).
  exact (H4 w0 tokens Hw0).
Qed.

(** When the warning cannot be written, the failed write's exception
    leaves dispatch, and the handle is still there. *)
Lemma send_note_log_fails :
  @_send_note broken_output broken_stderr (lit "C4") started_world =
  (Raise (Exception OSError),
   record_event (EvSend [0x92; 60; 127]) started_world) /\
  _MIDIOUT (@_send_note broken_output broken_stderr (lit "C4") started_world).2
  = Some {| port_index := 0 |}.
Proof. split; vm_compute; reflexivity. Qed.

Lemma send_note_contained_witness :
  (@_send_note broken_output usable_stderr (lit "C4") started_world).1 = Ok tt.
Proof.
  exact (proj1 (@send_note_contained broken_output usable_stderr (lit "C4")
                  started_world (fun _ _ _ => eq_refl))).
Defined.


(** A failing output: the first dispatch tears the handle down, the second
    is dropped. *)
Example send_note_broken_output :
  let w := set_MIDIOUT (Some {| port_index := 0 |}) (initial_world false NoEntry) in
  let w1 := (@_send_note broken_output usable_stderr (lit "C4") w).2 in
  _MIDIOUT w1 = None /\
  trace w1 = [EvSend [0x90; 60; 127];
              EvLog WARN (MsgSendFailed (lit "C4") RtMidiError); EvClosePort] /\
  @_send_note broken_output usable_stderr (lit "D4") w1 = (Ok tt, w1).
Proof. vm_compute. auto. Qed.

(** ** Startup *)

Lemma bind_ok {A B} (m : prog A) (f : A -> prog B) (w w2 : world) (b : B) :
  (m ≫= f) w = (Ok b, w2) ->
  exists a w1, m w = (Ok a, w1) /\ f a w1 = (Ok b, w2).
Proof.
  unfold mbind, prog_bind. destruct (m w) as [[a|e] w1]; [eauto|discriminate].
Qed.

Lemma sys_exit_not_ok {A} (code : Z) (w w' : world) (a : A) :
  sys_exit code w <> (Ok a, w').
Proof. discriminate. Qed.

Section StartupFacts.
Context {Sur : Surroundings} {R : PyRuntime}.

Lemma channel_range (cfg : pyval) (ch : Z) :
  _channel_from_config cfg = Ok ch -> 1 <= ch <= 16.
Proof.
  unfold _channel_from_config.
  destruct (py_get cfg (lit "midi") PyNone) as [m|e]; cbn [mbind result_bind];
    [|discriminate].
  destruct (try_except _ _) as [c|e]; cbn [mbind result_bind]; [|discriminate].
  intros [= <-].
  destruct (Z.ltb_spec c 1); [lia|]. destruct (Z.gtb_spec c 16); lia.
Qed.

(** When [_open_midi_out] answers [True] the handle is set; the status
    bytes are not touched. *)
Lemma open_midi_out_true (port_name : pystr) (w w' : world) :
  _open_midi_out port_name w = (Ok true, w') ->
  _STATUS_ON w' = _STATUS_ON w /\ _STATUS_OFF w' = _STATUS_OFF w /\
  exists h, _MIDIOUT w' = Some h.
Proof.
  destruct w as [out on off dbg en tr].
  unfold _open_midi_out, open_failed, try_catch, new_midiout, get_ports, mbind,
    prog_bind, call, close_port, _debug, _error, _log, event_, modify,
    get_world. simpl.
  destruct (midiout_raises tr) as [e|]; simpl; [discriminate|].
  destruct (list_ports tr) as [e|ports]; simpl.
  - intros H. repeat case_match; simplify_eq.
  - destruct (index_of port_name ports 0) as [idx|]; simpl; [|discriminate].
    destruct (open_port_raises tr idx) as [e|]; simpl.
    + intros H. repeat case_match; simplify_eq.
    + destruct dbg; simpl; intros [= <-]; simpl; eauto.
Qed.

Lemma main_started (argv : list pystr) (cfg : pyval) (w0 w1 : world) :
  main argv cfg w0 = (Ok tt, w1) ->
  exists ch h, _channel_from_config cfg = Ok ch /\
    _STATUS_ON w1 = 0x90 + (ch - 1) /\ _STATUS_OFF w1 = 0x80 + (ch - 1) /\
    _MIDIOUT w1 = Some h.
Proof.
  unfold main. intros H.
  apply bind_ok in H as (u1 & wa & _ & H).
  apply bind_ok in H as (u2 & wb & _ & H).
  apply bind_ok in H as (ports & wc & _ & H).
  apply bind_ok in H as ([[port_name matched] all] & wd & _ & H).
  destruct port_name as [port_name|].
  - apply bind_ok in H as (ch & we & Hch & H).
    apply bind_ok in H as (u3 & wf & Hset & H).
    unfold lift in Hch. injection Hch as Hch <-.
    unfold modify in Hset. injection Hset as _ <-.
    destruct (bool_decide (lit "--check" ∈ argv)).
    + apply bind_ok in H as (u4 & wg & _ & H). discriminate H.
    + apply bind_ok in H as (ok & wg & Hopen & H). destruct ok; simpl in H.
      * apply open_midi_out_true in Hopen as (Hon & Hoff & h & Hh).
        apply bind_ok in H as (u5 & wh & Hs & H).
        unfold event_, modify in Hs, H. injection Hs as _ <-.
        injection H as <-. exists ch, h. simpl. rewrite Hon, Hoff. auto.
      * apply bind_ok in H as (u5 & wh & _ & H). discriminate H.
  - unfold _exit_with_selection_error in H.
    apply bind_ok in H as (u3 & we & _ & H).
    apply bind_ok in H as (u4 & wf & _ & H).
    apply bind_ok in H as (u5 & wg & _ & H).
    apply bind_ok in H as (u6 & wh & _ & H). discriminate H.
Qed.

End StartupFacts.

(** C2. Startup computes the status bytes once, from the configured channel
    [ch] (an integer of 1..16): [0x90 + (ch - 1)] and [0x80 + (ch - 1)].
    From then on, in every world that holds these bytes and a live output
    handle whose sends go through, dispatching ["C#4"] sends
    [[0x90 + (ch - 1), 61, 127]], holds for 50 ms, sends
    [[0x80 + (ch - 1), 61, 0]], and changes nothing else: the status bytes
    are not written per message. *)
Theorem note_pulse_on_configured_channel {Sur : Surroundings} {R : PyRuntime}
  (argv : list pystr) (cfg : pyval) (w0 w1 : world) (ch : Z) :
  main argv cfg w0 = (Ok tt, w1) ->
  _channel_from_config cfg = Ok ch ->
  (1 <= ch <= 16 /\
   _STATUS_ON w1 = 0x90 + (ch - 1) /\ _STATUS_OFF w1 = 0x80 + (ch - 1) /\
   exists h, _MIDIOUT w1 = Some h) /\
  NOTE_TO_NUM !! lit "C#4" = Some 61 /\
  forall (w : world) (h : handle),
    _STATUS_ON w = _STATUS_ON w1 -> _STATUS_OFF w = _STATUS_OFF w1 ->
    _MIDIOUT w = Some h ->
    send_raises (trace w) [0x90 + (ch - 1); 61; 127] = None ->
    send_raises (trace w ++ [EvSend [0x90 + (ch - 1); 61; 127]; EvSleep 50])
                [0x80 + (ch - 1); 61; 0] = None ->
    _send_note (lit "C#4") w =
    (Ok tt,
     {| _MIDIOUT := Some h; _STATUS_ON := _STATUS_ON w;
        _STATUS_OFF := _STATUS_OFF w; _DEBUG := _DEBUG w;
        sock_entry := sock_entry w;
        trace := trace w ++ [EvSend [0x90 + (ch - 1); 61; 127]; EvSleep 50;
                             EvSend [0x80 + (ch - 1); 61; 0]] |}).
Proof.
  intros Hmain Hch.
  destruct (main_started _ _ _ _ Hmain) as (ch' & h1 & Hch' & Hon & Hoff & Hh).
  rewrite Hch in Hch'. injection Hch' as <-.
  assert (Hnote : NOTE_TO_NUM !! lit "C#4" = Some 61) by (vm_compute; reflexivity).
  split; [|split; [exact Hnote|]].
  - split; [exact (channel_range _ _ Hch)|]. eauto.
  - intros w h Eon Eoff Hout H1 H2.
    rewrite Hon in Eon. rewrite Hoff in Eoff.
    rewrite (send_note_sent _ 61 h) by
      (unfold after_on, note_on, note_off; rewrite ?Eon, ?Eoff; assumption).
    unfold note_on, note_off. rewrite Eon, Eoff.
    destruct w as [out on off dbg en tr].
    cbn [_MIDIOUT _STATUS_ON _STATUS_OFF _DEBUG sock_entry trace record_event]
      in *.
    subst out on off. unfold record_event.
    cbn [_MIDIOUT _STATUS_ON _STATUS_OFF _DEBUG sock_entry trace].
    rewrite <- !app_assoc. reflexivity.
Qed.

Lemma note_pulse_on_configured_channel_witness :
  @main (quiet two_loops) ascii_runtime usable_stderr [lit "server.py"] channel3_cfg
        (initial_world false NoEntry) = (Ok tt, started_world) /\
  @_channel_from_config ascii_runtime channel3_cfg = Ok 3 /\
  @_send_note (quiet two_loops) usable_stderr (lit "C#4") started_world =
  (Ok tt,
   {| _MIDIOUT := Some {| port_index := 0 |};
      _STATUS_ON := 0x92; _STATUS_OFF := 0x82; _DEBUG := false;
      sock_entry := NoEntry;
      trace := [EvOpenPort 0; EvStartServerThread; EvRunApp;
                EvSend [0x92; 61; 127]; EvSleep 50; EvSend [0x82; 61; 0]] |}).
Proof.
  assert (H1 : @main (quiet two_loops) ascii_runtime usable_stderr [lit "server.py"]
                 channel3_cfg (initial_world false NoEntry)
               = (Ok tt, started_world)) by (vm_compute; reflexivity).
  assert (H2 : @_channel_from_config ascii_runtime channel3_cfg = Ok 3)
    by (vm_compute; reflexivity).
  split; [exact H1|]. split; [exact H2|].
  exact (proj2 (proj2 (@note_pulse_on_configured_channel (quiet two_loops)
                         ascii_runtime _ _ _ _ _ H1 H2))
           started_world {| port_index := 0 |} eq_refl eq_refl eq_refl
           eq_refl eq_refl).
Defined.

(** ** The singleton guard *)

Section GuardFacts.
Context {Sur : Surroundings}.

Lemma abort_if_symlink_passes (w : world) :
  os_path_islink (sock_entry w) = false ->
  _abort_if_sock_symlink w = (Ok tt, w).
Proof.
  intros H. destruct w as [out on off dbg en tr]. simpl in H.
  unfold _abort_if_sock_symlink, try_catch, mbind, prog_bind, get_world.
  simpl. rewrite H. reflexivity.
Qed.

Lemma guard_alive (w : world) :
  sock_entry w = SocketFile true ->
  _ensure_singleton_sock_or_exit w =
  (Raise (SystemExit 0), record_event EvProbe w).
Proof.
  intros H. destruct w as [out on off dbg en tr]. simpl in H. subst en.
  reflexivity.
Qed.

Lemma guard_stale (w : world) :
  os_path_exists (sock_entry w) = true ->
  os_path_islink (sock_entry w) = false ->
  sock_entry w <> SocketFile true ->
  _ensure_singleton_sock_or_exit w = (Ok tt, after_stale w).
Proof.
  intros Hex Hln Hdead. destruct w as [out on off dbg en tr].
  unfold after_stale. simpl in *.
  unfold _ensure_singleton_sock_or_exit, mbind, prog_bind.
  rewrite abort_if_symlink_passes by exact Hln.
  unfold get_world. simpl. rewrite Hex.
  unfold try_catch, connect_probe, os_remove, mbind, prog_bind. simpl.
  destruct en as [|t|[|]|]; try discriminate; try (destruct Hdead; reflexivity);
    simpl; destruct (remove_raises (tr ++ [EvProbe])); reflexivity.
Qed.

End GuardFacts.

(** ** Connections and the accept loop *)

Section ServerFacts.
Context {Sur : Surroundings}.

Lemma try_catch_returns {A} (m : prog A) (h : exception -> prog A) (w : world)
  (a : A) :
  (m w).1 = Ok a -> try_catch m h w = m w.
Proof.
  unfold try_catch. destruct (m w) as [[x|e] w']; simpl; [reflexivity|discriminate].
Qed.

Lemma split_nonempty (cur : pystr) (in_sep : bool) (s : pystr) :
  split_from cur in_sep s <> [].
Proof.
  revert cur in_sep. induction s as [|c s IH]; intros cur in_sep; simpl.
  - discriminate.
  - destruct (is_sep c); [destruct in_sep|]; [apply IH|discriminate|apply IH].
Qed.

(** What the handling of a connection amounts to. *)
Lemma handle_conn_run (conn : connection) (w : world) :
  handle_conn conn w =
  match recv conn with
  | RecvRaises _ => (Ok tt, after_recv conn w)
  | RecvData data =>
    if bool_decide (data = []) then (Ok tt, after_recv conn w)
    else
      match token_of data with
      | None => (Ok tt, after_recv conn w)
      | Some token => _send_note token (after_recv conn w)
      end
  end.
Proof.
  assert (Hst : try_catch_of is_OSError_ValueError_TypeError
                  (conn_settimeout conn 1000)
                  (fun e => _debug (MsgSetTimeoutFailed e)) w
                = (Ok tt, after_settimeout conn w)).
  { destruct w as [out on off dbg en tr], conn as [st rc].
    unfold after_settimeout, try_catch_of, conn_settimeout, call. simpl.
    destruct st as [[| |]|]; simpl; destruct dbg; reflexivity. }
  unfold handle_conn, mbind at 1, prog_bind at 1. rewrite Hst.
  unfold after_recv. set (w1 := after_settimeout conn w).
  unfold mbind at 1, prog_bind at 1.
  unfold try_catch at 1, conn_recv, mbind at 1, prog_bind at 1,
    mbind at 1, prog_bind at 1, event_, modify.
  destruct (recv conn) as [e|data]; [reflexivity|].
  cbn [raise mret prog_ret]. cbv beta iota.
  destruct (bool_decide (data = [])); [reflexivity|].
  unfold token_of, decode_ignore.
  set (w2 := record_event (EvRecv 1024) w1).
  destruct (utf8_decode Ignore data) as [decoded|]; [|reflexivity].
  unfold try_catch, mbind, prog_bind, mret, prog_ret. cbv beta iota zeta.
  destruct (bool_decide (strip decoded = [])) eqn:Et.
  - apply bool_decide_eq_true in Et. rewrite Et. reflexivity.
  - unfold first.
    destruct (re_split_commas_spaces (strip decoded)) as [|token toks];
      [reflexivity|].
    unfold mret, prog_ret. cbv beta iota.
    destruct (bool_decide (token = [])); [reflexivity|].
    pose proof (send_note_returns token w2) as Hr.
    destruct (_send_note token w2) as [[[]|e] w3]; simpl in Hr;
      [reflexivity|discriminate].
Qed.


(** A dispatch only adds events of its own to the trace. *)
Lemma send_note_events (token : pystr) (w : world) :
  exists evs, trace (_send_note token w).2 = trace w ++ evs /\
              forallb in_conn evs = true.
Proof.
  destruct (NOTE_TO_NUM !! token) as [n|] eqn:Hn.
  - destruct (_MIDIOUT w) as [h|] eqn:Hout.
    + destruct (send_raises (trace w) (note_on w n)) as [e|] eqn:H1.
      * rewrite (send_note_on_fails _ n h _ e) by assumption.
        eexists [_; _; _]. simpl. rewrite <- !app_assoc. split; reflexivity.
      * destruct (send_raises (after_on w n) (note_off w n)) as [e|] eqn:H2.
        -- rewrite (send_note_off_fails _ n h _ e) by assumption.
           eexists [_; _; _; _; _]. simpl. rewrite <- !app_assoc.
           split; reflexivity.
        -- rewrite (send_note_sent _ n h) by assumption.
           eexists [_; _; _]. simpl. rewrite <- !app_assoc. split; reflexivity.
    + rewrite (send_note_no_handle _ n) by assumption.
      exists []. rewrite app_nil_r. split; reflexivity.
  - rewrite send_note_unknown by exact Hn. destruct (_DEBUG w).
    + eexists [_]. split; reflexivity.
    + exists []. rewrite app_nil_r. split; reflexivity.
Qed.

Lemma after_recv_events (conn : connection) (w : world) :
  exists evs, trace (after_recv conn w) = trace w ++ evs /\
              forallb in_conn evs = true.
Proof.
  unfold after_recv, after_settimeout.
  destruct (settimeout_raises conn); [destruct (_DEBUG w)|]; simpl;
    rewrite <- ?app_assoc; eexists; split; reflexivity.
Qed.

(** The handling of a connection returns, and stays within the connection. *)
Lemma handle_conn_contained (conn : connection) (w : world) :
  (handle_conn conn w).1 = Ok tt /\
  exists evs, trace (handle_conn conn w).2 = trace w ++ evs /\
              forallb in_conn evs = true.
Proof.
  rewrite handle_conn_run.
  destruct (recv conn) as [e|data];
    [split; [reflexivity|apply after_recv_events]|].
  destruct (bool_decide (data = []));
    [split; [reflexivity|apply after_recv_events]|].
  destruct (token_of data) as [token|];
    [|split; [reflexivity|apply after_recv_events]].
  split; [apply send_note_returns|].
  destruct (after_recv_events conn w) as [evs1 [H1 P1]].
  destruct (send_note_events token (after_recv conn w)) as [evs2 [H2 P2]].
  exists (evs1 ++ evs2). rewrite H2, H1, <- app_assoc.
  split; [reflexivity|]. rewrite forallb_app, P1, P2. reflexivity.
Qed.

(** A failed accept: a pause of 50 ms, then the next round. *)
Lemma serve_one_accept_raises (e : exception) (w : world) :
  serve_one (AcceptRaises e) w =
  (Ok tt, record_event (EvSleep 50) (record_event EvAccept w)).
Proof. reflexivity. Qed.

Lemma serve_one_accepted (conn : connection) (w : world) :
  serve_one (Accepted conn) w =
  with_conn (handle_conn conn) (record_event EvAccept w).
Proof. reflexivity. Qed.

Lemma count_app (p : event -> bool) (a b : list event) :
  count p (a ++ b) = (count p a + count p b)%nat.
Proof. unfold count. rewrite List.filter_app, length_app. reflexivity. Qed.

Lemma count_none (p q : event -> bool) (evs : list event) :
  (forall e, q e = true -> p e = false) ->
  forallb q evs = true -> count p evs = 0%nat.
Proof.
  intros Hpq. unfold count. induction evs as [|e evs IH]; simpl; [reflexivity|].
  intros H. apply andb_true_iff in H as [He Hevs].
  rewrite (Hpq e He). apply IH, Hevs.
Qed.

Lemma in_conn_not_accept (e : event) : in_conn e = true -> is_accept e = false.
Proof. destruct e; (reflexivity || discriminate). Qed.

Lemma in_conn_not_close (e : event) : in_conn e = true -> is_close_conn e = false.
Proof. destruct e; (reflexivity || discriminate). Qed.

(** One round of the loop returns; it calls [accept] once and closes the
    connection it got, if any. *)
Lemma serve_one_round (a : accept_outcome) (w : world) :
  (serve_one a w).1 = Ok tt /\
  exists evs, trace (serve_one a w).2 = trace w ++ evs /\
    count is_accept evs = 1%nat /\
    count is_close_conn evs = (if is_accepted a then 1 else 0)%nat.
Proof.
  destruct a as [e|conn].
  - rewrite serve_one_accept_raises. split; [reflexivity|].
    exists [EvAccept; EvSleep 50]. simpl. rewrite <- app_assoc.
    repeat split; reflexivity.
  - rewrite serve_one_accepted. unfold with_conn.
    destruct (handle_conn_contained conn (record_event EvAccept w))
      as [Hr [evs [Ht Hp]]].
    destruct (handle_conn conn (record_event EvAccept w)) as [r w'].
    simpl in Hr, Ht |- *. split; [exact Hr|].
    exists (EvAccept :: evs ++ [EvCloseConn]).
    rewrite Ht. simpl. rewrite <- !app_assoc. split; [reflexivity|].
    change (EvAccept :: evs ++ [EvCloseConn])
      with ([EvAccept] ++ evs ++ [EvCloseConn]).
    rewrite !count_app.
    rewrite (count_none is_accept in_conn evs in_conn_not_accept Hp).
    rewrite (count_none is_close_conn in_conn evs in_conn_not_close Hp).
    split; reflexivity.
Qed.

Lemma accept_loop_runs (incoming : list accept_outcome) (w : world) :
  (accept_loop incoming w).1 = Ok tt /\
  exists evs, trace (accept_loop incoming w).2 = trace w ++ evs /\
    count is_accept evs = length incoming /\
    count is_close_conn evs = length (List.filter is_accepted incoming).
Proof.
  revert w. induction incoming as [|a incoming IH]; intros w.
  - simpl. split; [reflexivity|]. exists []. rewrite app_nil_r.
    repeat split; reflexivity.
  - cbn [accept_loop]. unfold mbind, prog_bind.
    destruct (serve_one_round a w) as [Hr [evs1 [Ht1 [Ha1 Hc1]]]].
    destruct (serve_one a w) as [r w1]. simpl in Hr, Ht1. subst r.
    destruct (IH w1) as [Hr2 [evs2 [Ht2 [Ha2 Hc2]]]].
    split; [exact Hr2|]. exists (evs1 ++ evs2).
    rewrite Ht2, Ht1, <- app_assoc, !count_app, Ha1, Ha2, Hc1, Hc2.
    split; [reflexivity|]. split; [reflexivity|].
    simpl. destruct (is_accepted a); reflexivity.
Qed.

End ServerFacts.



(** C10. A payload whose decoded and stripped text begins with a comma
    gives an empty first token: the connection ends as one that sent
    nothing usable, with no dispatch and no message to the MIDI output,
    whatever follows the comma. *)
Theorem leading_comma_ignored {Sur : Surroundings} (conn : connection)
  (data decoded rest : pystr) (w : world) :
  recv conn = RecvData data ->
  utf8_decode Ignore data = Some decoded ->
  strip decoded = 44 :: rest ->
  (exists toks, re_split_commas_spaces (strip decoded) = [] :: toks) /\
  token_of data = None /\
  handle_conn conn w = (Ok tt, after_recv conn w) /\
  count is_send (trace (handle_conn conn w).2) = count is_send (trace w).
Proof.
  intros Hrecv Hdec Hstrip.
  assert (Hsplit : exists toks, re_split_commas_spaces (strip decoded) = [] :: toks).
  { rewrite Hstrip. eexists. reflexivity. }
  assert (Htok : token_of data = None).
  { unfold token_of. rewrite Hdec. destruct Hsplit as [toks ->]. reflexivity. }
  assert (Hrun : handle_conn conn w = (Ok tt, after_recv conn w)).
  { rewrite handle_conn_run, Hrecv, Htok. destruct (bool_decide (data = [])); reflexivity. }
  repeat split; try assumption.
  rewrite Hrun. cbn [snd].
  unfold after_recv, after_settimeout. destruct w as [out on off dbg en tr].
  destruct (settimeout_raises conn); [destruct dbg|];
    unfold record_event; cbn [trace _DEBUG]; rewrite !count_app;
    cbn; lia.
Qed.

Lemma leading_comma_ignored_witness :
  NOTE_TO_NUM !! lit "C4" = Some 60 /\
  @handle_conn (quiet two_loops) usable_stderr comma_conn started_world =
  (Ok tt, after_recv comma_conn started_world).
Proof.
  split; [vm_compute; reflexivity|].
  exact (proj1 (proj2 (proj2
    (@leading_comma_ignored (quiet two_loops) comma_conn [44; 67; 52; 10]
       [44; 67; 52; 10] [67; 52] started_world eq_refl eq_refl eq_refl)))).
Defined.

(** ** The singleton guard and the bind that follows *)

Section GuardTheorems.
Context {Sur : Surroundings}.

Lemma after_stale_trace (w : world) :
  trace (after_stale w) = trace w ++ [EvProbe; EvRemove].
Proof.
  unfold after_stale. destruct (remove_raises _); simpl;
    rewrite <- app_assoc; reflexivity.
Qed.

Lemma after_stale_entry (w : world) :
  os_path_islink (sock_entry w) = false ->
  os_path_islink (sock_entry (after_stale w)) = false.
Proof.
  unfold after_stale. destruct (remove_raises _); simpl; auto.
Qed.

(** After the guard found a stale entry, the server's next call into the
    surroundings is [bind]. *)
Lemma socket_server_binds (incoming : list accept_outcome) (w : world) :
  os_path_exists (sock_entry w) = true ->
  os_path_islink (sock_entry w) = false ->
  sock_entry w <> SocketFile true ->
  exists rest, trace (_socket_server incoming w).2 =
               trace w ++ [EvProbe; EvRemove; EvBind] ++ rest.
Proof.
  intros Hex Hln Hdead. unfold _socket_server.
  unfold mbind at 1, prog_bind at 1. rewrite (guard_stale w Hex Hln Hdead).
  pose proof (after_stale_trace w) as Ht.
  pose proof (after_stale_entry w Hln) as Hl.
  set (w1 := after_stale w) in *.
  assert (Hgoal : forall w2 : world,
            (exists r, trace w2 = trace w1 ++ EvBind :: r) ->
            exists rest, trace w2 = trace w ++ [EvProbe; EvRemove; EvBind] ++ rest).
  { intros w2 [r Hr]. exists r. rewrite Hr, Ht, <- app_assoc. reflexivity. }
  apply Hgoal. clear Hgoal Ht.
  unfold mbind at 1, prog_bind at 1.
  unfold try_catch at 1, mbind at 1, prog_bind at 1.
  rewrite (abort_if_symlink_passes w1 Hl).
  unfold mbind at 1, prog_bind at 1, sock_bind.
  unfold os_chmod, call, _error, _log, event_, modify, mbind, prog_bind, sys_exit,
    raise, sock_listen.
  destruct (sock_entry w1) eqn:He, (bind_raises (trace w1)) eqn:Hb;
    try (eexists; cbn; rewrite <- ?app_assoc; reflexivity).
  cbn [trace set_sock_entry record_event].
  destruct (chmod_raises _);
    [eexists; cbn; rewrite <- ?app_assoc; reflexivity|].
  unfold mbind, prog_bind, event_, modify.
  cbn [sock_entry set_sock_entry record_event].
  match goal with |- context [accept_loop incoming ?w3] =>
    destruct (accept_loop_runs incoming w3) as [Hr [evs [Hevs _]]];
    destruct (accept_loop incoming w3) as [r w4] end.
  simpl in Hr, Hevs. subst r. cbn [snd]. rewrite Hevs.
  rewrite <- !app_assoc. eexists. reflexivity.
Qed.

(** C3, amended. When a filesystem entry that is not a symbolic link exists
    at the endpoint path, the guard probes it with a connection.  If the
    connection succeeds the process exits with status 0, having done nothing
    but the probe: the entry is as it was.  If the connection fails the
    guard calls [os.remove] on the entry (gone when the call succeeds; a
    failure is ignored) and returns, and the server goes on to [bind]. *)
Theorem singleton_guard_probes (w : world) :
  os_path_exists (sock_entry w) = true ->
  os_path_islink (sock_entry w) = false ->
  ((connect_probe w).1 = Ok tt ->
     _ensure_singleton_sock_or_exit w =
       (Raise (SystemExit 0), record_event EvProbe w) /\
     sock_entry (_ensure_singleton_sock_or_exit w).2 = sock_entry w) /\
  ((connect_probe w).1 <> Ok tt ->
     (_ensure_singleton_sock_or_exit w).1 = Ok tt /\
     trace (_ensure_singleton_sock_or_exit w).2 =
       trace w ++ [EvProbe; EvRemove] /\
     (remove_raises (trace w ++ [EvProbe]) = None ->
        sock_entry (_ensure_singleton_sock_or_exit w).2 = NoEntry) /\
     forall incoming, exists rest,
       trace (_socket_server incoming w).2 =
       trace w ++ [EvProbe; EvRemove; EvBind] ++ rest).
Proof.
  intros Hex Hln.
  assert (Hprobe : (connect_probe w).1 = Ok tt <-> sock_entry w = SocketFile true).
  { unfold connect_probe. destruct (sock_entry w) as [|t|[|]|]; simpl;
      split; congruence. }
  split.
  - intros Hc. apply Hprobe in Hc. rewrite (guard_alive w Hc).
    split; reflexivity.
  - intros Hc. assert (Hdead : sock_entry w <> SocketFile true)
      by (intros E; apply Hc, Hprobe, E).
    rewrite (guard_stale w Hex Hln Hdead).
    split; [reflexivity|]. split; [apply after_stale_trace|].
    split; [|intros incoming; apply socket_server_binds; assumption].
    intros Hrm. cbn [snd]. unfold after_stale. rewrite Hrm. reflexivity.
Qed.

End GuardTheorems.

(** A symbolic link at the endpoint path, even one to a live socket, is not
    probed: the guard logs an error and exits with status 1. *)
Lemma guard_refuses_symlink :
  os_path_exists (sock_entry symlink_world) = true /\
  (forall Sur : Surroundings,
     @_ensure_singleton_sock_or_exit Sur usable_stderr symlink_world =
     (Raise (SystemExit 1),
      record_event (EvLog ERROR MsgSockSymlink) symlink_world)).
Proof. split; reflexivity. Qed.

(** A stale socket file, then a live one. *)
Lemma singleton_guard_probes_witness :
  @_ensure_singleton_sock_or_exit (quiet []) usable_stderr (initial_world false (SocketFile true))
  = (Raise (SystemExit 0),
     record_event EvProbe (initial_world false (SocketFile true))) /\
  (@_ensure_singleton_sock_or_exit (quiet []) usable_stderr (initial_world false (SocketFile false))).1
  = Ok tt /\
  sock_entry (@_ensure_singleton_sock_or_exit (quiet []) usable_stderr
                (initial_world false (SocketFile false))).2 = NoEntry.
Proof.
  pose proof (@singleton_guard_probes (quiet [])
                (initial_world false (SocketFile true)) eq_refl eq_refl) as [Hlive _].
  pose proof (@singleton_guard_probes (quiet [])
                (initial_world false (SocketFile false)) eq_refl eq_refl) as [_ Hstale].
  split; [exact (proj1 (Hlive eq_refl))|].
  assert (Hne : (@connect_probe (initial_world false (SocketFile false))).1 <> Ok tt)
    by discriminate.
  destruct (Hstale Hne) as [H1 [_ [H3 _]]].
  split; [exact H1|exact (H3 eq_refl)].
Defined.

(** * More of the program *)

(** ** The note map *)

Lemma note_fold_lookup (l : list Z) (m : gmap pystr Z) (s : pystr) (v : Z) :
  foldl (fun m n => <[note_key n := n]> m) m l !! s = Some v ->
  (v ∈ l /\ note_key v = s) \/ m !! s = Some v.
Proof.
  revert m. induction l as [|a l IH]; intros m H; simpl in H; [auto|].
  apply IH in H as [[Hv Hk] | H].
  - left. split; [right; exact Hv|exact Hk].
  - destruct (decide (note_key a = s)) as [E|E].
    + rewrite <- E, lookup_insert_eq in H. injection H as <-.
      left. split; [left|exact E].
    + rewrite lookup_insert_ne in H by exact E. auto.
Qed.

Lemma note_table_complete :
  forallb (fun n => bool_decide (NOTE_TO_NUM !! note_key n = Some n))
          (seqZ 0 128) = true.
Proof. vm_compute. reflexivity. Qed.

(** X1. The note map is exactly the 128 names: a name is in it with number
    [n] if and only if [0 <= n < 128] and the name is the one the
    comprehension builds for [n]; no two numbers share a name. *)
Theorem note_table_exact (s : pystr) (n : Z) :
  NOTE_TO_NUM !! s = Some n <-> 0 <= n < 128 /\ s = note_key n.
Proof.
  split.
  - intros H. apply note_fold_lookup in H as [[Hn Hk] | H].
    + apply elem_of_seqZ in Hn. split; [lia|congruence].
    + rewrite lookup_empty in H. discriminate.
  - intros [Hn ->].
    pose proof note_table_complete as H.
    rewrite forallb_forall in H.
    assert (Hin : In n (seqZ 0 128))
      by (apply list_elem_of_In, elem_of_seqZ; lia).
    apply H, bool_decide_eq_true in Hin. exact Hin.
Qed.

(** ** Healing: what the variants are *)

Lemma first_seen_In (l : list pystr) (x : pystr) :
  In x (first_seen l) <-> In x l.
Proof.
  induction l as [|y l IH]; simpl; [tauto|].
  rewrite filter_In, IH, negb_true_iff, bool_decide_eq_false.
  destruct (decide (x = y)) as [->|E]; [tauto|].
  split; [tauto|]. intros [H|H]; [congruence|tauto].
Qed.

Lemma first_seen_NoDup (l : list pystr) : List.NoDup (first_seen l).
Proof.
  induction l as [|y l IH]; simpl; constructor.
  - rewrite filter_In, negb_true_iff, bool_decide_eq_false. tauto.
  - apply List.NoDup_filter, IH.
Qed.

Lemma first_seen_length (l : list pystr) :
  (length (first_seen l) <= length l)%nat.
Proof.
  induction l as [|y l IH]; simpl; [lia|].
  pose proof (List.filter_length_le
                (fun z => negb (bool_decide (z = y))) (first_seen l)). lia.
Qed.

Lemma candidate_sound (s c : pystr) (enc : legacy_enc) :
  candidate s enc = Some c ->
  c <> s /\ exists b, encode enc s = Some b /\ utf8_decode Strict b = Some c.
Proof.
  unfold candidate.
  destruct (encode enc s) as [b|] eqn:Eb; simpl; [|discriminate].
  destruct (utf8_decode Strict b) as [c'|] eqn:Ec; simpl; [|discriminate].
  destruct (bool_decide (c' = s)) eqn:E; [discriminate|].
  intros [= <-]. apply bool_decide_eq_false in E. eauto.
Qed.

Lemma variants_sound (s c : pystr) :
  In c (_variants_from_mojibake s) ->
  c <> s /\
  exists enc b, encode enc s = Some b /\ utf8_decode Strict b = Some c.
Proof.
  rewrite variants_candidates. unfold candidates. intros Hc.
  apply first_seen_In, list_elem_of_In, list_elem_of_omap in Hc.
  destruct Hc as [enc [_ Hc]].
  apply candidate_sound in Hc as [Hne [b Hb]]. eauto.
Qed.

(** X2. The variants of a name are at most three, pairwise different and
    different from the name, and each one is what the bytes of the name
    under cp1252, mac_roman or latin-1 read as strict UTF-8. *)
Theorem variants_from_mojibake_sound (s : pystr) :
  (length (_variants_from_mojibake s) <= 3)%nat /\
  List.NoDup (_variants_from_mojibake s) /\
  forall c, In c (_variants_from_mojibake s) ->
    c <> s /\
    exists enc b, encode enc s = Some b /\ utf8_decode Strict b = Some c.
Proof.
  split; [|split; [|apply variants_sound]];
    rewrite variants_candidates; unfold candidates.
  - etransitivity; [apply first_seen_length|].
    simpl. repeat (destruct (candidate s _)); simpl; lia.
  - apply first_seen_NoDup.
Qed.

Lemma first_kana_or_cjk_some (fixes : list pystr) (f : pystr) :
  first_kana_or_cjk fixes = Some f ->
  In f fixes /\ existsb is_kana_or_cjk f = true.
Proof.
  induction fixes as [|x fixes IH]; simpl; [discriminate|].
  destruct (existsb is_kana_or_cjk x) eqn:E.
  - intros [= <-]. auto.
  - intros H. apply IH in H. tauto.
Qed.

Lemma first_kana_or_cjk_none (fixes : list pystr) :
  first_kana_or_cjk fixes = None ->
  forall f, In f fixes -> existsb is_kana_or_cjk f = false.
Proof.
  induction fixes as [|x fixes IH]; simpl; [tauto|].
  destruct (existsb is_kana_or_cjk x) eqn:E; [discriminate|].
  intros H f [<-|Hf]; auto.
Qed.

(** X3. The display of a name is the name itself or one of its variants;
    it is the name itself exactly when the name is not suspect or has no
    variant; and when some variant holds a kana or CJK character, so does
    the display. *)
Theorem port_display_choice (s : pystr) :
  In (_port_display s) (s :: _variants_from_mojibake s) /\
  (_port_display s = s <->
   _looks_mojibake s = false \/ _variants_from_mojibake s = []) /\
  (_looks_mojibake s = true ->
   (exists c, In c (_variants_from_mojibake s) /\
              existsb is_kana_or_cjk c = true) ->
   existsb is_kana_or_cjk (_port_display s) = true).
Proof.
  pose proof (variants_sound s) as Hsound.
  unfold _port_display.
  destruct (_looks_mojibake s).
  - destruct (first_kana_or_cjk (_variants_from_mojibake s)) as [f|] eqn:Ef.
    + apply first_kana_or_cjk_some in Ef as [Hin Hk].
      split; [right; exact Hin|]. split; [|auto].
      split.
      * intros E. destruct (Hsound f Hin) as [Hne _]. contradiction.
      * intros [H|H]; [discriminate|]. rewrite H in Hin. destruct Hin.
    + destruct (_variants_from_mojibake s) as [|f0 fixes] eqn:Ev.
      * split; [left; reflexivity|]. split; [tauto|].
        intros _ [c [[] _]].
      * split; [right; left; reflexivity|]. split.
        -- split.
           ++ intros E. destruct (Hsound f0 (or_introl eq_refl)) as [Hne _].
              contradiction.
           ++ intros [H|H]; discriminate.
        -- intros _ [c [Hc Hk]].
           rewrite (first_kana_or_cjk_none _ Ef c Hc) in Hk. discriminate.
  - split; [left; reflexivity|]. split; [tauto|]. discriminate.
Qed.

(** ** Matching: what the filters keep *)

Lemma str_in_refl (x : pystr) : str_in x x = true.
Proof.
  assert (H : starts_with x x = true).
  { induction x as [|c x IH]; simpl; [reflexivity|].
    rewrite Z.eqb_refl, IH. reflexivity. }
  destruct x; simpl in *; [reflexivity|]. rewrite H. reflexivity.
Qed.

Lemma filter_sublist {A} (f : A -> bool) (l : list A) :
  sublist (List.filter f l) l.
Proof.
  induction l as [|x l IH]; simpl; [constructor|].
  destruct (f x); [apply sublist_skip|apply sublist_cons]; exact IH.
Qed.

Lemma filter_idem {A} (f : A -> bool) (l : list A) :
  List.filter f (List.filter f l) = List.filter f l.
Proof. apply filter_absorb. auto. Qed.

Section MatcherMore.
Context {R : PyRuntime}.

Lemma apply_filter_test (f : filter_spec) (recs : list port_record) :
  apply_filter f recs = (p ← filter_test f; Ok (List.filter p recs)).
Proof.
  destruct f as [|v|v]; cbn [apply_filter filter_test mbind result_bind].
  - rewrite filter_all by reflexivity. reflexivity.
  - unfold _filter_by_name. destruct (bool_decide (v = [])); cbn [orb].
    + rewrite filter_all by reflexivity. reflexivity.
    + reflexivity.
  - unfold _filter_by_regex. destruct (bool_decide (v = [])).
    + cbn [mbind result_bind]. rewrite filter_all by reflexivity. reflexivity.
    + destruct (_compile_regex v); reflexivity.
Qed.

(** X4. The filters only narrow: what [_filter_by_name] returns, and what
    [_filter_by_regex] returns when its pattern compiles, is a sublist of
    the records given, in their order; filtering the result again with the
    same query changes nothing. *)
Theorem filters_narrow (recs : list port_record) (q : pystr) :
  sublist (_filter_by_name recs q) recs /\
  _filter_by_name (_filter_by_name recs q) q = _filter_by_name recs q /\
  forall m, _filter_by_regex recs q = Ok m ->
    sublist m recs /\ _filter_by_regex m q = Ok m.
Proof.
  split; [|split].
  - unfold _filter_by_name. destruct (bool_decide (q = []));
      [reflexivity|apply filter_sublist].
  - unfold _filter_by_name. destruct (bool_decide (q = []));
      [reflexivity|apply filter_idem].
  - unfold _filter_by_regex. destruct (bool_decide (q = [])).
    + intros m [= <-]. split; reflexivity.
    + destruct (_compile_regex q) as [rx|e]; cbn [mbind result_bind];
        [|discriminate].
      intros m [= <-]. split; [apply filter_sublist|].
      rewrite filter_idem. reflexivity.
Qed.

Lemma record_nrms_fold (a : list pystr) (acc : gset pystr) (x : pystr) :
  x ∈ foldl (fun acc y => {[_norm y]} ∪ acc) acc a <->
  x ∈ acc \/ exists y, In y a /\ x = _norm y.
Proof.
  revert acc. induction a as [|z a IH]; intros acc; simpl.
  - split; [auto|]. intros [H|[y [[] _]]]. exact H.
  - rewrite IH, elem_of_union, elem_of_singleton. split.
    + intros [[->|H]|[y [Hy ->]]]; eauto.
    + intros [H|[y [[<-|Hy] ->]]]; eauto.
Qed.

Lemma record_nrms (o x : pystr) :
  x ∈ nrms (_record_for_port o) <->
  exists y, In y (o :: alts (_record_for_port o)) /\ x = _norm y.
Proof.
  unfold _record_for_port. cbn [nrms alts].
  rewrite record_nrms_fold, elem_of_singleton. split.
  - intros [->|[y [Hy ->]]]; [exists o|exists y]; simpl; auto.
  - intros [y [[<-|Hy] ->]]; eauto.
Qed.

Lemma record_for_port_inj (o o' : pystr) :
  _record_for_port o = _record_for_port o' -> o = o'.
Proof. intros H. apply (f_equal orig) in H. exact H. Qed.

(** X5. With a query that is not empty, [_filter_by_name] keeps the record
    of a port exactly when the normalized query occurs in the normalized
    name of the port or in the normalized form of one of its healed
    variants. *)
Theorem filter_by_name_keeps (ports : list pystr) (needle o : pystr) :
  needle <> [] ->
  (In (_record_for_port o)
      (_filter_by_name (List.map _record_for_port ports) needle) <->
   In o ports /\
   exists y, In y (o :: alts (_record_for_port o)) /\
             str_in (_norm needle) (_norm y) = true).
Proof.
  intros Hne. unfold _filter_by_name.
  rewrite bool_decide_eq_false_2 by exact Hne. cbv zeta.
  rewrite filter_In, in_map_iff, set_any_true. split.
  - intros [[o' [Ho' Hin]] [n [Hn Hs]]].
    apply record_for_port_inj in Ho'. subst o'. split; [exact Hin|].
    apply record_nrms in Hn as [y [Hy ->]]. eauto.
  - intros [Hin [y [Hy Hs]]]. split; [eauto|].
    exists (_norm y). split; [|exact Hs]. apply record_nrms. eauto.
Qed.

End MatcherMore.

Lemma filter_by_name_keeps_witness :
  In (@_record_for_port ascii_runtime (lit "Loop A"))
     (@_filter_by_name ascii_runtime
        (List.map (@_record_for_port ascii_runtime) two_loops) (lit "LOOP A")).
Proof.
  apply (@filter_by_name_keeps ascii_runtime two_loops (lit "LOOP A")
           (lit "Loop A")); [discriminate|].
  split; [left; reflexivity|].
  exists (lit "Loop A"). split; [left; reflexivity|vm_compute; reflexivity].
Defined.

(** ** Resolution: the two sections, no section, and the resolved name *)

Section ResolutionMore.
Context {R : PyRuntime}.

Lemma resolve_port_tests (ports : list pystr) (cfg : pyval)
  (md : list (pyval * pyval)) :
  midi_section cfg = Some md ->
  _resolve_port ports cfg =
  (p ← filter_test (section_filter (sub_section "device" md));
   q ← filter_test (section_filter (sub_section "port" md));
   Ok (outcome_of
         (List.map _record_for_port
            (List.filter (fun o => p (_record_for_port o) && q (_record_for_port o))
                         ports))
         (List.map _port_display ports))).
Proof.
  intros Hmd. rewrite (resolve_port_levels _ _ _ Hmd), !level_filter_spec.
  rewrite apply_filter_test.
  destruct (filter_test (section_filter (sub_section "device" md))) as [p|e];
    cbn [mbind result_bind]; [|reflexivity].
  rewrite level_filter_spec, apply_filter_test.
  destruct (filter_test (section_filter (sub_section "port" md))) as [q|e];
    cbn [mbind result_bind]; [|reflexivity].
  rewrite map_map. do 2 f_equal.
  induction ports as [|o ports IH]; simpl; [reflexivity|].
  destruct (p (_record_for_port o)); simpl; [|exact IH].
  destruct (q (_record_for_port o)); simpl; [|exact IH].
  rewrite IH. reflexivity.
Qed.

Lemma resolve_port_ok_midi (ports : list pystr) (cfg : pyval) (r : resolution) :
  _resolve_port ports cfg = Ok r -> exists md, midi_section cfg = Some md.
Proof.
  unfold _resolve_port, midi_section.
  destruct cfg as [| | | | | |d]; try discriminate.
  rewrite py_get_dict. cbn [mbind result_bind].
  destruct (dict_lookup (lit "midi") d) as [m|]; cbn [default from_option id];
    [|eauto].
  destruct m as [|b|n|x|s|l|md]; eauto; unfold py_or;
    destruct (truthy _) eqn:T; eauto; discriminate.
Qed.

(** X6. The device section and the port section are interchangeable: when
    resolution returns for a configuration, it returns the same for the
    configuration whose two sections are exchanged. *)
Theorem resolve_port_sections_swap (ports : list pystr) (cfg cfg' : pyval)
  (md md' : list (pyval * pyval)) (r : resolution) :
  midi_section cfg = Some md -> midi_section cfg' = Some md' ->
  sub_section "device" md' = sub_section "port" md ->
  sub_section "port" md' = sub_section "device" md ->
  _resolve_port ports cfg = Ok r -> _resolve_port ports cfg' = Ok r.
Proof.
  intros Hmd Hmd' Hd Hp.
  rewrite (resolve_port_tests _ _ _ Hmd), (resolve_port_tests _ _ _ Hmd'), Hd, Hp.
  destruct (filter_test (section_filter (sub_section "device" md))) as [p|e];
    destruct (filter_test (section_filter (sub_section "port" md))) as [q|e'];
    cbn [mbind result_bind]; try discriminate.
  intros <-. do 3 f_equal.
  apply List.filter_ext. intros o. apply andb_comm.
Qed.

(** X7. With no filter in either section (an empty configuration, for one)
    resolution succeeds exactly when the MIDI system offers one port, which
    it returns; otherwise it reports every port as matched. *)
Theorem resolve_port_unfiltered (ports : list pystr) (cfg : pyval)
  (md : list (pyval * pyval)) :
  midi_section cfg = Some md ->
  section_filter (sub_section "device" md) = NoFilter ->
  section_filter (sub_section "port" md) = NoFilter ->
  _resolve_port ports cfg =
  Ok (match ports with
      | [o] => (Some o, [_port_display o], [_port_display o])
      | _ => (None, List.map _port_display ports, List.map _port_display ports)
      end).
Proof.
  intros Hmd Hd Hp. rewrite (resolve_port_tests _ _ _ Hmd), Hd, Hp.
  cbn [filter_test mbind result_bind andb].
  rewrite filter_all by reflexivity.
  destruct ports as [|o [|o' ports]]; try reflexivity.
  unfold outcome_of. cbn [List.map]. rewrite !map_map. reflexivity.
Qed.

Lemma filter_single {A} (g : A -> bool) (l : list A) (x : A) :
  List.filter g l = [x] ->
  exists l1 l2, l = l1 ++ x :: l2 /\ g x = true /\
    (forall y, In y l1 -> g y = false) /\ (forall y, In y l2 -> g y = false).
Proof.
  induction l as [|a l IH]; simpl; [discriminate|].
  destruct (g a) eqn:Ea.
  - intros [= -> Hl]. exists [], l. repeat split; auto; [intros y []|].
    intros y Hy. destruct (g y) eqn:Ey; [|reflexivity].
    assert (Hin : In y (List.filter g l)) by (apply filter_In; auto).
    rewrite Hl in Hin. destruct Hin.
  - intros H. destruct (IH H) as (l1 & l2 & -> & Hx & H1 & H2).
    exists (a :: l1), l2. repeat split; auto.
    intros y [<-|Hy]; auto.
Qed.

Lemma index_of_app (o : pystr) (l1 l2 : list pystr) (i : nat) :
  ~ In o l1 -> index_of o (l1 ++ o :: l2) i = Some (i + length l1)%nat.
Proof.
  revert i. induction l1 as [|a l1 IH]; intros i Hn; simpl.
  - rewrite bool_decide_eq_true_2 by reflexivity. f_equal. lia.
  - rewrite bool_decide_eq_false_2 by (intros ->; apply Hn; left; reflexivity).
    rewrite IH by (intros H; apply Hn; right; exact H). f_equal. lia.
Qed.

(** X8. A name that resolution returns is the name of exactly one
    enumerated port: the list has it once, the displays returned are its
    own and the whole list's, and the index that [_open_midi_out] looks up
    in the same list is that of this port. *)
Theorem resolved_port_unique (ports : list pystr) (cfg : pyval) (o : pystr)
  (matched_disps all_disps : list pystr) :
  _resolve_port ports cfg = Ok (Some o, matched_disps, all_disps) ->
  matched_disps = [_port_display o] /\
  all_disps = List.map _port_display ports /\
  exists l1 l2, ports = l1 ++ o :: l2 /\ ~ In o l1 /\ ~ In o l2 /\
                index_of o ports 0 = Some (length l1).
Proof.
  intros H. destruct (resolve_port_ok_midi _ _ _ H) as [md Hmd].
  rewrite (resolve_port_tests _ _ _ Hmd) in H.
  destruct (filter_test (section_filter (sub_section "device" md))) as [p|e];
    cbn [mbind result_bind] in H; [|discriminate].
  destruct (filter_test (section_filter (sub_section "port" md))) as [q|e];
    cbn [mbind result_bind] in H; [|discriminate].
  set (g := fun o => p (_record_for_port o) && q (_record_for_port o)) in H.
  unfold outcome_of in H.
  destruct (List.filter g ports) as [|o' [|o'' rest]] eqn:Ef;
    cbn [List.map] in H; try discriminate.
  injection H as <- <- <-. cbn [_record_for_port orig disp].
  split; [reflexivity|]. split; [reflexivity|].
  destruct (filter_single g ports o' Ef) as (l1 & l2 & -> & Hg & H1 & H2).
  assert (N1 : ~ In o' l1) by (intros Hin; apply H1 in Hin; congruence).
  assert (N2 : ~ In o' l2) by (intros Hin; apply H2 in Hin; congruence).
  exists l1, l2. repeat split; auto.
  apply (index_of_app o' l1 l2 0 N1).
Qed.

End ResolutionMore.

Lemma resolve_port_sections_swap_witness :
  @_resolve_port ascii_runtime two_loops device_port_cfg =
    Ok (Some (lit "Loop A"), [lit "Loop A"], two_loops) /\
  @_resolve_port ascii_runtime two_loops port_device_cfg =
    Ok (Some (lit "Loop A"), [lit "Loop A"], two_loops).
Proof.
  assert (H : @_resolve_port ascii_runtime two_loops device_port_cfg =
              Ok (Some (lit "Loop A"), [lit "Loop A"], two_loops))
    by (vm_compute; reflexivity).
  split; [exact H|].
  exact (@resolve_port_sections_swap ascii_runtime two_loops device_port_cfg
           port_device_cfg _ _ _ eq_refl eq_refl eq_refl eq_refl H).
Defined.

Lemma resolve_port_unfiltered_witness :
  @_resolve_port ascii_runtime two_loops (PyDict []) =
    Ok (None, two_loops, two_loops) /\
  @_resolve_port ascii_runtime [lit "Loop A"] (PyDict []) =
    Ok (Some (lit "Loop A"), [lit "Loop A"], [lit "Loop A"]).
Proof.
  split.
  - exact (@resolve_port_unfiltered ascii_runtime two_loops (PyDict []) []
             eq_refl eq_refl eq_refl).
  - exact (@resolve_port_unfiltered ascii_runtime [lit "Loop A"] (PyDict []) []
             eq_refl eq_refl eq_refl).
Defined.

Lemma resolved_port_unique_witness :
  exists l1 l2, two_loops = l1 ++ lit "Loop A" :: l2 /\
    ~ In (lit "Loop A") l1 /\ ~ In (lit "Loop A") l2 /\
    index_of (lit "Loop A") two_loops 0 = Some (length l1).
Proof.
  assert (H : @_resolve_port ascii_runtime two_loops port_name_cfg =
              Ok (Some (lit "Loop A"), [lit "Loop A"], two_loops))
    by (vm_compute; reflexivity).
  exact (proj2 (proj2 (@resolved_port_unique ascii_runtime two_loops
                         port_name_cfg _ _ _ H))).
Defined.

(** ** What the server sends *)

Lemma note_number_range (s : pystr) (n : Z) :
  NOTE_TO_NUM !! s = Some n -> 0 <= n < 128.
Proof.
  intros H. apply note_fold_lookup in H as [[Hn _] | H].
  - apply elem_of_seqZ in Hn. lia.
  - rewrite lookup_empty in H. discriminate.
Qed.

Lemma sends_within_trans (k1 k2 : nat) (w w1 w2 : world) :
  sends_within k1 w w1 -> sends_within k2 w1 w2 ->
  sends_within (k1 + k2) w w2.
Proof.
  intros (On1 & Off1 & evs1 & T1 & C1 & M1) (On2 & Off2 & evs2 & T2 & C2 & M2).
  split; [congruence|]. split; [congruence|].
  exists (evs1 ++ evs2). rewrite T2, T1, <- app_assoc, count_app.
  split; [reflexivity|]. split; [lia|].
  intros msg Hin. apply in_app_or in Hin as [Hin|Hin]; [auto|].
  rewrite <- On1, <- Off1. auto.
Qed.

Lemma sends_within_quiet (w w' : world) (evs : list event) :
  _STATUS_ON w' = _STATUS_ON w -> _STATUS_OFF w' = _STATUS_OFF w ->
  trace w' = trace w ++ evs -> forallb (fun e => negb (is_send e)) evs = true ->
  sends_within 0 w w'.
Proof.
  intros On Off T Q. split; [exact On|]. split; [exact Off|].
  exists evs. split; [exact T|].
  rewrite forallb_forall in Q. split.
  - rewrite (count_none is_send (fun e => negb (is_send e))); [lia| |].
    + intros e. destruct (is_send e); [discriminate|reflexivity].
    + apply forallb_forall, Q.
  - intros msg Hin. apply Q in Hin. discriminate.
Qed.

Lemma sends_within_le (k k' : nat) (w w' : world) :
  (k <= k')%nat -> sends_within k w w' -> sends_within k' w w'.
Proof.
  intros Hk (On & Off & evs & T & C & M).
  split; [exact On|]. split; [exact Off|]. exists evs.
  split; [exact T|]. split; [lia|exact M].
Qed.

Section SendsFacts.
Context {Sur : Surroundings}.

Lemma send_note_sends (token : pystr) (w : world) :
  sends_within 2 w (_send_note token w).2.
Proof.
  destruct (NOTE_TO_NUM !! token) as [n|] eqn:Hn.
  - pose proof (note_number_range _ _ Hn) as Hr.
    destruct (_MIDIOUT w) as [h|] eqn:Hout.
    + assert (Hmsg : forall msg evs,
                (forall e, In e evs -> e = EvSend (note_on w n) \/
                                       e = EvSend (note_off w n) \/
                                       is_send e = false) ->
                In (EvSend msg) evs ->
                note_message (_STATUS_ON w) (_STATUS_OFF w) msg).
      { intros msg evs Hevs Hin. exists n. split; [exact Hr|].
        destruct (Hevs _ Hin) as [E|[E|E]]; [| |discriminate];
          injection E as ->; auto. }
      destruct (send_raises (trace w) (note_on w n)) as [e|] eqn:H1.
      * rewrite (send_note_on_fails _ n h _ e) by assumption.
        split; [reflexivity|]. split; [reflexivity|].
        exists [EvSend (note_on w n); EvLog WARN (MsgSendFailed token e);
                EvClosePort].
        split; [cbn; rewrite <- !app_assoc; reflexivity|].
        split; [cbn; lia|].
        intros msg. apply Hmsg. intros x [<-|[<-|[<-|[]]]]; auto.
      * destruct (send_raises (after_on w n) (note_off w n)) as [e|] eqn:H2.
        -- rewrite (send_note_off_fails _ n h _ e) by assumption.
           split; [reflexivity|]. split; [reflexivity|].
           exists [EvSend (note_on w n); EvSleep 50; EvSend (note_off w n);
                   EvLog WARN (MsgSendFailed token e); EvClosePort].
           split; [cbn; rewrite <- !app_assoc; reflexivity|].
           split; [cbn; lia|].
           intros msg. apply Hmsg.
           intros x [<-|[<-|[<-|[<-|[<-|[]]]]]]; auto.
        -- rewrite (send_note_sent _ n h) by assumption.
           split; [reflexivity|]. split; [reflexivity|].
           exists [EvSend (note_on w n); EvSleep 50; EvSend (note_off w n)].
           split; [cbn; rewrite <- !app_assoc; reflexivity|].
           split; [cbn; lia|].
           intros msg. apply Hmsg. intros x [<-|[<-|[<-|[]]]]; auto.
    + rewrite (send_note_no_handle _ n) by assumption.
      apply (sends_within_le 0); [lia|].
      apply (sends_within_quiet w w []); auto using app_nil_r.
  - rewrite send_note_unknown by exact Hn.
    apply (sends_within_le 0); [lia|]. destruct (_DEBUG w).
    + eapply (sends_within_quiet _ _ [_]); reflexivity.
    + apply (sends_within_quiet w w []); auto using app_nil_r.
Qed.

Lemma after_recv_sends (conn : connection) (w : world) :
  sends_within 0 w (after_recv conn w).
Proof.
  unfold after_recv, after_settimeout.
  destruct (settimeout_raises conn); [destruct (_DEBUG w)|];
    (eapply sends_within_quiet;
     [reflexivity|reflexivity|cbn; rewrite <- ?app_assoc; reflexivity|reflexivity]).
Qed.

Lemma handle_conn_sends (conn : connection) (w : world) :
  sends_within 2 w (handle_conn conn w).2.
Proof.
  rewrite handle_conn_run.
  pose proof (after_recv_sends conn w) as H0.
  assert (H2 : sends_within 2 w (after_recv conn w))
    by (apply (sends_within_le 0); [lia|exact H0]).
  destruct (recv conn) as [e|data]; [exact H2|].
  destruct (bool_decide (data = [])); [exact H2|].
  destruct (token_of data) as [token|]; [|exact H2].
  apply (sends_within_trans 0 2 _ _ _ H0), send_note_sends.
Qed.

Lemma serve_one_sends (a : accept_outcome) (w : world) :
  sends_within (if is_accepted a then 2 else 0) w (serve_one a w).2.
Proof.
  destruct a as [e|conn].
  - rewrite serve_one_accept_raises.
    eapply (sends_within_quiet _ _ [_; _]);
      [reflexivity|reflexivity|cbn; rewrite <- app_assoc; reflexivity|reflexivity].
  - rewrite serve_one_accepted. unfold with_conn.
    pose proof (handle_conn_sends conn (record_event EvAccept w)) as H.
    destruct (handle_conn conn (record_event EvAccept w)) as [r w1].
    cbn [snd] in *.
    assert (Ha : sends_within 0 w (record_event EvAccept w))
      by (eapply (sends_within_quiet _ _ [_]); reflexivity).
    assert (Hc : sends_within 0 w1 (record_event EvCloseConn w1))
      by (eapply (sends_within_quiet _ _ [_]); reflexivity).
    apply (sends_within_trans 0 2 _ _ _ Ha) in H.
    apply (sends_within_trans _ 0 _ _ _ H) in Hc. exact Hc.
Qed.

Lemma accept_loop_sends (incoming : list accept_outcome) (w : world) :
  sends_within (2 * length (List.filter is_accepted incoming)) w
               (accept_loop incoming w).2.
Proof.
  revert w. induction incoming as [|a incoming IH]; intros w.
  - apply (sends_within_quiet w w []); auto using app_nil_r.
  - cbn [accept_loop]. unfold mbind, prog_bind.
    pose proof (serve_one_sends a w) as H1.
    pose proof (proj1 (serve_one_round a w)) as Hr.
    destruct (serve_one a w) as [r w1]. cbn [fst snd] in *. subst r.
    pose proof (sends_within_trans _ _ _ _ _ H1 (IH w1)) as H.
    eapply sends_within_le; [|exact H].
    cbn [List.filter]. destruct (is_accepted a); simpl; lia.
Qed.

End SendsFacts.

(** X9. Whatever arrives, the accept loop never writes the status bytes and
    sends nothing but note messages built from them: every message handed
    to the MIDI output is [[_STATUS_ON, n, 127]] or [[_STATUS_OFF, n, 0]]
    with [0 <= n < 128], and there are at most two per accepted connection
    (one note). *)
Theorem server_sends_note_messages {Sur : Surroundings}
  (incoming : list accept_outcome) (w : world) :
  _STATUS_ON (accept_loop incoming w).2 = _STATUS_ON w /\
  _STATUS_OFF (accept_loop incoming w).2 = _STATUS_OFF w /\
  exists evs, trace (accept_loop incoming w).2 = trace w ++ evs /\
    (count is_send evs <= 2 * length (List.filter is_accepted incoming))%nat /\
    forall msg, In (EvSend msg) evs ->
      exists n, 0 <= n < 128 /\
        (msg = [_STATUS_ON w; n; 127] \/ msg = [_STATUS_OFF w; n; 0]).
Proof. apply accept_loop_sends. Qed.

(** ** Opening the port *)

Lemma index_of_some (p : pystr) (ports : list pystr) (i idx : nat) :
  index_of p ports i = Some idx ->
  (i <= idx)%nat /\ ports !! (idx - i)%nat = Some p /\
  forall j, (j < idx - i)%nat -> ports !! j <> Some p.
Proof.
  revert i. induction ports as [|q ports IH]; intros i; simpl; [discriminate|].
  destruct (bool_decide (q = p)) eqn:E.
  - intros [= <-]. apply bool_decide_eq_true in E. subst q.
    rewrite Nat.sub_diag. split; [lia|]. split; [reflexivity|]. intros j Hj. lia.
  - intros H. apply IH in H as (Hle & Hl & Hf).
    apply bool_decide_eq_false in E.
    split; [lia|]. replace (idx - i)%nat with (S (idx - S i)) by lia.
    split; [exact Hl|]. intros [|j] Hj; simpl; [congruence|].
    apply Hf. lia.
Qed.

Lemma index_of_none (p : pystr) (ports : list pystr) (i : nat) :
  index_of p ports i = None -> ~ In p ports.
Proof.
  revert i. induction ports as [|q ports IH]; intros i; simpl; [tauto|].
  destruct (bool_decide (q = p)) eqn:E; [discriminate|].
  apply bool_decide_eq_false in E. intros H [Hq|Hin]; [congruence|].
  exact (IH _ H Hin).
Qed.

Section OpenFacts.
Context {Sur : Surroundings}.

Lemma open_midi_out_run (port_name : pystr) (w : world) :
  _open_midi_out port_name w =
  match midiout_raises (trace w) with
  | Some e => (Ok false, open_aborted false e w)
  | None =>
    match list_ports (trace w) with
    | inl e => (Ok false, open_aborted true e w)
    | inr ports =>
      match index_of port_name ports 0 with
      | None => (Ok false, w)
      | Some idx =>
        match open_port_raises (trace w) idx with
        | Some e => (Ok false, open_aborted true e (record_event (EvOpenPort idx) w))
        | None => (Ok true, opened idx w)
        end
      end
    end
  end.
Proof.
  destruct w as [out on off dbg en tr].
  unfold _open_midi_out, open_failed, opened, open_aborted, try_catch,
    new_midiout, get_ports, mbind, prog_bind, call, close_port, _debug, _error,
    _log, event_, modify, get_world. simpl.
  destruct (midiout_raises tr) as [e|]; simpl; [reflexivity|].
  destruct (list_ports tr) as [e|ports]; simpl.
  - unfold call. simpl. destruct (close_port_raises _); reflexivity.
  - destruct (index_of port_name ports 0) as [idx|]; simpl; [|reflexivity].
    destruct (open_port_raises tr idx) as [e|]; simpl.
    + unfold call. simpl. destruct (close_port_raises _); reflexivity.
    + destruct dbg; reflexivity.
Qed.

End OpenFacts.

(** X10. What [_open_midi_out] does, case by case.  It answers [True]
    when creating the output, enumerating and [open_port] all return, the
    name is listed and, with debugging on, the debug line is written; the
    handle then holds the first index at which the list has the name.  When
    the name is not listed it answers [False] and leaves the world, the old
    handle included, as it was.  After an exception it writes the error
    line, closes the port if the output had been created, clears the handle
    and answers [False].  It raises only when that error line cannot be
    written, leaving the world as it was at that moment; with a usable
    STDERR it never raises. *)
Theorem open_midi_out_outcome {Sur : Surroundings} (Err : Stderr)
    (port_name : pystr) (w : world) :
  let handled (m_assigned : bool) (e : exception) (w1 : world) :=
    match stderr_raises (trace w1) ERROR (MsgOpenException e) with
    | None => (Ok false, open_aborted m_assigned e w1)
    | Some e' => (Raise (Exception e'), w1)
    end in
  let r := @_open_midi_out Sur Err port_name w in
  r =
  match midiout_raises (trace w) with
  | Some e => handled false e w
  | None =>
    match list_ports (trace w) with
    | inl e => handled true e w
    | inr ports =>
      match index_of port_name ports 0 with
      | None => (Ok false, w)
      | Some idx =>
        let w1 := record_event (EvOpenPort idx) w in
        match open_port_raises (trace w) idx with
        | Some e => handled true e w1
        | None =>
          let w2 := set_MIDIOUT (Some {| port_index := idx |}) w1 in
          if _DEBUG w then
            match stderr_raises (trace w2) DEBUG (MsgOpened idx) with
            | None => (Ok true, record_event (EvLog DEBUG (MsgOpened idx)) w2)
            | Some e => handled true e w2
            end
          else (Ok true, w2)
        end
      end
    end
  end /\
  (r.1 = Ok true ->
     exists ports idx,
       list_ports (trace w) = inr ports /\
       ports !! idx = Some port_name /\
       (forall j, (j < idx)%nat -> ports !! j <> Some port_name) /\
       _MIDIOUT r.2 = Some {| port_index := idx |}) /\
  (stderr_usable Err -> exists b, r.1 = Ok b).
Proof.
  cbv zeta.
  assert (Hrun :
    @_open_midi_out Sur Err port_name w =
    match midiout_raises (trace w) with
    | Some e =>
      match stderr_raises (trace w) ERROR (MsgOpenException e) with
      | None => (Ok false, open_aborted false e w)
      | Some e' => (Raise (Exception e'), w)
      end
    | None =>
      match list_ports (trace w) with
      | inl e =>
        match stderr_raises (trace w) ERROR (MsgOpenException e) with
        | None => (Ok false, open_aborted true e w)
        | Some e' => (Raise (Exception e'), w)
        end
      | inr ports =>
        match index_of port_name ports 0 with
        | None => (Ok false, w)
        | Some idx =>
          match open_port_raises (trace w) idx with
          | Some e =>
            match stderr_raises (trace (record_event (EvOpenPort idx) w))
                    ERROR (MsgOpenException e) with
            | None =>
              (Ok false,
               open_aborted true e (record_event (EvOpenPort idx) w))
            | Some e' =>
              (Raise (Exception e'), record_event (EvOpenPort idx) w)
            end
          | None =>
            if _DEBUG w then
              match stderr_raises
                      (trace (set_MIDIOUT (Some {| port_index := idx |})
                                (record_event (EvOpenPort idx) w)))
                      DEBUG (MsgOpened idx) with
              | None =>
                (Ok true,
                 record_event (EvLog DEBUG (MsgOpened idx))
                   (set_MIDIOUT (Some {| port_index := idx |})
                      (record_event (EvOpenPort idx) w)))
              | Some e =>
                match stderr_raises
                        (trace (set_MIDIOUT (Some {| port_index := idx |})
                                  (record_event (EvOpenPort idx) w)))
                        ERROR (MsgOpenException e) with
                | None =>
                  (Ok false,
                   open_aborted true e
                     (set_MIDIOUT (Some {| port_index := idx |})
                        (record_event (EvOpenPort idx) w)))
                | Some e' =>
                  (Raise (Exception e'),
                   set_MIDIOUT (Some {| port_index := idx |})
                     (record_event (EvOpenPort idx) w))
                end
              end
            else (Ok true,
                  set_MIDIOUT (Some {| port_index := idx |})
                    (record_event (EvOpenPort idx) w))
          end
        end
      end
    end).
  { destruct w as [out on off dbg en tr].
    unfold _open_midi_out, open_failed, open_aborted, _debug, _error, _log,
      close_port, call, new_midiout, get_ports, try_catch, get_world, modify,
      mret, prog_ret, mbind, prog_bind.
    simpl.
    destruct (midiout_raises tr) as [e|]; simpl.
    { destruct (stderr_raises tr ERROR _); reflexivity. }
    destruct (list_ports tr) as [e|ports]; simpl.
    { destruct (stderr_raises tr ERROR _); simpl; [reflexivity|].
      unfold call; simpl; destruct (close_port_raises _); reflexivity. }
    destruct (index_of port_name ports 0) as [idx|]; simpl; [|reflexivity].
    destruct (open_port_raises tr idx) as [e|]; simpl.
    { destruct (stderr_raises _ ERROR _); simpl; [reflexivity|].
      unfold call; simpl; destruct (close_port_raises _); reflexivity. }
    destruct dbg; simpl; [|reflexivity].
    destruct (stderr_raises _ DEBUG _) as [e|]; simpl; [|reflexivity].
    destruct (stderr_raises _ ERROR _); simpl; [reflexivity|].
    unfold call; simpl; destruct (close_port_raises _); reflexivity. }
  split; [exact Hrun|]. rewrite Hrun. clear Hrun. split.
  - intros Htrue.
    destruct (midiout_raises (trace w)) as [e|];
      [destruct (stderr_raises _ _ _); discriminate|].
    destruct (list_ports (trace w)) as [e|ports];
      [destruct (stderr_raises _ _ _); discriminate|].
    destruct (index_of port_name ports 0) as [idx|] eqn:Ei; [|discriminate].
    apply index_of_some in Ei as (_ & Hl & Hf). rewrite Nat.sub_0_r in Hl, Hf.
    exists ports, idx. split; [reflexivity|]. split; [exact Hl|].
    split; [exact Hf|].
    destruct (open_port_raises (trace w) idx) as [e|];
      [destruct (stderr_raises _ _ _); discriminate|].
    destruct (_DEBUG w); [|reflexivity].
    destruct (stderr_raises _ DEBUG _); [|reflexivity].
    destruct (stderr_raises _ ERROR _); discriminate.
  - intros Hu.
    destruct (midiout_raises (trace w)); [rewrite Hu; eauto|].
    destruct (list_ports (trace w)); [rewrite Hu; eauto|].
    destruct (index_of port_name _ 0); [|eauto].
    destruct (open_port_raises (trace w) _); [rewrite Hu; eauto|].
    destruct (_DEBUG w); [rewrite Hu|]; eauto.
Qed.

(** ** The guard, the bind and Quit *)

Section LifecycleFacts.
Context {Sur : Surroundings}.

Lemma guard_run (w : world) :
  _ensure_singleton_sock_or_exit w =
  match sock_entry w with
  | Symlink _ => (Raise (SystemExit 1), record_event (EvLog ERROR MsgSockSymlink) w)
  | NoEntry => (Ok tt, w)
  | SocketFile true => (Raise (SystemExit 0), record_event EvProbe w)
  | _ => (Ok tt, after_stale w)
  end.
Proof.
  destruct (sock_entry w) as [|t|[|]|] eqn:E.
  - destruct w; simpl in E; subst. reflexivity.
  - destruct w; simpl in E; subst. reflexivity.
  - apply guard_alive, E.
  - apply guard_stale; rewrite E; (reflexivity || discriminate).
  - apply guard_stale; rewrite E; (reflexivity || discriminate).
Qed.

Lemma send_note_entry (token : pystr) (w : world) :
  sock_entry (_send_note token w).2 = sock_entry w.
Proof.
  destruct (NOTE_TO_NUM !! token) as [n|] eqn:Hn.
  - destruct (_MIDIOUT w) as [h|] eqn:Hout.
    + destruct (send_raises (trace w) (note_on w n)) as [e|] eqn:H1;
        [rewrite (send_note_on_fails _ n h _ e) by assumption; reflexivity|].
      destruct (send_raises (after_on w n) (note_off w n)) as [e|] eqn:H2;
        [rewrite (send_note_off_fails _ n h _ e) by assumption; reflexivity|].
      rewrite (send_note_sent _ n h) by assumption. reflexivity.
    + rewrite (send_note_no_handle _ n) by assumption. reflexivity.
  - rewrite send_note_unknown by exact Hn. destruct (_DEBUG w); reflexivity.
Qed.

Lemma after_recv_entry (conn : connection) (w : world) :
  sock_entry (after_recv conn w) = sock_entry w.
Proof.
  unfold after_recv, after_settimeout.
  destruct (settimeout_raises conn); [destruct (_DEBUG w)|]; reflexivity.
Qed.

Lemma handle_conn_entry (conn : connection) (w : world) :
  sock_entry (handle_conn conn w).2 = sock_entry w.
Proof.
  rewrite handle_conn_run.
  destruct (recv conn) as [e|data]; [apply after_recv_entry|].
  destruct (bool_decide (data = [])); [apply after_recv_entry|].
  destruct (token_of data) as [token|]; [|apply after_recv_entry].
  rewrite send_note_entry. apply after_recv_entry.
Qed.

Lemma serve_one_entry (a : accept_outcome) (w : world) :
  sock_entry (serve_one a w).2 = sock_entry w.
Proof.
  destruct a as [e|conn]; [reflexivity|].
  rewrite serve_one_accepted. unfold with_conn.
  pose proof (handle_conn_entry conn (record_event EvAccept w)) as H.
  destruct (handle_conn conn (record_event EvAccept w)) as [r w1].
  exact H.
Qed.

Lemma accept_loop_entry (incoming : list accept_outcome) (w : world) :
  sock_entry (accept_loop incoming w).2 = sock_entry w.
Proof.
  revert w. induction incoming as [|a incoming IH]; intros w; [reflexivity|].
  cbn [accept_loop]. unfold mbind, prog_bind.
  pose proof (proj1 (serve_one_round a w)) as Hr.
  pose proof (serve_one_entry a w) as He.
  destruct (serve_one a w) as [r w1]. cbn [fst snd] in *. subst r.
  rewrite IH. exact He.
Qed.

(** What the server does once the guard has returned. *)
Lemma socket_server_after_guard (incoming : list accept_outcome) (w w1 : world) :
  _ensure_singleton_sock_or_exit w = (Ok tt, w1) ->
  os_path_islink (sock_entry w1) = false ->
  _socket_server incoming w =
  match sock_entry w1, bind_raises (trace w1) with
  | NoEntry, None =>
    match chmod_raises (trace w1 ++ [EvBind]) with
    | None => accept_loop incoming (listening w1)
    | Some e =>
      (Raise (SystemExit 1),
       bind_failed e (record_event (EvChmod 384)
                        (set_sock_entry (SocketFile false)
                           (record_event EvBind w1))))
    end
  | NoEntry, Some e =>
    (Raise (SystemExit 1), bind_failed e (record_event EvBind w1))
  | _, _ => (Raise (SystemExit 1), bind_failed OSError (record_event EvBind w1))
  end.
Proof.
  intros Hg Hl. unfold _socket_server.
  unfold mbind at 1, prog_bind at 1. rewrite Hg.
  unfold mbind at 1, prog_bind at 1.
  unfold try_catch at 1, mbind at 1, prog_bind at 1.
  rewrite (abort_if_symlink_passes w1 Hl).
  unfold mbind at 1, prog_bind at 1, sock_bind.
  unfold os_chmod, call, _error, _log, event_, modify, mbind, prog_bind, sys_exit,
    raise, sock_listen, listening, bind_failed.
  destruct (sock_entry w1) eqn:He, (bind_raises (trace w1)) eqn:Hb;
    try reflexivity.
  cbn [trace set_sock_entry record_event].
  destruct (chmod_raises _); reflexivity.
Qed.

End LifecycleFacts.

(** X11. The guard has three outcomes, decided by what is at the socket
    path: with a symbolic link there (dangling or not) it logs one error and
    exits with status 1, leaving the link; with a socket a live server
    answers on it exits with status 0; in every other case it returns, and
    it has done nothing at all when the path is free.  [os.remove] is
    called only on an entry whose probe failed. *)
Theorem singleton_guard_outcomes {Sur : Surroundings} (w : world) :
  ((_ensure_singleton_sock_or_exit w).1 = Raise (SystemExit 1) <->
     os_path_islink (sock_entry w) = true) /\
  ((_ensure_singleton_sock_or_exit w).1 = Raise (SystemExit 0) <->
     sock_entry w = SocketFile true) /\
  ((_ensure_singleton_sock_or_exit w).1 = Ok tt <->
     os_path_islink (sock_entry w) = false /\ sock_entry w <> SocketFile true) /\
  (sock_entry w = NoEntry -> _ensure_singleton_sock_or_exit w = (Ok tt, w)) /\
  (os_path_islink (sock_entry w) = true ->
     (_ensure_singleton_sock_or_exit w).2 =
       record_event (EvLog ERROR MsgSockSymlink) w) /\
  exists evs, trace (_ensure_singleton_sock_or_exit w).2 = trace w ++ evs /\
    (In EvRemove evs ->
       evs = [EvProbe; EvRemove] /\ os_path_islink (sock_entry w) = false /\
       os_path_exists (sock_entry w) = true /\ sock_entry w <> SocketFile true).
Proof.
  rewrite guard_run.
  destruct (sock_entry w) as [|t|[|]|] eqn:E; cbn [fst snd os_path_islink
    os_path_exists].
  - repeat split; try discriminate; try congruence; auto.
    exists []. rewrite app_nil_r. split; [reflexivity|]. intros [].
  - repeat split; try discriminate; try congruence; auto.
    + intros [H _]. discriminate.
    + exists [EvLog ERROR MsgSockSymlink]. split; [reflexivity|].
      intros [H|[]]. discriminate.
  - repeat split; try discriminate; try congruence; auto.
    + intros [_ H]. congruence.
    + exists [EvProbe]. split; [reflexivity|]. intros [H|[]]. discriminate.
  - repeat split; try discriminate; try congruence; auto.
    exists [EvProbe; EvRemove]. split; [apply after_stale_trace|].
    intros _. repeat split; (reflexivity || discriminate).
  - repeat split; try discriminate; try congruence; auto.
    exists [EvProbe; EvRemove]. split; [apply after_stale_trace|].
    intros _. repeat split; (reflexivity || discriminate).
Qed.

Section ServerOutcomes.
Context {Sur : Surroundings} {R : PyRuntime}.

Lemma listening_trace (w : world) :
  trace (listening w) = trace w ++ [EvBind; EvChmod 384; EvListen 8].
Proof. simpl. rewrite <- !app_assoc. reflexivity. Qed.

Lemma socket_server_guard_exits (incoming : list accept_outcome) (w w1 : world)
    (e : exn) :
  _ensure_singleton_sock_or_exit w = (Raise e, w1) ->
  _socket_server incoming w = (Raise e, w1).
Proof.
  intros H. unfold _socket_server, mbind at 1, prog_bind at 1. rewrite H.
  reflexivity.
Qed.

(** The server from the bind on, [pre] being what the guard recorded. *)
Lemma socket_server_from (incoming : list accept_outcome) (w w1 : world)
    (pre : list event) :
  _ensure_singleton_sock_or_exit w = (Ok tt, w1) ->
  os_path_islink (sock_entry w1) = false ->
  trace w1 = trace w ++ pre ->
  count is_accept pre = 0%nat ->
  ~ In (EvListen 8) pre ->
  let r := _socket_server incoming w in
  (r.1 = Ok tt \/ r.1 = Raise (SystemExit 1)) /\
  (r.1 = Ok tt ->
     sock_entry w1 = NoEntry /\ sock_entry r.2 = SocketFile true /\
     exists loop,
       trace r.2 = trace w ++ pre ++ [EvBind; EvChmod 384; EvListen 8] ++ loop /\
       count is_accept loop = length incoming) /\
  (r.1 <> Ok tt ->
     exists evs, trace r.2 = trace w ++ evs /\
       count is_accept evs = 0%nat /\ ~ In (EvListen 8) evs).
Proof.
  intros Hg Hl Ht Hc Hn r. subst r.
  rewrite (socket_server_after_guard incoming w w1 Hg Hl).
  assert (Hfail : forall tail : list event,
            count is_accept tail = 0%nat -> ~ In (EvListen 8) tail ->
            exists evs, trace w ++ pre ++ tail = trace w ++ evs /\
              count is_accept evs = 0%nat /\ ~ In (EvListen 8) evs).
  { intros tail H1 H2. exists (pre ++ tail).
    split; [reflexivity|]. rewrite count_app, Hc, H1. split; [reflexivity|].
    intros Hin. apply in_app_or in Hin. tauto. }
  assert (Hbind : forall e,
            let r := (Raise (SystemExit 1) : result unit,
                      bind_failed e (record_event EvBind w1)) in
            (r.1 = Ok tt \/ r.1 = Raise (SystemExit 1)) /\
            (r.1 = Ok tt ->
               sock_entry w1 = NoEntry /\ sock_entry r.2 = SocketFile true /\
               exists loop,
                 trace r.2 =
                   trace w ++ pre ++ [EvBind; EvChmod 384; EvListen 8] ++ loop /\
                 count is_accept loop = length incoming) /\
            (r.1 <> Ok tt ->
               exists evs, trace r.2 = trace w ++ evs /\
                 count is_accept evs = 0%nat /\ ~ In (EvListen 8) evs)).
  { intros e. cbn [fst snd]. split; [right; reflexivity|].
    split; [discriminate|]. intros _.
    unfold bind_failed, record_event. cbn [trace]. rewrite Ht, <- !app_assoc.
    apply Hfail; [reflexivity|]. simpl. intros [H|[H|[]]]; discriminate. }
  destruct (sock_entry w1) eqn:He, (bind_raises (trace w1)) eqn:Hb;
    try apply Hbind.
  destruct (chmod_raises (trace w1 ++ [EvBind])) as [e|] eqn:Hch.
  - cbn [fst snd]. split; [right; reflexivity|].
    split; [discriminate|]. intros _.
    unfold bind_failed, record_event, set_sock_entry. cbn [trace].
    rewrite Ht, <- !app_assoc.
    apply Hfail; [reflexivity|]. simpl. intros [H|[H|[H|[]]]]; discriminate.
  - destruct (accept_loop_runs incoming (listening w1)) as [Hr [evs [Hevs [Ha _]]]].
    pose proof (accept_loop_entry incoming (listening w1)) as Hentry.
    split; [left; exact Hr|]. split; [|intros H; contradiction].
    intros _. split; [reflexivity|]. split; [rewrite Hentry; reflexivity|].
    exists evs. rewrite Hevs, listening_trace, Ht, <- !app_assoc.
    split; [reflexivity|exact Ha].
Qed.

End ServerOutcomes.

(** X12. The socket server ends in one of three ways only: it raises
    [SystemExit(0)] exactly when a live server already answers on the socket
    path, it raises [SystemExit(1)], or it serves.  When it serves, the path
    was free after the guard, the socket is bound, restricted to mode 0600
    and listening (backlog 8) in this order before the first [accept], and
    one [accept] is made per round; the guard before it did nothing or
    probed and removed a stale entry.  When it does not serve, it has
    neither listened nor accepted anything. *)
Theorem socket_server_outcomes {Sur : Surroundings} {R : PyRuntime}
    (incoming : list accept_outcome) (w : world) :
  let r := _socket_server incoming w in
  (r.1 = Ok tt \/ r.1 = Raise (SystemExit 0) \/ r.1 = Raise (SystemExit 1)) /\
  (r.1 = Raise (SystemExit 0) <-> sock_entry w = SocketFile true) /\
  (os_path_islink (sock_entry w) = true -> r.1 = Raise (SystemExit 1)) /\
  (r.1 = Ok tt ->
     sock_entry r.2 = SocketFile true /\
     exists pre loop,
       (pre = [] \/ pre = [EvProbe; EvRemove]) /\
       trace r.2 = trace w ++ pre ++ [EvBind; EvChmod 384; EvListen 8] ++ loop /\
       count is_accept loop = length incoming) /\
  (r.1 <> Ok tt ->
     exists evs, trace r.2 = trace w ++ evs /\
       count is_accept evs = 0%nat /\ ~ In (EvListen 8) evs).
Proof.
  intros r. subst r.
  pose proof (guard_run w) as Hg.
  assert (Hstale : os_path_islink (sock_entry w) = false ->
            _ensure_singleton_sock_or_exit w = (Ok tt, after_stale w) ->
            sock_entry w <> SocketFile true ->
            let r := _socket_server incoming w in
            (r.1 = Ok tt \/ r.1 = Raise (SystemExit 0) \/
             r.1 = Raise (SystemExit 1)) /\
            (r.1 = Raise (SystemExit 0) <-> sock_entry w = SocketFile true) /\
            (os_path_islink (sock_entry w) = true ->
             r.1 = Raise (SystemExit 1)) /\
            (r.1 = Ok tt ->
               sock_entry r.2 = SocketFile true /\
               exists pre loop,
                 (pre = [] \/ pre = [EvProbe; EvRemove]) /\
                 trace r.2 =
                   trace w ++ pre ++ [EvBind; EvChmod 384; EvListen 8] ++ loop /\
                 count is_accept loop = length incoming) /\
            (r.1 <> Ok tt ->
               exists evs, trace r.2 = trace w ++ evs /\
                 count is_accept evs = 0%nat /\ ~ In (EvListen 8) evs)).
  { intros Hl Hrun Hlive.
    destruct (socket_server_from incoming w (after_stale w) [EvProbe; EvRemove]
                Hrun (after_stale_entry w Hl) (after_stale_trace w) eq_refl)
      as [H1 [H2 H3]].
    { simpl. intros [H|[H|[]]]; discriminate. }
    cbn zeta. split; [tauto|]. split.
    { split; [|intros H; contradiction].
      intros H. destruct H1 as [H1|H1]; rewrite H1 in H; discriminate. }
    split; [rewrite Hl; discriminate|]. split; [|exact H3].
    intros Hok. destruct (H2 Hok) as [_ [Hb [loop [Ht Ha]]]].
    split; [exact Hb|]. exists [EvProbe; EvRemove], loop. auto. }
  destruct (sock_entry w) as [|t|[|]|] eqn:E.
  - destruct (socket_server_from incoming w w [] Hg) as [H1 [H2 H3]];
      [rewrite E; reflexivity|symmetry; apply app_nil_r|reflexivity|intros []|].
    cbn zeta. split; [tauto|]. split.
    { split; [|discriminate].
      intros H. destruct H1 as [H1|H1]; rewrite H1 in H; discriminate. }
    split; [discriminate|]. split; [|exact H3].
    intros Hok. destruct (H2 Hok) as [_ [Hb [loop [Ht Ha]]]].
    split; [exact Hb|]. exists [], loop. auto.
  - rewrite (socket_server_guard_exits incoming w _ _ Hg).
    cbn [fst snd]. split; [auto|]. split; [split; discriminate|].
    split; [reflexivity|]. split; [discriminate|]. intros _.
    exists [EvLog ERROR MsgSockSymlink]. split; [reflexivity|].
    split; [reflexivity|]. intros [H|[]]; discriminate.
  - rewrite (socket_server_guard_exits incoming w _ _ Hg).
    cbn [fst snd]. split; [auto|]. split; [split; reflexivity|].
    split; [discriminate|]. split; [discriminate|]. intros _.
    exists [EvProbe]. split; [reflexivity|].
    split; [reflexivity|]. intros [H|[]]; discriminate.
  - apply Hstale; [reflexivity|exact Hg|discriminate].
  - apply Hstale; [reflexivity|exact Hg|discriminate].
Qed.

Lemma close_midi_out_run {Sur : Surroundings} (w : world) :
  _close_midi_out w = (Ok tt, closed w).
Proof.
  unfold _close_midi_out, closed, mbind, prog_bind, get_world.
  destruct (_MIDIOUT w) as [h|] eqn:E; [|reflexivity].
  unfold try_catch, close_port, call, modify. simpl.
  destruct (close_port_raises _); reflexivity.
Qed.

Lemma quit_run {Sur : Surroundings} (w : world) :
  _quit w =
  (Ok tt, closed (if os_path_exists (sock_entry w) then removal_tried w else w)).
Proof.
  unfold _quit, mbind at 1, prog_bind at 1.
  assert (H : try_catch
                (w0 ← get_world;
                 if os_path_exists (sock_entry w0) then os_remove else mret tt)
                (fun _ => mret tt) w =
              (Ok tt, if os_path_exists (sock_entry w) then removal_tried w
                      else w)).
  { unfold try_catch, mbind, prog_bind, get_world, os_remove, removal_tried.
    destruct (os_path_exists (sock_entry w)); [|reflexivity].
    destruct (remove_raises (trace w)); reflexivity. }
  rewrite H. apply close_midi_out_run.
Qed.

(** X13. Quit never raises: it removes the socket path when something
    exists there, ignoring a failure of the removal, then closes the output
    port if one is open, and leaves no handle behind.  The path is free
    afterwards exactly when it was free before or the removal succeeded (a
    dangling symbolic link does not exist for [os.path.exists] and stays);
    when it is free, the guard of the next start passes without probing. *)
Theorem quit_cleans_up {Sur : Surroundings} (w : world) :
  (_quit w).1 = Ok tt /\
  _MIDIOUT (_quit w).2 = None /\
  trace (_quit w).2 =
    trace w ++ (if os_path_exists (sock_entry w) then [EvRemove] else [])
            ++ (match _MIDIOUT w with Some _ => [EvClosePort] | None => [] end) /\
  (sock_entry (_quit w).2 = NoEntry <->
     sock_entry w = NoEntry \/
     os_path_exists (sock_entry w) = true /\ remove_raises (trace w) = None) /\
  (sock_entry (_quit w).2 <> NoEntry -> sock_entry (_quit w).2 = sock_entry w) /\
  (sock_entry (_quit w).2 = NoEntry ->
     _ensure_singleton_sock_or_exit (_quit w).2 = (Ok tt, (_quit w).2)).
Proof.
  split; [rewrite quit_run; reflexivity|].
  assert (Hguard : sock_entry (_quit w).2 = NoEntry ->
            _ensure_singleton_sock_or_exit (_quit w).2 = (Ok tt, (_quit w).2)).
  { intros H. rewrite guard_run, H. reflexivity. }
  revert Hguard. rewrite quit_run. cbn [fst snd]. intros Hguard.
  destruct w as [out on off dbg en tr]. unfold closed, removal_tried in *.
  cbn [sock_entry trace _MIDIOUT] in *.
  destruct en as [|[|]|l|]; cbn [os_path_exists] in *;
    try destruct (remove_raises tr) eqn:Hrm;
    destruct out; cbn [sock_entry trace _MIDIOUT set_MIDIOUT set_sock_entry
                       record_event] in *;
    rewrite <- ?app_assoc, ?app_nil_r;
    (split; [reflexivity|]); (split; [reflexivity|]);
    (split; [split; [intros H; first [discriminate H | auto]
                    |intros [H|[H1 H2]]; first [discriminate | reflexivity]]|]);
    (split; [intros H; first [reflexivity | contradiction]|exact Hguard]).
Qed.

(** ** The first token of a payload *)

Lemma lstrip_app (a b : pystr) :
  lstrip (a ++ b) = if forallb is_space a then lstrip b else lstrip a ++ b.
Proof.
  induction a as [|c a IH]; [reflexivity|]. simpl.
  destruct (is_space c); [exact IH|reflexivity].
Qed.

Lemma not_sep_not_space (c : Z) : is_sep c = false -> is_space c = false.
Proof. unfold is_sep. intros H. apply orb_false_iff in H. tauto. Qed.

(** Stripping the right end keeps the first character, if any is kept. *)
Lemma rstrip_head (c : Z) (r : pystr) :
  rev (lstrip (rev (c :: r))) = [] \/
  exists r', rev (lstrip (rev (c :: r))) = c :: r'.
Proof.
  cbn [rev]. rewrite lstrip_app. destruct (forallb is_space (rev r)).
  - simpl. destruct (is_space c); [left; reflexivity|right].
    exists []. reflexivity.
  - right. rewrite rev_app_distr. eexists. reflexivity.
Qed.

Lemma strip_token (t rest : pystr) :
  t <> [] -> existsb is_sep t = false ->
  exists rest', strip (t ++ rest) = t ++ rest' /\
    (rest' = [] \/ exists c r r', rest = c :: r /\ rest' = c :: r').
Proof.
  intros Ht Hsep. unfold strip.
  assert (Hl : lstrip (t ++ rest) = t ++ rest).
  { destruct t as [|c0 t0]; [contradiction|]. simpl in Hsep |- *.
    apply orb_false_iff in Hsep. rewrite (not_sep_not_space c0); tauto. }
  rewrite Hl, rev_app_distr, lstrip_app.
  assert (Hr : lstrip (rev t) = rev t).
  { destruct (rev t) as [|z u] eqn:E.
    - reflexivity.
    - simpl. rewrite (not_sep_not_space z); [reflexivity|].
      assert (Hin : In z t) by (apply in_rev; rewrite E; left; reflexivity).
      destruct (is_sep z) eqn:Hz; [|reflexivity].
      assert (H : existsb is_sep t = true)
        by (apply existsb_exists; exists z; auto).
      congruence. }
  destruct (forallb is_space (rev rest)).
  - rewrite Hr, rev_involutive. exists []. rewrite app_nil_r. auto.
  - rewrite rev_app_distr, rev_involutive.
    exists (rev (lstrip (rev rest))). split; [reflexivity|].
    destruct rest as [|c r]; [left; reflexivity|].
    destruct (rstrip_head c r) as [H|[r' H]]; [left; exact H|right].
    exists c, r, r'. auto.
Qed.

Lemma split_from_token (t rest : pystr) :
  existsb is_sep t = false ->
  forall (cur : pystr) (in_sep : bool), t <> [] ->
  split_from cur in_sep (t ++ rest) = split_from (cur ++ t) false rest.
Proof.
  induction t as [|c t IH]; intros Hsep cur in_sep Ht; [contradiction|].
  simpl in Hsep. apply orb_false_iff in Hsep. destruct Hsep as [Hc Hsep].
  cbn [app split_from]. rewrite Hc.
  destruct t as [|c' t'].
  - reflexivity.
  - rewrite (IH Hsep (cur ++ [c]) false) by discriminate.
    rewrite <- app_assoc. reflexivity.
Qed.

Lemma first_token (pre t rest : pystr) :
  forallb is_space pre = true ->
  t <> [] -> existsb is_sep t = false ->
  (forall c, head rest = Some c -> is_sep c = true) ->
  exists toks, re_split_commas_spaces (strip (pre ++ t ++ rest)) = t :: toks.
Proof.
  intros Hpre Ht Hsep Hrest.
  assert (Hs : strip (pre ++ t ++ rest) = strip (t ++ rest)).
  { unfold strip. rewrite lstrip_app, Hpre. reflexivity. }
  rewrite Hs. destruct (strip_token t rest Ht Hsep) as [rest' [-> Hr]].
  unfold re_split_commas_spaces.
  rewrite (split_from_token t rest' Hsep [] false Ht). cbn [app].
  destruct Hr as [->|[c [r [r' [-> ->]]]]].
  - exists []. reflexivity.
  - cbn [split_from]. rewrite (Hrest c eq_refl). eexists. reflexivity.
Qed.

(** X14. Only the first token of a payload counts.  When the payload
    decodes to optional white space, then a non-empty run [t] of characters
    that are neither commas nor white space, then nothing or a comma or
    white space and anything after it, the connection dispatches exactly
    [t] to [_send_note], whatever follows. *)
Theorem first_token_dispatched {Sur : Surroundings} (conn : connection)
    (data : pybytes) (pre t rest : pystr) (w : world) :
  recv conn = RecvData data ->
  utf8_decode Ignore data = Some (pre ++ t ++ rest) ->
  forallb is_space pre = true ->
  t <> [] -> existsb is_sep t = false ->
  (forall c, head rest = Some c -> is_sep c = true) ->
  token_of data = Some t /\
  handle_conn conn w = _send_note t (after_recv conn w).
Proof.
  intros Hrecv Hdec Hpre Ht Hsep Hrest.
  assert (Htok : token_of data = Some t).
  { unfold token_of. rewrite Hdec.
    destruct (first_token pre t rest Hpre Ht Hsep Hrest) as [toks ->].
    rewrite bool_decide_eq_false_2 by exact Ht. reflexivity. }
  split; [exact Htok|].
  rewrite handle_conn_run, Hrecv, Htok.
  rewrite bool_decide_eq_false_2; [reflexivity|].
  intros ->. simpl in Hdec. injection Hdec as Hdec.
  destruct pre; [destruct t; [contradiction|discriminate]|discriminate].
Qed.

Lemma first_token_dispatched_witness :
  token_of [32; 67; 52; 44; 32; 68; 52; 10] = Some [67; 52].
Proof.
  refine (proj1 (@first_token_dispatched (quiet two_loops)
    {| settimeout_raises := None;
       recv := RecvData [32; 67; 52; 44; 32; 68; 52; 10] |}
    [32; 67; 52; 44; 32; 68; 52; 10] [32] [67; 52] [44; 32; 68; 52; 10]
    started_world eq_refl eq_refl eq_refl _ eq_refl _)).
  - discriminate.
  - intros c H. injection H as <-. reflexivity.
Defined.

(** ** UTF-8: what the client encodes, the server decodes *)

Lemma lor_disjoint (k n r : Z) :
  0 <= n -> 0 <= r < 2 ^ n -> Z.lor (k * 2 ^ n) r = k * 2 ^ n + r.
Proof.
  intros Hn Hr.
  assert (H : Z.land (k * 2 ^ n) r = 0).
  { apply Z.bits_inj'. intros m Hm.
    rewrite Z.land_spec, Z.bits_0, <- Z.shiftl_mul_pow2 by exact Hn.
    destruct (Z.lt_ge_cases m n) as [Hlt|Hge].
    - rewrite Z.shiftl_spec_low by exact Hlt. reflexivity.
    - rewrite <- (Z.mod_small r (2 ^ n)) by exact Hr.
      rewrite Z.mod_pow2_bits_high by lia. apply andb_false_r. }
  pose proof (Z.add_lor_land (k * 2 ^ n) r). lia.
Qed.

Lemma land_low (x n : Z) : 0 <= n -> Z.land x (Z.ones n) = x mod 2 ^ n.
Proof. apply Z.land_ones. Qed.

Lemma cp2_arith (b0 b1 : Z) : cp2 b0 b1 = (b0 mod 32) * 64 + b1 mod 64.
Proof.
  unfold cp2.
  change 0x1F with (Z.ones 5). change 0x3F with (Z.ones 6).
  rewrite !land_low, Z.shiftl_mul_pow2 by lia.
  apply (lor_disjoint (b0 mod 2 ^ 5) 6); [lia|].
  apply Z.mod_pos_bound. reflexivity.
Qed.

Lemma cp3_arith (b0 b1 b2 : Z) :
  cp3 b0 b1 b2 = (b0 mod 16) * 4096 + (b1 mod 64) * 64 + b2 mod 64.
Proof.
  unfold cp3.
  change 0x0F with (Z.ones 4). change 0x3F with (Z.ones 6).
  rewrite !land_low, !Z.shiftl_mul_pow2 by lia.
  pose proof (Z.mod_pos_bound b1 (2 ^ 6) eq_refl).
  pose proof (Z.mod_pos_bound b2 (2 ^ 6) eq_refl).
  rewrite (lor_disjoint (b1 mod 2 ^ 6) 6) by lia.
  rewrite (lor_disjoint (b0 mod 2 ^ 4) 12) by
    (change (2 ^ 6) with 64 in *; change (2 ^ 12) with 4096; lia).
  change (2 ^ 6) with 64; change (2 ^ 12) with 4096; change (2 ^ 4) with 16.
  lia.
Qed.

Lemma cp4_arith (b0 b1 b2 b3 : Z) :
  cp4 b0 b1 b2 b3 =
  (b0 mod 8) * 262144 + (b1 mod 64) * 4096 + (b2 mod 64) * 64 + b3 mod 64.
Proof.
  unfold cp4.
  change 0x07 with (Z.ones 3). change 0x3F with (Z.ones 6).
  rewrite !land_low, !Z.shiftl_mul_pow2 by lia.
  pose proof (Z.mod_pos_bound b1 (2 ^ 6) eq_refl).
  pose proof (Z.mod_pos_bound b2 (2 ^ 6) eq_refl).
  pose proof (Z.mod_pos_bound b3 (2 ^ 6) eq_refl).
  rewrite (lor_disjoint (b2 mod 2 ^ 6) 6) by lia.
  rewrite (lor_disjoint (b1 mod 2 ^ 6) 12) by
    (change (2 ^ 6) with 64 in *; change (2 ^ 12) with 4096; lia).
  rewrite (lor_disjoint (b0 mod 2 ^ 3) 18) by
    (change (2 ^ 6) with 64 in *; change (2 ^ 12) with 4096;
     change (2 ^ 18) with 262144; lia).
  change (2 ^ 6) with 64; change (2 ^ 12) with 4096;
    change (2 ^ 18) with 262144; change (2 ^ 3) with 8. lia.
Qed.

(** The bytes the encoder writes, as numbers. *)
Lemma lead_byte (k n q : Z) :
  0 <= n -> 0 <= q < 2 ^ n -> Z.lor (k * 2 ^ n) q = k * 2 ^ n + q.
Proof. apply lor_disjoint. Qed.

Lemma cont_byte (x : Z) : Z.lor 0x80 (Z.land x 0x3F) = 128 + x mod 64.
Proof.
  change 0x3F with (Z.ones 6). rewrite land_low by lia.
  change 0x80 with (2 * 2 ^ 6).
  rewrite lor_disjoint; [reflexivity|lia|apply Z.mod_pos_bound; reflexivity].
Qed.

Ltac decide_tests :=
  repeat match goal with
    | |- context [?a <? ?b] =>
      first [rewrite (proj2 (Z.ltb_lt a b)) by (Z.div_mod_to_equations; lia)
            |rewrite (proj2 (Z.ltb_ge a b)) by (Z.div_mod_to_equations; lia)]
    | |- context [?a <=? ?b] =>
      first [rewrite (proj2 (Z.leb_le a b)) by (Z.div_mod_to_equations; lia)
            |rewrite (proj2 (Z.leb_gt a b)) by (Z.div_mod_to_equations; lia)]
    | |- context [?a =? ?b] =>
      first [rewrite (proj2 (Z.eqb_eq a b)) by (Z.div_mod_to_equations; lia)
            |rewrite (proj2 (Z.eqb_neq a b)) by (Z.div_mod_to_equations; lia)]
    end.

Ltac split_tests :=
  decide_tests;
  repeat match goal with
    | |- context [?a <? ?b] =>
      let E := fresh "E" in destruct (Z.ltb_spec a b) as [E|E]; decide_tests
    end.

Lemma utf8_char_round_trip (c : Z) (b : pybytes) :
  utf8_encode_char c = Some b ->
  forall (e : errors) (bs : pybytes),
    utf8_decode e (b ++ bs) = emit c (utf8_decode e bs).
Proof.
  unfold utf8_encode_char. intros H e bs.
  destruct (c <? 0) eqn:H0; [discriminate|]. apply Z.ltb_ge in H0.
  destruct (c <? 0x80) eqn:H1.
  { apply Z.ltb_lt in H1. injection H as <-. cbn [app utf8_decode].
    rewrite (proj2 (Z.ltb_lt c 0x80)) by lia. reflexivity. }
  apply Z.ltb_ge in H1.
  destruct (c <? 0x800) eqn:H2.
  { apply Z.ltb_lt in H2. injection H as <-.
    rewrite cont_byte, Z.shiftr_div_pow2 by lia.
    change 0xC0 with (6 * 2 ^ 5).
    rewrite lead_byte by (change (2 ^ 6) with 64; change (2 ^ 5) with 32;
                          Z.div_mod_to_equations; lia).
    change (2 ^ 6) with 64; change (2 ^ 5) with 32.
    cbn [app utf8_decode]. unfold is_cont. rewrite cp2_arith.
    assert (Hc : (6 * 32 + c / 64) mod 32 * 64 + (128 + c mod 64) mod 64 = c)
      by (Z.div_mod_to_equations; lia).
    rewrite Hc. split_tests; reflexivity. }
  apply Z.ltb_ge in H2.
  destruct (c <? 0x10000) eqn:H3.
  { apply Z.ltb_lt in H3.
    destruct ((0xD800 <=? c) && (c <=? 0xDFFF)) eqn:Hs; [discriminate|].
    injection H as <-.
    assert (Hsur : c < 0xD800 \/ 0xDFFF < c).
    { apply andb_false_iff in Hs. destruct Hs as [Hs|Hs];
        [left; apply Z.leb_gt, Hs|right; apply Z.leb_gt, Hs]. }
    rewrite !cont_byte, !Z.shiftr_div_pow2 by lia.
    change 0xE0 with (14 * 2 ^ 4).
    rewrite lead_byte by (change (2 ^ 12) with 4096; change (2 ^ 4) with 16;
                          Z.div_mod_to_equations; lia).
    change (2 ^ 12) with 4096; change (2 ^ 6) with 64; change (2 ^ 4) with 16.
    cbn [app utf8_decode]. unfold ok2_of3, is_cont. rewrite cp3_arith.
    assert (Hc : (14 * 16 + c / 4096) mod 16 * 4096 +
                 (128 + c / 64 mod 64) mod 64 * 64 + (128 + c mod 64) mod 64 = c)
      by (Z.div_mod_to_equations; lia).
    rewrite Hc. split_tests; reflexivity. }
  apply Z.ltb_ge in H3.
  destruct (c <? 0x110000) eqn:H4; [|discriminate].
  apply Z.ltb_lt in H4. injection H as <-.
  rewrite !cont_byte, !Z.shiftr_div_pow2 by lia.
  change 0xF0 with (30 * 2 ^ 3).
  rewrite lead_byte by (change (2 ^ 18) with 262144; change (2 ^ 3) with 8;
                        Z.div_mod_to_equations; lia).
  change (2 ^ 18) with 262144; change (2 ^ 12) with 4096;
    change (2 ^ 6) with 64; change (2 ^ 3) with 8.
  cbn [app utf8_decode]. unfold ok2_of4, is_cont. rewrite cp4_arith.
  assert (Hc : (30 * 8 + c / 262144) mod 8 * 262144 +
               (128 + c / 4096 mod 64) mod 64 * 4096 +
               (128 + c / 64 mod 64) mod 64 * 64 + (128 + c mod 64) mod 64 = c)
    by (Z.div_mod_to_equations; lia).
  rewrite Hc. split_tests; reflexivity.
Qed.

Lemma utf8_decode_encoded (e : errors) (s : pystr) (bs tail : pybytes) :
  utf8_encode s = Some bs ->
  utf8_decode e (bs ++ tail) =
  match utf8_decode e tail with
  | Some t => Some (s ++ t)
  | None => None
  end.
Proof.
  revert bs. induction s as [|c s IH]; intros bs H.
  - injection H as <-. simpl. destruct (utf8_decode e tail); reflexivity.
  - cbn [utf8_encode] in H.
    destruct (utf8_encode_char c) as [b|] eqn:Hc; [|discriminate].
    destruct (utf8_encode s) as [bs'|]; [|discriminate].
    injection H as <-.
    rewrite <- app_assoc, (utf8_char_round_trip c b Hc), (IH bs' eq_refl).
    destruct (utf8_decode e tail); reflexivity.
Qed.

Lemma utf8_encode_app (a b : pystr) :
  utf8_encode (a ++ b) =
  match utf8_encode a, utf8_encode b with
  | Some x, Some y => Some (x ++ y)
  | _, _ => None
  end.
Proof.
  induction a as [|c a IH]; simpl.
  - destruct (utf8_encode b); reflexivity.
  - rewrite IH. destruct (utf8_encode_char c) as [x|]; [|reflexivity].
    destruct (utf8_encode a) as [y|]; [|reflexivity].
    destruct (utf8_encode b) as [z|]; [|reflexivity].
    rewrite app_assoc. reflexivity.
Qed.

(** X15. Decoding undoes encoding: whatever text the client manages to
    encode as UTF-8, the server's decoder reads back unchanged, under
    [errors="ignore"] as under [errors="strict"]; nothing is dropped. *)
Theorem utf8_round_trip (e : errors) (s : pystr) (bs : pybytes) :
  utf8_encode s = Some bs -> utf8_decode e bs = Some s.
Proof.
  intros H. pose proof (utf8_decode_encoded e s bs [] H) as Hd.
  cbn [utf8_decode] in Hd. rewrite !app_nil_r in Hd. exact Hd.
Qed.

Lemma utf8_round_trip_witness :
  utf8_decode Ignore [67; 35; 52; 227; 131; 137; 10] = Some [67; 35; 52; 0x30C9; 10].
Proof. apply (utf8_round_trip Ignore [67; 35; 52; 0x30C9; 10]). reflexivity. Defined.

(** ** The client *)

Lemma note_keys_plain :
  forallb (fun n =>
             negb (bool_decide (note_key n = [])) &&
             negb (existsb is_sep (note_key n)) &&
             bool_decide (utf8_encode (note_key n ++ [10]) =
                          Some (note_key n ++ [10])))
          (seqZ 0 128) = true.
Proof. vm_compute. reflexivity. Qed.

(** A note name is plain ASCII without commas or white space. *)
Lemma note_name_plain (note : pystr) (n : Z) :
  NOTE_TO_NUM !! note = Some n ->
  note <> [] /\ existsb is_sep note = false /\
  utf8_encode (note ++ [10]) = Some (note ++ [10]).
Proof.
  intros H. apply note_fold_lookup in H as [[Hn <-] | H];
    [|rewrite lookup_empty in H; discriminate].
  pose proof note_keys_plain as Hall. rewrite forallb_forall in Hall.
  apply list_elem_of_In, Hall in Hn.
  apply andb_true_iff in Hn as [Hn H3]. apply andb_true_iff in Hn as [H1 H2].
  apply negb_true_iff, bool_decide_eq_false in H1.
  apply negb_true_iff in H2. apply bool_decide_eq_true in H3. auto.
Qed.

(** The server's token for the line the client sends. *)
Lemma token_of_line (note : pystr) (bytes : pybytes) :
  note <> [] -> existsb is_sep note = false ->
  utf8_encode (note ++ [10]) = Some bytes ->
  token_of bytes = Some note.
Proof.
  intros Hne Hsep Henc. unfold token_of.
  pose proof (utf8_decode_encoded Ignore _ _ [] Henc) as Hd.
  cbn [utf8_decode] in Hd. rewrite !app_nil_r in Hd. rewrite Hd.
  destruct (first_token [] note [10] eq_refl Hne Hsep) as [toks Ht].
  { intros c [= <-]. reflexivity. }
  cbn [app] in Ht. rewrite Ht, bool_decide_eq_false_2 by exact Hne.
  reflexivity.
Qed.

Lemma handle_conn_token {Sur : Surroundings} (conn : connection)
    (data : pybytes) (t : pystr) (w : world) :
  recv conn = RecvData data -> token_of data = Some t ->
  handle_conn conn w = _send_note t (after_recv conn w).
Proof.
  intros Hrecv Htok. rewrite handle_conn_run, Hrecv, Htok.
  rewrite bool_decide_eq_false_2; [reflexivity|].
  intros ->. discriminate Htok.
Qed.

Ltac client_crush :=
  repeat match goal with
    | H : exists _, _ |- _ => destruct H
    | H : _ /\ _ |- _ => destruct H
    | H : _ \/ _ |- _ => destruct H
    end;
  simplify_eq; try congruence; try lia; eauto 10.

Ltac client_leaf :=
  cbn [send_note.payload send_note.status send_note.printed];
  repeat split; intros; try lia; try discriminate;
  try solve [client_crush];
  try solve [intuition (try discriminate; try congruence; try lia)];
  try solve [eexists; split; [eauto 10|]; eauto 10];
  try solve [do 2 eexists; split; [eauto 10|]; eauto 10];
  try solve [eexists; repeat split; eauto; right; eexists;
             split; [eassumption|congruence]].

(** X16. The client's exit status tells exactly how far it got.  It is 1
    for a missing argument or a socket that could not be created, and for
    nothing else; 2 exactly when the connection failed; 3 exactly when,
    connected, the line could not be encoded or [sendall] raised; 4 exactly
    when the line was delivered and reading the reply raised something
    other than a timeout; 5 exactly when it was delivered and the reply,
    stripped, is not empty and starts with [err] and not with [ok], in any
    letter case; 0 exactly when it was delivered and the reply timed out,
    was empty, started with [ok] or did not start with [err].  There is no
    other status.  What the client hands to [sendall] is its second argument
    followed by a newline, encoded as UTF-8, and it does so exactly when it
    has a connection and the line can be encoded; further arguments are
    ignored. *)
Theorem client_exit_status (lower : pystr -> pystr) (argv : list pystr)
    (env : send_note.surroundings) :
  let r := send_note.main lower argv env in
  (send_note.status r = 1 <->
     (length argv < 2)%nat \/ send_note.socket_raises env <> None) /\
  (send_note.status r = 2 <->
     (2 <= length argv)%nat /\ send_note.socket_raises env = None /\
     send_note.connect_raises env <> None) /\
  (send_note.status r = 3 <->
     exists note, argv !! 1%nat = Some note /\
       send_note.socket_raises env = None /\
       send_note.connect_raises env = None /\
       (utf8_encode (note ++ [10]) = None \/
        exists bytes, utf8_encode (note ++ [10]) = Some bytes /\
          send_note.sendall_raises env bytes <> None)) /\
  (send_note.status r = 4 <->
     exists bytes e, delivered argv env bytes /\
       send_note.reply env = RecvRaises e /\ e <> SocketTimeout) /\
  (send_note.status r = 5 <->
     exists bytes data, delivered argv env bytes /\
       send_note.reply env = RecvData data /\ reply_text data <> [] /\
       starts_with (lit "ok") (lower (reply_text data)) = false /\
       starts_with (lit "err") (lower (reply_text data)) = true) /\
  (send_note.status r = 0 <->
     exists bytes, delivered argv env bytes /\
       (send_note.reply env = RecvRaises SocketTimeout \/
        exists data, send_note.reply env = RecvData data /\
          (reply_text data = [] \/
           starts_with (lit "ok") (lower (reply_text data)) = true \/
           starts_with (lit "err") (lower (reply_text data)) = false))) /\
  0 <= send_note.status r <= 5 /\
  (forall bytes, send_note.payload r = Some bytes <->
     (exists note, argv !! 1%nat = Some note /\
                   utf8_encode (note ++ [10]) = Some bytes) /\
     send_note.socket_raises env = None /\
     send_note.connect_raises env = None).
Proof.
  unfold send_note.main, send_note.read_reply, delivered. cbv zeta.
  destruct argv as [|a0 [|note extra]].
  1, 2: cbn [send_note.payload send_note.status send_note.printed length
             lookup list_lookup];
    repeat split; intros; try lia; try discriminate; try (left; lia);
    client_crush.
  change ((a0 :: note :: extra) !! 1%nat) with (Some note).
  assert (Hlen : (2 <= length (a0 :: note :: extra))%nat) by (simpl; lia).
  generalize dependent (length (a0 :: note :: extra)). intros len Hlen.
  destruct (send_note.socket_raises env) as [e|] eqn:Hsock;
    [client_leaf|].
  destruct (send_note.connect_raises env) as [e|] eqn:Hconn;
    [client_leaf|].
  destruct (utf8_encode (note ++ [10])) as [bytes|] eqn:Henc;
    [|client_leaf].
  destruct (send_note.sendall_raises env bytes) as [e|] eqn:Hsend;
    [client_leaf|].
  destruct (send_note.reply env) as [e|data] eqn:Hreply.
  - destruct e; client_leaf.
  - change (strip (default [] (utf8_decode Ignore data)))
      with (reply_text data).
    destruct (bool_decide (reply_text data = [])) eqn:Hempty;
      [apply bool_decide_eq_true in Hempty
      |apply bool_decide_eq_false in Hempty];
      [client_leaf|].
    destruct (starts_with (lit "ok") (lower (reply_text data))) eqn:Hok;
      [client_leaf|].
    destruct (starts_with (lit "err") (lower (reply_text data))) eqn:Herr;
      client_leaf.
Qed.

(** X17. What the client is given reaches the server as its token.  When
    the client connects, its argument is not empty, holds no comma and no
    white space and can be encoded, the line it sends makes the server
    dispatch exactly that argument to [_send_note], once the server has read
    the line. *)
Theorem client_argument_is_server_token {Sur : Surroundings}
    (lower : pystr -> pystr) (argv0 note : pystr) (extra : list pystr)
    (env : send_note.surroundings) :
  send_note.socket_raises env = None ->
  send_note.connect_raises env = None ->
  note <> [] -> existsb is_sep note = false ->
  is_Some (utf8_encode note) ->
  exists bytes,
    send_note.payload (send_note.main lower (argv0 :: note :: extra) env)
      = Some bytes /\
    token_of bytes = Some note /\
    forall (conn : connection) (w : world),
      recv conn = RecvData bytes ->
      handle_conn conn w = _send_note note (after_recv conn w).
Proof.
  intros Hsock Hconn Hne Hsep [b Hb].
  assert (Henc : utf8_encode (note ++ [10]) = Some (b ++ [10])).
  { rewrite utf8_encode_app, Hb. reflexivity. }
  pose proof (token_of_line note _ Hne Hsep Henc) as Htok.
  exists (b ++ [10]). split; [|split; [exact Htok|]].
  - unfold send_note.main. rewrite Hsock, Hconn, Henc.
    destruct (send_note.sendall_raises env _); [reflexivity|].
    destruct (send_note.reply env) as [[]|data]; try reflexivity.
    unfold send_note.read_reply. repeat case_match; reflexivity.
  - intros conn w Hrecv. apply (handle_conn_token conn _ _ w Hrecv Htok).
Qed.

Lemma client_argument_is_server_token_witness :
  exists bytes,
    send_note.payload
      (send_note.main (List.map ascii_lower)
         [lit "send_note.py"; lit "C#4"] answering) = Some bytes /\
    token_of bytes = Some (lit "C#4") /\
    forall (conn : connection) (w : world),
      recv conn = RecvData bytes ->
      @handle_conn (quiet two_loops) usable_stderr conn w =
      @_send_note (quiet two_loops) usable_stderr (lit "C#4") (after_recv conn w).
Proof.
  apply (@client_argument_is_server_token (quiet two_loops)
           (List.map ascii_lower) (lit "send_note.py") (lit "C#4") [] answering);
    [reflexivity|reflexivity|discriminate|reflexivity|eexists; reflexivity].
Defined.

(** X18. A note name given to the client is played.  For every name of the
    note map, the client sends the name and a newline as they are; when the
    server reads that line with the output port open and the MIDI output
    takes both messages, the connection ends with exactly a Note On with
    velocity 127 for the note's number, a pause of 50 ms and a Note Off with
    velocity 0, on the status bytes in force. *)
Theorem note_name_is_played {Sur : Surroundings} (lower : pystr -> pystr)
    (argv0 note : pystr) (extra : list pystr) (env : send_note.surroundings)
    (n : Z) (conn : connection) (w : world) (h : handle) :
  NOTE_TO_NUM !! note = Some n ->
  send_note.socket_raises env = None ->
  send_note.connect_raises env = None ->
  recv conn = RecvData (note ++ [10]) ->
  _MIDIOUT w = Some h ->
  send_raises (trace (after_recv conn w)) [_STATUS_ON w; n; 127] = None ->
  send_raises (trace (after_recv conn w)
                 ++ [EvSend [_STATUS_ON w; n; 127]; EvSleep 50])
              [_STATUS_OFF w; n; 0] = None ->
  send_note.payload (send_note.main lower (argv0 :: note :: extra) env)
    = Some (note ++ [10]) /\
  handle_conn conn w =
  (Ok tt, record_event (EvSend [_STATUS_OFF w; n; 0])
            (record_event (EvSleep 50)
               (record_event (EvSend [_STATUS_ON w; n; 127])
                  (after_recv conn w)))).
Proof.
  intros Hn Hsock Hconn Hrecv Hout H1 H2.
  destruct (note_name_plain note n Hn) as [Hne [Hsep Henc]].
  split.
  - unfold send_note.main. rewrite Hsock, Hconn, Henc.
    destruct (send_note.sendall_raises env _); [reflexivity|].
    destruct (send_note.reply env) as [[]|data]; try reflexivity.
    unfold send_note.read_reply. repeat case_match; reflexivity.
  - rewrite (handle_conn_token conn _ note w Hrecv
               (token_of_line note _ Hne Hsep Henc)).
    assert (Hst : _STATUS_ON (after_recv conn w) = _STATUS_ON w /\
                  _STATUS_OFF (after_recv conn w) = _STATUS_OFF w /\
                  _MIDIOUT (after_recv conn w) = _MIDIOUT w).
    { unfold after_recv, after_settimeout.
      destruct (settimeout_raises conn); [destruct (_DEBUG w)|]; auto. }
    destruct Hst as [Hon [Hoff Hm]].
    pose proof (send_note_sent note n h (after_recv conn w) Hn) as Hs.
    unfold after_on, note_on, note_off in Hs. rewrite Hon, Hoff, Hm in Hs.
    apply Hs; assumption.
Qed.

Lemma note_name_is_played_witness :
  send_note.payload
    (send_note.main (List.map ascii_lower)
       [lit "send_note.py"; lit "C#4"] answering) = Some (lit "C#4" ++ [10]) /\
  @handle_conn (quiet two_loops) usable_stderr
    {| settimeout_raises := None; recv := RecvData (lit "C#4" ++ [10]) |}
    started_world =
  (Ok tt, record_event (EvSend [0x82; 61; 0])
            (record_event (EvSleep 50)
               (record_event (EvSend [0x92; 61; 127])
                  (after_recv
                     {| settimeout_raises := None;
                        recv := RecvData (lit "C#4" ++ [10]) |}
                     started_world)))).
Proof.
  apply (@note_name_is_played (quiet two_loops) (List.map ascii_lower)
           (lit "send_note.py") (lit "C#4") [] answering 61
           {| settimeout_raises := None; recv := RecvData (lit "C#4" ++ [10]) |}
           started_world {| port_index := 0 |});
    first [reflexivity | vm_compute; reflexivity].
Defined.

(** ** The modes of [main] *)

Lemma record_events_app (a b : list event) (w : world) :
  record_events (a ++ b) w = record_events b (record_events a w).
Proof. apply foldl_app. Qed.

Lemma record_events_trace (evs : list event) (w : world) :
  trace (record_events evs w) = trace w ++ evs.
Proof.
  revert w. induction evs as [|e evs IH]; intros w; simpl.
  - symmetry. apply app_nil_r.
  - rewrite IH. simpl. rewrite <- app_assoc. reflexivity.
Qed.

Lemma record_events_frame (evs : list event) (w : world) :
  _MIDIOUT (record_events evs w) = _MIDIOUT w /\
  _STATUS_ON (record_events evs w) = _STATUS_ON w /\
  _STATUS_OFF (record_events evs w) = _STATUS_OFF w /\
  sock_entry (record_events evs w) = sock_entry w.
Proof.
  revert w. induction evs as [|e evs IH]; intros w; simpl; [auto|].
  destruct (IH (record_event e w)) as (-> & -> & -> & ->). auto.
Qed.

Lemma for_each_events {A} (f : A -> event) (l : list A) (w : world) :
  for_each l (fun x => event_ (f x)) w = (Ok tt, record_events (List.map f l) w).
Proof.
  revert w. induction l as [|x l IH]; intros w; [reflexivity|].
  cbn [for_each]. unfold mbind, prog_bind. cbn [event_ modify].
  unfold event_ at 1, modify at 1. rewrite IH. reflexivity.
Qed.

Lemma for_each_i_events {A} (f : nat -> A -> event) (l : list A) (i : nat)
    (w : world) :
  for_each_i i l (fun j x => event_ (f j x)) w =
  (Ok tt, record_events (imap (fun j => f (i + j)%nat) l) w).
Proof.
  revert i w. induction l as [|x l IH]; intros i w; [reflexivity|].
  cbn [for_each_i imap]. unfold mbind, prog_bind.
  unfold event_ at 1, modify at 1. rewrite IH.
  rewrite Nat.add_0_r. unfold record_events. cbn [foldl].
  replace (imap ((fun j => f (i + j)%nat) ∘ S) l)
    with (imap (fun j => f (S i + j)%nat) l); [reflexivity|].
  apply imap_ext. intros j y _. simpl. f_equal. lia.
Qed.

Section MainFacts.
Context {Sur : Surroundings} {R : PyRuntime}.

Lemma exit_with_selection_error_run {A} (matched_disps all_disps : list pystr)
    (check_mode : bool) (w : world) :
  @_exit_with_selection_error usable_stderr A matched_disps all_disps check_mode w =
  (Raise (SystemExit 2),
   record_events (selection_error_lines matched_disps all_disps) w).
Proof.
  unfold _exit_with_selection_error, selection_error_lines.
  rewrite record_events_app.
  unfold mbind at 1, prog_bind at 1.
  assert (H1 : (if bool_decide (length matched_disps = 0%nat)
                then _error MsgNoMatch
                else _error (MsgAmbiguous (length matched_disps));;
                     _info MsgMatchedHeader;;
                     for_each matched_disps (fun m => _info (MsgMatched m))) w =
               (Ok tt,
                record_events
                  (if bool_decide (length matched_disps = 0%nat)
                   then [EvLog ERROR MsgNoMatch]
                   else EvLog ERROR (MsgAmbiguous (length matched_disps))
                        :: EvLog INFO MsgMatchedHeader
                        :: List.map (fun m => EvLog INFO (MsgMatched m))
                                    matched_disps) w)).
  { destruct (bool_decide _); [reflexivity|].
    unfold mbind, prog_bind, _error, _info.
    change (@_log usable_stderr) with (fun l m => event_ (EvLog l m)).
    cbv beta. unfold event_ at 1 2, modify at 1 2.
    rewrite (for_each_events (fun m => EvLog INFO (MsgMatched m))).
    reflexivity. }
  rewrite H1.
  unfold mbind, prog_bind, _info.
  change (@_log usable_stderr) with (fun l m => event_ (EvLog l m)).
  cbv beta. unfold event_ at 1 2, modify at 1 2.
  rewrite (for_each_i_events (fun i p => EvLog INFO (MsgAvailable i p))).
  reflexivity.
Qed.

Lemma list_ports_run (w : world) :
  _list_ports w =
  match midiout_raises (trace w) with
  | Some e => (Raise (Exception e), w)
  | None =>
    match list_ports (trace w) with
    | inl e => (Raise (Exception e), w)
    | inr ports => (Ok ports, w)
    end
  end.
Proof.
  unfold _list_ports, new_midiout, get_ports, mbind, prog_bind.
  destruct (midiout_raises (trace w)); reflexivity.
Qed.

(** [main] without [--list], step by step. *)
Lemma main_run (argv : list pystr) (cfg : pyval) (w : world) :
  lit "--list" ∉ argv ->
  main argv cfg w =
  let check_mode := bool_decide (lit "--check" ∈ argv) in
  match (if negb check_mode then _ensure_singleton_sock_or_exit w
         else (Ok tt, w)) with
  | (Raise e, w1) => (Raise e, w1)
  | (Ok _, w1) =>
    match _list_ports w1 with
    | (Raise e, w2) => (Raise e, w2)
    | (Ok ports, w2) =>
      match _resolve_port ports cfg with
      | Raise e => (Raise e, w2)
      | Ok (None, matched_disps, all_disps) =>
        _exit_with_selection_error matched_disps all_disps check_mode w2
      | Ok (Some port_name, _, _) =>
        match _channel_from_config cfg with
        | Raise e => (Raise e, w2)
        | Ok ch =>
          let w3 := set_STATUS (0x90 + (ch - 1)) (0x80 + (ch - 1)) w2 in
          if check_mode then
            (Raise (SystemExit 0),
             record_event (EvPrint (MsgCheckOk (_port_display port_name) ch)) w3)
          else
            match _open_midi_out port_name w3 with
            | (Ok true, w4) =>
              (Ok tt, record_event EvRunApp
                        (record_event EvStartServerThread w4))
            | (Ok false, w4) =>
              (Raise (SystemExit 1),
               record_event
                 (EvLog ERROR (MsgOpenFailed (_port_display port_name))) w4)
            | (Raise e, w4) => (Raise e, w4)
            end
        end
      end
    end
  end.
Proof.
  intros Hlist. unfold main.
  rewrite (bool_decide_eq_false_2 _ Hlist). cbn zeta.
  unfold mbind at 1, prog_bind at 1. cbn [mret prog_ret].
  unfold mbind at 1, prog_bind at 1.
  assert (Hg : (if negb (bool_decide (lit "--check" ∈ argv))
                then _ensure_singleton_sock_or_exit else mret tt) w =
               (if negb (bool_decide (lit "--check" ∈ argv))
                then _ensure_singleton_sock_or_exit w else (Ok tt, w)))
    by (destruct (negb _); reflexivity).
  rewrite Hg. clear Hg.
  destruct (if negb (bool_decide (lit "--check" ∈ argv))
            then _ensure_singleton_sock_or_exit w else (Ok tt, w))
    as [[[]|e] w1]; [|reflexivity].
  unfold mbind at 1, prog_bind at 1.
  destruct (_list_ports w1) as [[ports|e] w2]; [|reflexivity].
  unfold mbind at 1, prog_bind at 1, lift at 1.
  destruct (_resolve_port ports cfg) as [[[[port_name|] m] a]|e];
    [|reflexivity|reflexivity].
  unfold mbind at 1, prog_bind at 1, lift at 1.
  destruct (_channel_from_config cfg) as [ch|e]; [|reflexivity].
  unfold mbind at 1, prog_bind at 1, modify at 1.
  destruct (bool_decide (lit "--check" ∈ argv)); [reflexivity|].
  unfold mbind at 1, prog_bind at 1.
  destruct (_open_midi_out port_name _) as [[[|]|e] w4]; reflexivity.
Qed.

Lemma resolve_ok_channel (ports : list pystr) (cfg : pyval) (r : resolution) :
  _resolve_port ports cfg = Ok r ->
  exists ch, _channel_from_config cfg = Ok ch /\ 1 <= ch <= 16.
Proof.
  intros H. destruct (resolve_port_ok_midi ports cfg r H) as [md Hmd].
  destruct cfg as [| | | | | |d]; try discriminate.
  assert (Hch : exists ch, _channel_from_config (PyDict d) = Ok ch).
  { rewrite channel_of_midi. destruct (configured_channel d) as [v|]; [|eauto].
    destruct (py_int v); eauto. }
  destruct Hch as [ch Hch]. exists ch. split; [exact Hch|].
  apply (channel_range _ _ Hch).
Qed.

End MainFacts.

(** X19. With [--list] among the arguments, [main] prints the healed name
    of every port, in the order of the catalog, and exits with status 0.  It
    reads no configuration and touches neither the socket path nor the MIDI
    output, whatever else is on the command line; when the catalog cannot be
    read the exception escapes before anything is printed. *)
Theorem main_list_mode {Sur : Surroundings} {R : PyRuntime}
    (argv : list pystr) (cfg : pyval) (w : world) :
  lit "--list" ∈ argv ->
  main argv cfg w =
  match midiout_raises (trace w) with
  | Some e => (Raise (Exception e), w)
  | None =>
    match list_ports (trace w) with
    | inl e => (Raise (Exception e), w)
    | inr ports =>
      (Raise (SystemExit 0),
       record_events
         (List.map (fun p => EvPrint (MsgPort (_port_display p))) ports) w)
    end
  end.
Proof.
  intros Hlist. unfold main.
  rewrite (bool_decide_eq_true_2 _ Hlist).
  unfold mbind at 1, prog_bind at 1. unfold mbind at 1, prog_bind at 1.
  rewrite list_ports_run.
  destruct (midiout_raises (trace w)); [reflexivity|].
  destruct (list_ports (trace w)) as [e|ports]; [reflexivity|].
  unfold mbind at 1, prog_bind at 1, print.
  rewrite (for_each_events (fun p => EvPrint (MsgPort (_port_display p)))).
  reflexivity.
Qed.

Lemma main_list_mode_witness :
  @main (quiet two_loops) ascii_runtime usable_stderr
    [lit "server.py"; lit "--check"; lit "--list"] scalar_midi_cfg symlink_world =
  (Raise (SystemExit 0),
   record_events [EvPrint (MsgPort (lit "Loop A"));
                  EvPrint (MsgPort (lit "Loop B"))] symlink_world).
Proof.
  apply (@main_list_mode (quiet two_loops) ascii_runtime
           [lit "server.py"; lit "--check"; lit "--list"] scalar_midi_cfg
           symlink_world).
  do 2 apply list_elem_of_further. apply list_elem_of_here.
Defined.

(** X20. With [--check] and without [--list], [main], given the
    configuration that was loaded, only validates: it never returns, leaves
    the socket path and the output handle as they were, and does nothing but
    write lines.  When the catalog is read and resolution selects one port,
    it sets the status bytes for the configured channel, prints the one line
    [OK] with the healed name and the channel, and exits with status 0; when
    resolution selects none or several, it logs the diagnostics and exits
    with status 2, the status bytes unchanged. *)
Theorem main_check_mode {Sur : Surroundings} {R : PyRuntime}
    (argv : list pystr) (cfg : pyval) (w : world) :
  lit "--list" ∉ argv -> lit "--check" ∈ argv ->
  let r := main argv cfg w in
  r.1 <> Ok tt /\
  sock_entry r.2 = sock_entry w /\ _MIDIOUT r.2 = _MIDIOUT w /\
  (exists evs, trace r.2 = trace w ++ evs /\ forallb is_output evs = true) /\
  (forall ports port_name matched_disps all_disps,
     _list_ports w = (Ok ports, w) ->
     _resolve_port ports cfg = Ok (Some port_name, matched_disps, all_disps) ->
     exists ch, _channel_from_config cfg = Ok ch /\ 1 <= ch <= 16 /\
       r = (Raise (SystemExit 0),
            record_event (EvPrint (MsgCheckOk (_port_display port_name) ch))
              (set_STATUS (0x90 + (ch - 1)) (0x80 + (ch - 1)) w))) /\
  (forall ports matched_disps all_disps,
     _list_ports w = (Ok ports, w) ->
     _resolve_port ports cfg = Ok (None, matched_disps, all_disps) ->
     r = (Raise (SystemExit 2),
          record_events (selection_error_lines matched_disps all_disps) w)).
Proof.
  intros Hlist Hcheck r. subst r. rewrite (main_run argv cfg w Hlist).
  rewrite (bool_decide_eq_true_2 _ Hcheck). cbn zeta. cbn [negb].
  rewrite list_ports_run.
  destruct (midiout_raises (trace w)) as [e|].
  { cbn [fst snd]. repeat split; try discriminate.
    exists []. rewrite app_nil_r. auto. }
  destruct (list_ports (trace w)) as [e|ports].
  { cbn [fst snd]. repeat split; try discriminate.
    exists []. rewrite app_nil_r. auto. }
  destruct (_resolve_port ports cfg) as [[[[port_name|] m] a]|e] eqn:Hres.
  - destruct (resolve_ok_channel ports cfg _ Hres) as [ch [Hch Hrange]].
    rewrite Hch. cbn [fst snd record_event set_STATUS sock_entry _MIDIOUT trace].
    split; [discriminate|]. split; [reflexivity|]. split; [reflexivity|].
    split; [exists [EvPrint (MsgCheckOk (_port_display port_name) ch)]; auto|].
    split; [|intros ports' m' a' [= <-] H; congruence].
    intros ports' p' m' a' [= <-] H.
    assert (p' = port_name) by congruence. subst p'. exists ch. auto.
  - rewrite exit_with_selection_error_run. cbn [fst snd].
    destruct (record_events_frame (selection_error_lines m a) w)
      as (Hm & _ & _ & He).
    split; [discriminate|]. split; [exact He|]. split; [exact Hm|].
    split.
    { exists (selection_error_lines m a).
      split; [apply record_events_trace|].
      unfold selection_error_lines. rewrite forallb_app.
      apply andb_true_iff. split.
      - destruct (bool_decide _); [reflexivity|]. cbn [forallb andb is_output].
        apply forallb_forall. intros e He'. apply in_map_iff in He'.
        destruct He' as [x [<- _]]. reflexivity.
      - cbn [forallb andb is_output]. apply forallb_forall. intros e He'.
        apply list_elem_of_In, elem_of_lookup_imap in He'.
        destruct He' as [i [x [-> _]]]. reflexivity. }
    split; [intros ports' p' m' a' [= <-] H; congruence|].
    intros ports' m' a' [= <-] H.
    assert (m' = m /\ a' = a) as [-> ->] by (split; congruence).
    reflexivity.
  - cbn [fst snd]. split; [discriminate|]. split; [reflexivity|].
    split; [reflexivity|].
    split; [exists []; rewrite app_nil_r; auto|].
    split; [intros ports' p' m' a' [= <-] H; congruence|].
    intros ports' m' a' [= <-] H; congruence.
Qed.

(** X21. Without [--list] and [--check], [main] stops at the guard when the
    socket path is taken: a live server there makes it exit with status 0
    after the one probe, a symbolic link with status 1 after the one error
    line.  In both cases the configuration is not consulted and the MIDI
    system is not asked for anything. *)
Theorem main_stops_at_guard {Sur : Surroundings} {R : PyRuntime}
    (argv : list pystr) (cfg : pyval) (w : world) :
  lit "--list" ∉ argv -> lit "--check" ∉ argv ->
  (sock_entry w = SocketFile true ->
     main argv cfg w = (Raise (SystemExit 0), record_event EvProbe w)) /\
  (os_path_islink (sock_entry w) = true ->
     main argv cfg w =
     (Raise (SystemExit 1), record_event (EvLog ERROR MsgSockSymlink) w)).
Proof.
  intros Hlist Hcheck. rewrite (main_run argv cfg w Hlist).
  rewrite (bool_decide_eq_false_2 _ Hcheck). cbn zeta. cbn [negb].
  rewrite guard_run. split; intros H.
  - rewrite H. reflexivity.
  - destruct (sock_entry w); try discriminate. reflexivity.
Qed.

Lemma main_check_mode_witness :
  sock_entry
    (@main (quiet two_loops) ascii_runtime usable_stderr [lit "server.py"; lit "--check"]
       channel3_cfg symlink_world).2 = Symlink true.
Proof.
  assert (H1 : lit "--list" ∉ [lit "server.py"; lit "--check"]).
  { intros H. apply list_elem_of_In in H. vm_compute in H.
    intuition discriminate. }
  assert (H2 : lit "--check" ∈ [lit "server.py"; lit "--check"]).
  { apply list_elem_of_further, list_elem_of_here. }
  exact (proj1 (proj2 (@main_check_mode (quiet two_loops) ascii_runtime
                         [lit "server.py"; lit "--check"] channel3_cfg
                         symlink_world H1 H2))).
Defined.

Lemma main_stops_at_guard_witness :
  @main (quiet two_loops) ascii_runtime usable_stderr [lit "server.py"] scalar_midi_cfg
    symlink_world =
  (Raise (SystemExit 1),
   record_event (EvLog ERROR MsgSockSymlink) symlink_world).
Proof.
  assert (H1 : lit "--list" ∉ [lit "server.py"]).
  { intros H. apply list_elem_of_In in H. vm_compute in H.
    intuition discriminate. }
  assert (H2 : lit "--check" ∉ [lit "server.py"]).
  { intros H. apply list_elem_of_In in H. vm_compute in H.
    intuition discriminate. }
  exact (proj2 (@main_stops_at_guard (quiet two_loops) ascii_runtime
                  [lit "server.py"] scalar_midi_cfg symlink_world H1 H2)
               eq_refl).
Defined.
